(** * Session pool and stream relay of the agent container server

    A shallow embedding of the container server's session pool
    ([getSession], [updateSessionKey], [releaseSession], [cleanupSessions])
    and of its WebSocket message handler, followed by the properties the
    specification states about them.

    Modelling conventions.
    - A [PooledSession] is a JavaScript object with identity: it lives in a
      heap and is referred to by its address.  [sessionPool] (a JS [Map]
      keyed by strings, iterated in insertion order) is an association list
      from keys to addresses; [sessionKeyMap] (a JS [Map] keyed by object
      identity, never iterated) is a finite map from addresses to keys.
    - [Date.now()] readings are explicit arguments.
    - Everything the server cannot decide by itself (whether creating or
      closing an SDK session throws, what the SDK stream yields, whether
      the socket accepts a message, what other callbacks do while the handler
      is suspended on an [await]) is an explicit argument as well. *)

From Stdlib Require Import ZArith String List Bool Lia.
From stdpp Require Import base option list gmap strings.

Local Open Scope Z_scope.

(** ** JavaScript [Map<string, V>] as an insertion-ordered association list *)

Module JsMap.

Section Ops.
Context {V : Type}.

(** [Map.prototype.get]: the value stored under [k], if any. *)
Fixpoint get (k : string) (m : list (string * V)) : option V :=
  match m with
  | [] => None
  | (k', v) :: m' => if String.eqb k' k then Some v else get k m'
  end.

(** [Map.prototype.has]. *)
Definition has (k : string) (m : list (string * V)) : bool :=
  match get k m with Some _ => true | None => false end.

(** [Map.prototype.set]: an existing key keeps its position and gets the
    new value, a new key is appended. *)
Fixpoint set (k : string) (v : V) (m : list (string * V)) : list (string * V) :=
  match m with
  | [] => [(k, v)]
  | (k', v') :: m' =>
      if String.eqb k' k then (k, v) :: m' else (k', v') :: set k v m'
  end.

(** [Map.prototype.delete]. *)
Fixpoint delete (k : string) (m : list (string * V)) : list (string * V) :=
  match m with
  | [] => []
  | (k', v') :: m' =>
      if String.eqb k' k then delete k m' else (k', v') :: delete k m'
  end.

(** The representation invariant of a [Map]: keys are unique. *)
Definition wf (m : list (string * V)) : Prop := NoDup (map fst m).
End Ops.

End JsMap.

(** ** The pool *)

Module Pool.

(** An SDK session handle is opaque; only its identity matters. *)
Abbreviation SDKSession := nat (only parsing).

(** Addresses of [PooledSession] objects. *)
Abbreviation addr := nat (only parsing).

Record PooledSession := mkPooled {
  session : SDKSession;
  sessionId : string;
  createdAt : Z;
  lastUsed : Z;
  inUse : bool
}.

(** The module-level state: the objects, [sessionPool] and [sessionKeyMap]. *)
Record World := mkWorld {
  heap : list PooledSession;
  sessionPool : list (string * addr);
  sessionKeyMap : gmap addr string
}.

(** Field assignments. *)
Definition set_inUse (b : bool) (p : PooledSession) : PooledSession :=
  mkPooled (session p) (sessionId p) (createdAt p) (lastUsed p) b.
Definition set_lastUsed (t : Z) (p : PooledSession) : PooledSession :=
  mkPooled (session p) (sessionId p) (createdAt p) t (inUse p).
Definition set_sessionId (k : string) (p : PooledSession) : PooledSession :=
  mkPooled (session p) k (createdAt p) (lastUsed p) (inUse p).

Definition with_heap (h : list PooledSession) (w : World) : World :=
  mkWorld h (sessionPool w) (sessionKeyMap w).

(** JavaScript truthiness of an optional string: [undefined] and the empty
    string are falsy. *)
Definition truthy (s : option string) : bool :=
  match s with
  | Some k => negb (String.eqb k "")
  | None => false
  end.

(** What [unstable_v2_createSession], [crypto.randomUUID] and the two
    [Date.now()] readings of [prewarmSession] produce, when creation does
    not throw. *)
Record Created := mkCreated {
  c_session : SDKSession;
  c_uuid : string;
  c_createdAt : Z;
  c_lastUsed : Z
}.

(** [prewarmSession]: [None] models the thrown creation error, which the
    function catches and turns into [null]. *)
Definition prewarmSession (outcome : option Created) : option PooledSession :=
  match outcome with
  | Some c =>
      Some (mkPooled (c_session c) (String.append "prewarm-" (c_uuid c))
                     (c_createdAt c) (c_lastUsed c) false)
  | None => None
  end.

(** [pooled.inUse = true; pooled.lastUsed = Date.now()]. *)
Definition markInUse (a : addr) (now : Z) (w : World) : World :=
  with_heap (alter (fun p => set_lastUsed now (set_inUse true p)) a (heap w)) w.

(** The first entry of the pool, in iteration order, whose object is free. *)
Fixpoint firstFree (h : list PooledSession) (entries : list (string * addr))
  : option (string * addr) :=
  match entries with
  | [] => None
  | (id, a) :: rest =>
      match h !! a with
      | Some pooled => if inUse pooled then firstFree h rest else Some (id, a)
      | None => firstFree h rest
      end
  end.

(** The first branch of [getSession],
    [userSessionId && sessionPool.has(userSessionId)] and [!pooled.inUse]:
    the entry stored under the caller's key, when the key is truthy and
    present and its entry free. *)
Definition reusable (userSessionId : option string) (w : World) : option addr :=
  match userSessionId with
  | Some k =>
      if truthy userSessionId && JsMap.has k (sessionPool w) then
        match JsMap.get k (sessionPool w) with
        | Some a =>
            match heap w !! a with
            | Some pooled => if inUse pooled then None else Some a
            | None => None
            end
        | None => None
        end
      else None
  | None => None
  end.

(** [getSession].  [now] is the [Date.now()] reading of the two reuse
    branches, [outcome] what session creation does, and [env] what other
    callbacks do to the shared state while the function is suspended on
    [await prewarmSession(...)].  The new object becomes reachable from the
    shared state when it is stored in the pool, so it is allocated there. *)
Definition getSession (now : Z) (outcome : option Created) (env : World -> World)
    (userSessionId : option string) (w : World) : option addr * World :=
  match reusable userSessionId w with
  | Some a => (Some a, markInUse a now w)
  | None =>
      match firstFree (heap w) (sessionPool w) with
      | Some (id, a) =>
          let w1 := markInUse a now w in
          (Some a, mkWorld (heap w1) (sessionPool w1) (<[a := id]> (sessionKeyMap w1)))
      | None =>
          let w1 := env w in
          match prewarmSession outcome with
          | Some newSession =>
              let a := length (heap w1) in
              (Some a,
               mkWorld (heap w1 ++ [newSession])
                       (JsMap.set (sessionId newSession) a (sessionPool w1))
                       (<[a := sessionId newSession]> (sessionKeyMap w1)))
          | None => (None, w1)
          end
      end
  end.

(** The callback of the warm-up and top-up pre-warm operations:
    [sessionPool.set(pooled.sessionId, pooled)] for the new object.  It does
    not touch [sessionKeyMap]. *)
Definition storePrewarmed (pooled : PooledSession) (w : World) : World :=
  mkWorld (heap w ++ [pooled])
          (JsMap.set (sessionId pooled) (length (heap w)) (sessionPool w))
          (sessionKeyMap w).

(** [updateSessionKey]. *)
Definition updateSessionKey (a : addr) (newSessionId : string) (w : World) : World :=
  let oldKey := sessionKeyMap w !! a in
  let w1 :=
    match oldKey with
    | Some old =>
        if truthy oldKey && negb (String.eqb old newSessionId) then
          mkWorld (heap w)
                  (JsMap.set newSessionId a (JsMap.delete old (sessionPool w)))
                  (<[a := newSessionId]> (sessionKeyMap w))
        else w
    | None => w
    end in
  with_heap (alter (set_sessionId newSessionId) a (heap w1)) w1.

(** [releaseSession]. *)
Definition releaseSession (a : addr) (now : Z) (w : World) : World :=
  with_heap (alter (fun p => set_lastUsed now (set_inUse false p)) a (heap w)) w.

Section Cleanup.
(** Configuration read from the environment, and whether [close()] throws
    on a given handle. *)
Variable SESSION_TIMEOUT : Z.
Variable POOL_SIZE : nat.
Variable closeThrows : SDKSession -> bool.

(** [now - pooled.lastUsed > SESSION_TIMEOUT]. *)
Definition expired (now : Z) (pooled : PooledSession) : bool :=
  SESSION_TIMEOUT <? now - lastUsed pooled.

(** The eviction loop of [cleanupSessions] over the entries of the pool.
    Only the entry being visited is ever deleted, so iterating the live
    map visits exactly the entries it had when the loop started.  The
    second component lists the handles whose [close()] returned. *)
Fixpoint evictLoop (now : Z) (entries : list (string * addr)) (w : World)
    (closed : list SDKSession) : World * list SDKSession :=
  match entries with
  | [] => (w, closed)
  | (id, a) :: rest =>
      match heap w !! a with
      | Some pooled =>
          if expired now pooled then
            if closeThrows (session pooled) then evictLoop now rest w closed
            else
              evictLoop now rest
                (mkWorld (heap w) (JsMap.delete id (sessionPool w))
                         (base.delete a (sessionKeyMap w)))
                (closed ++ [session pooled])
          else evictLoop now rest w closed
      | None => evictLoop now rest w closed
      end
  end.

(** The number of pool entries whose object is free. *)
Definition availableCount (w : World) : nat :=
  length (List.filter (fun e : string * addr =>
                         match heap w !! e.2 with
                         | Some pooled => negb (inUse pooled)
                         | None => false
                         end) (sessionPool w)).

(** [cleanupSessions]: the state after the eviction loop, the handles
    closed, and the number of pre-warm operations started (their results
    are stored later, by their own callbacks). *)
Definition cleanupSessions (now : Z) (w : World) : World * list SDKSession * nat :=
  let '(w1, closed) := evictLoop now (sessionPool w) w [] in
  let available := availableCount w1 in
  (w1, closed, if (available <? POOL_SIZE)%nat then (POOL_SIZE - available)%nat else 0%nat).
End Cleanup.

(** The body of the response of the [/ready] route. *)
Record PoolStats := mkPoolStats {
  ready : bool;
  uptime : Z;
  poolSize : nat;
  available : nat
}.

(** The [/ready] route of the container's HTTP server: the status code and
    the body.  [serverReady] is the flag of that name, [now] the
    [Date.now()] reading. *)
Definition readyRoute (serverReady : bool) (now startTime : Z) (w : World) : Z * PoolStats :=
  (if serverReady then 200 else 503,
   mkPoolStats serverReady (now - startTime) (length (sessionPool w)) (availableCount w)).

End Pool.

(** ** The WebSocket message handler *)

Module Relay.
Import Pool.

(** A content block of an assistant message. *)
Record Block := mkBlock { btype : string; text : string }.

(** An SDK stream message, as far as the handler inspects it.  [content]
    is [msg.message?.content]; [None] stands for an absent value. *)
Record SDKMessage := mkMsg {
  mtype : string;
  subtype : string;
  session_id : string;
  content : option (list Block)
}.

(** The JSON objects the handler passes to [ws.send]. *)
Inductive Wire :=
| WError (message : string)
| WMetadata (message : string)
| WSessionCreated (claudeSessionId : string)
| WMessage (messageType : string) (data : SDKMessage)
| WTextChunk (chunk : string)
| WComplete (response : string) (claudeSessionId : string).

(** What one run of the handler does, in program order: the messages
    [ws.send] accepted and the calls of the pool operations. *)
Inductive Ev :=
| EvSend (m : Wire)
| EvAcquire (r : option addr)
| EvRekey (a : addr) (k : string)
| EvRelease (a : addr).

(** The places where the handler is suspended and other callbacks may run. *)
Inductive AwaitPoint :=
| AwPrewarm
| AwGetSession
| AwSend
| AwNext (i : nat).

(** Everything outside the handler's control during one run. *)
Record Script := mkScript {
  (** [JSON.parse] and the destructuring: a thrown error, or the [prompt]
      and [sessionId] properties. *)
  parsed : string + (option string * option string);
  tAcquire : Z;
  creation : option Created;
  (** [session.stream()] and [session.send(prompt)]: [Some e] throws [e]. *)
  streamThrows : option string;
  sendThrows : option string;
  (** The messages the stream yields, and how it ends after them: it is
      exhausted ([None]) or raises ([Some e]). *)
  events : list SDKMessage;
  streamEnd : option string;
  tRelease : Z;
  (** Whether the n-th call of [ws.send] throws. *)
  wsThrows : nat -> option string;
  interfere : AwaitPoint -> World -> World
}.

(** The state a run threads: the shared state, the number of [ws.send]
    calls so far, and the handler's local [assignedSession]. *)
Record St := mkSt {
  world : World;
  sends : nat;
  assignedSession : option addr
}.

(** Computations that update the state, may throw an error message, and
    emit events. *)
Definition M (A : Type) : Type := St -> (string + A) * St * list Ev.

#[export] Instance M_ret : MRet M := fun A x s => (inr x, s, []).

#[export] Instance M_bind : MBind M := fun A B f m s =>
  match m s with
  | (inl e, s1, t1) => (inl e, s1, t1)
  | (inr x, s1, t1) =>
      match f x s1 with
      | (r, s2, t2) => (r, s2, t1 ++ t2)
      end
  end.

Definition throw {A : Type} (e : string) : M A := fun s => (inl e, s, []).

(** [try { body } catch (error) { handler } finally { fin }].  A [return]
    inside [body] is the end of [body] here. *)
Definition tryCatchFinally (body : M unit) (handler : string -> M unit)
    (fin : M unit) : M unit := fun s =>
  match body s with
  | (r1, s1, t1) =>
      match (match r1 with
             | inl e => handler e s1
             | inr x => (inr x, s1, [])
             end) with
      | (r2, s2, t2) =>
          match fin s2 with
          | (r3, s3, t3) =>
              (match r3 with inl e => inl e | inr _ => r2 end, s3, t1 ++ t2 ++ t3)
          end
      end
  end.

Section Handler.
Variable sc : Script.

(** [ws.send(JSON.stringify(m))]. *)
Definition wsSend (m : Wire) : M unit := fun s =>
  let s' := mkSt (world s) (S (sends s)) (assignedSession s) in
  match wsThrows sc (sends s) with
  | Some e => (inl e, s', [])
  | None => (inr tt, s', [EvSend m])
  end.

(** Suspension on an [await]. *)
Definition yield (p : AwaitPoint) : M unit := fun s =>
  (inr tt, mkSt (interfere sc p (world s)) (sends s) (assignedSession s), []).

Definition callGetSession (userSessionId : option string) : M (option addr) := fun s =>
  match getSession (tAcquire sc) (creation sc) (interfere sc AwPrewarm)
                   userSessionId (world s) with
  | (r, w) => (inr r, mkSt w (sends s) (assignedSession s), [EvAcquire r])
  end.

Definition callUpdateSessionKey (a : addr) (k : string) : M unit := fun s =>
  (inr tt, mkSt (updateSessionKey a k (world s)) (sends s) (assignedSession s),
   [EvRekey a k]).

Definition callReleaseSession (a : addr) : M unit := fun s =>
  (inr tt, mkSt (releaseSession a (tRelease sc) (world s)) (sends s) (assignedSession s),
   [EvRelease a]).

Definition setAssigned (r : option addr) : M unit := fun s =>
  (inr tt, mkSt (world s) (sends s) r, []).

Definition getAssigned : M (option addr) := fun s => (inr (assignedSession s), s, []).

(** [assignedSession.sessionId].  A JavaScript reference always denotes an
    object; the empty string stands for the read through an address that
    denotes none. *)
Definition readSessionId (a : addr) : M string := fun s =>
  (inr (match heap (world s) !! a with
        | Some pooled => sessionId pooled
        | None => ""
        end), s, []).

Definition isInit (msg : SDKMessage) : bool :=
  String.eqb (mtype msg) "system" && String.eqb (subtype msg) "init".

(** The loop over the content blocks of an assistant message. *)
Fixpoint textBlocks (blocks : list Block) (fullResponse : string) : M string :=
  match blocks with
  | [] => mret fullResponse
  | block :: rest =>
      if String.eqb (btype block) "text" then
        wsSend (WTextChunk (text block)) ;;
        textBlocks rest (String.append fullResponse (text block))
      else textBlocks rest fullResponse
  end.

(** [for await (const msg of stream) { ... }] from its [i]-th iteration on,
    with the loop's variables [fullResponse] and [realSessionId]. *)
Fixpoint drain (a : addr) (i : nat) (evs : list SDKMessage)
    (fullResponse realSessionId : string) : M (string * string) :=
  yield (AwNext i) ;;
  match evs with
  | [] =>
      match streamEnd sc with
      | Some e => throw e
      | None => mret (fullResponse, realSessionId)
      end
  | msg :: rest =>
      realSessionId' ←
        (if isInit msg then
           callUpdateSessionKey a (session_id msg) ;;
           wsSend (WSessionCreated (session_id msg)) ;;
           mret (session_id msg)
         else mret realSessionId) ;
      wsSend (WMessage (mtype msg) msg) ;;
      fullResponse' ←
        (if String.eqb (mtype msg) "assistant" then
           match content msg with
           | Some blocks => textBlocks blocks fullResponse
           | None => mret fullResponse
           end
         else mret fullResponse) ;
      if String.eqb (mtype msg) "result" then mret (fullResponse', realSessionId')
      else drain a (S i) rest fullResponse' realSessionId'
  end.

(** The handler from [assignedSession.session.stream()] to the completion
    message. *)
Definition relay (a : addr) : M unit :=
  match streamThrows sc with Some e => throw e | None => mret tt end ;;
  yield AwSend ;;
  match sendThrows sc with Some e => throw e | None => mret tt end ;;
  sid ← readSessionId a ;
  r ← drain a 0 (events sc) "" sid ;
  wsSend (WComplete r.1 r.2).

(** The [try] block. *)
Definition handlerTry : M unit :=
  match parsed sc with
  | inl e => throw e
  | inr (prompt, incomingSessionId) =>
      if negb (truthy prompt) then wsSend (WError "No prompt provided")
      else
        wsSend (WMetadata "Prompt received") ;;
        r ← callGetSession incomingSessionId ;
        yield AwGetSession ;;
        setAssigned r ;;
        match r with
        | None => wsSend (WError "Failed to get session")
        | Some a => relay a
        end
  end.

(** The [catch] block. *)
Definition handlerCatch (errorMessage : string) : M unit :=
  wsSend (WError errorMessage).

(** The [finally] block. *)
Definition handlerFinally : M unit :=
  r ← getAssigned ;
  match r with
  | Some a => callReleaseSession a
  | None => mret tt
  end.

(** The [ws.on("message", ...)] callback. *)
Definition handler : M unit :=
  tryCatchFinally handlerTry handlerCatch handlerFinally.

(** One run of the handler from shared state [w]: the outcome, the final
    state and the events, in order. *)
Definition run (w : World) : (string + unit) * St * list Ev :=
  handler (mkSt w 0%nat None).
End Handler.

(** The wire messages among a run's events. *)
Fixpoint wires (t : list Ev) : list Wire :=
  match t with
  | [] => []
  | EvSend m :: t' => m :: wires t'
  | _ :: t' => wires t'
  end.

End Relay.

(** ** The Worker's bridge from the container socket to the response stream

    The [/query] route of the Worker opens a WebSocket to the container and
    copies what arrives into a [ReadableStream] of JSON lines.  The stream
    controller is modelled by the flag [closed]: once [controller.close()]
    has been called, [enqueue] and [close] throw.  No code path calls
    [controller.error], so [desiredSize] is never [null]. *)

Module Worker.

Section Bridge.
(** The parsed JSON value, kept whole for [JSON.stringify(message)]. *)
Context {P : Type}.

(** A parsed socket message, as far as the listener inspects it:
    [m_error] is [Some] of the text of [message.error] when that property
    is truthy, [m_claudeSessionId] is [Some] when that property is truthy. *)
Record Message := mkMessage {
  m_error : option string;
  m_type : option string;
  m_claudeSessionId : option string;
  m_payload : P
}.

(** The lines enqueued: [{ error }] or the message itself. *)
Inductive Line :=
| LineError (message : string)
| LineMessage (m : Message).

(** What the socket and the timer deliver.  [OnMessage None] is a message
    on which [JSON.parse] or the property access throws. *)
Inductive Event :=
| OnMessage (parsed : option Message)
| OnClose
| OnError
| OnTimeout.

Record State := mkState {
  sessionId : option string;
  closed : bool;
  wsClosed : bool;
  out : list Line
}.

(** [closeStream]: on a closed controller the first call throws and the
    [catch] swallows it, before [ws.close()] is reached. *)
Definition closeStream (err : option string) (st : State) : State :=
  if closed st then st
  else
    mkState (sessionId st) true true
            (out st ++ match err with Some e => [LineError e] | None => [] end).

(** The [message] listener. *)
Definition onMessage (parsed : option Message) (st : State) : State :=
  match parsed with
  | None => st
  | Some message =>
      match m_error message with
      | Some e => closeStream (Some e) st
      | None =>
          let st1 :=
            match m_type message, m_claudeSessionId message with
            | Some ty, Some sid =>
                if String.eqb ty "session_created"
                then mkState (Some sid) (closed st) (wsClosed st) (out st)
                else st
            | _, _ => st
            end in
          if closed st1 then st1
          else
            let st2 := mkState (sessionId st1) (closed st1) (wsClosed st1)
                               (out st1 ++ [LineMessage message]) in
            match m_type message with
            | Some ty => if String.eqb ty "complete" then closeStream None st2 else st2
            | None => st2
            end
      end
  end.

(** One delivery: the [message], [close] and [error] listeners and the
    timeout callback. *)
Definition deliver (ev : Event) (st : State) : State :=
  match ev with
  | OnMessage parsed => onMessage parsed st
  | OnClose => closeStream None st
  | OnError => closeStream (Some "WebSocket connection failed") st
  | OnTimeout => closeStream (Some "Query timeout") st
  end.

(** The state after the socket was accepted and the request sent. *)
Definition opened (sid : option string) : State := mkState sid false false [].

Definition bridge (evs : list Event) (st : State) : State :=
  fold_left (fun st0 ev => deliver ev st0) evs st.
End Bridge.

Arguments Message : clear implicits.
Arguments Line : clear implicits.
Arguments Event : clear implicits.
Arguments State : clear implicits.

(** The body of the response of the [/pool-status] route. *)
Record PoolStatus := mkPoolStatus {
  containerRunning : bool;
  poolReady : bool;
  poolSize : nat;
  available : nat;
  uptime : Z
}.

Definition notRunning : PoolStatus := mkPoolStatus false false 0 0 0.

(** The [/pool-status] route.  [response] is what the request to the
    container's [/ready] route gave: its status code and parsed body, or
    [None] when there is no port or a step of the request threw.
    [response.ok] holds for the status codes 200 to 299, and [x || 0] is
    [x] for a number. *)
Definition poolStatus (response : option (Z * Pool.PoolStats)) : PoolStatus :=
  match response with
  | Some (status, data) =>
      if (200 <=? status) && (status <=? 299) then
        mkPoolStatus true
                     (Pool.ready data && (0 <? Pool.available data)%nat)
                     (Pool.poolSize data) (Pool.available data) (Pool.uptime data)
      else notRunning
  | None => notRunning
  end.

End Worker.

(** ** The session list of the browser client

    The chat page and the sessions page keep a list of sessions in
    [localStorage]; these are the list operations they apply to it. *)

Module Client.

Record Session := mkSession {
  id : string;
  createdAt : Z;
  messageCount : nat;
  preview : string
}.

(** [text.substring(0, 50) + (text.length > 50 ? '...' : '')]; a character
    stands for a UTF-16 code unit. *)
Definition previewOf (text : string) : string :=
  String.append (String.substring 0 50 text)
                (if (50 <? String.length text)%nat then "..." else "").

(** The update of the session list at the end of [handleQuery]: the
    session with the selected id gets the new count and preview, or, if
    there is none, a new session is put in front. *)
Definition recordSession (selectedSessionId : string) (now : Z) (count : nat)
    (text : string) (allSessions : list Session) : list Session :=
  if existsb (fun s => String.eqb (id s) selectedSessionId) allSessions then
    map (fun s => if String.eqb (id s) selectedSessionId
                  then mkSession (id s) (createdAt s) count (previewOf text)
                  else s) allSessions
  else mkSession selectedSessionId now count (previewOf text) :: allSessions.

(** [deleteSession] of the sessions page. *)
Definition deleteSession (sessionId : string) (sessions : list Session) : list Session :=
  List.filter (fun s => negb (String.eqb (id s) sessionId)) sessions.

End Client.

(** ** Vocabulary of the properties and sample states *)

Module Samples.
Import Pool.

(** The state before the first pre-warm. *)
Definition emptyWorld : World := mkWorld [] [] ∅.

Definition created1 : Created := mkCreated 7 "u1" 100 100.

Definition pooledA : PooledSession := mkPooled 1 "prewarm-a" 0 0 false.
Definition pooledB : PooledSession := mkPooled 2 "prewarm-b" 0 0 false.

(** The state after the initial warm-up stored two sessions. *)
Definition twoWarm : World := storePrewarmed pooledB (storePrewarmed pooledA emptyWorld).

(** One entry, held by a request since time 0. *)
Definition oneHeld : World :=
  mkWorld [mkPooled 1 "prewarm-a" 0 0 true] [("prewarm-a", 0%nat)] {[ 0%nat := "prewarm-a" ]}.

(** One free entry, tracked under its key. *)
Definition oneTracked : World :=
  mkWorld [pooledA] [("prewarm-a", 0%nat)] {[ 0%nat := "prewarm-a" ]}.

End Samples.

Import Pool.

(** No entry of the pool is free. *)
Definition noFree (w : World) : Prop :=
  forall id a pooled,
    In (id, a) (sessionPool w) -> heap w !! a = Some pooled -> inUse pooled = true.

(** The eviction loop closes and deletes the object at [a]: it is expired
    and its [close()] returns. *)
Definition closable (SESSION_TIMEOUT : Z) (closeThrows : SDKSession -> bool)
    (now : Z) (h : list PooledSession) (a : addr) : bool :=
  match h !! a with
  | Some pooled => expired SESSION_TIMEOUT now pooled && negb (closeThrows (session pooled))
  | None => false
  end.

Import Relay.

(** *** Traces *)

Definition isComplete (m : Wire) : bool :=
  match m with WComplete _ _ => true | _ => false end.

Definition isError (m : Wire) : bool :=
  match m with WError _ => true | _ => false end.

(** The concatenation of the [text_chunk] contents of a message list. *)
Fixpoint chunksOf (ws : list Wire) : string :=
  match ws with
  | [] => ""
  | WTextChunk c :: ws' => String.append c (chunksOf ws')
  | _ :: ws' => chunksOf ws'
  end.

(** The key of the last [session_created] message of a list, or [dflt]. *)
Fixpoint lastCreated (ws : list Wire) (dflt : string) : string :=
  match ws with
  | [] => dflt
  | WSessionCreated k :: ws' => lastCreated ws' k
  | _ :: ws' => lastCreated ws' dflt
  end.

(** The keys of the [session_created] messages of a list, in order. *)
Fixpoint createdKeys (ws : list Wire) : list string :=
  match ws with
  | [] => []
  | WSessionCreated k :: ws' => k :: createdKeys ws'
  | _ :: ws' => createdKeys ws'
  end.

(** The entries a run acquired and the entries it released, in order. *)
Fixpoint acquired (t : list Ev) : list addr :=
  match t with
  | [] => []
  | EvAcquire (Some a) :: t' => a :: acquired t'
  | _ :: t' => acquired t'
  end.

Fixpoint released (t : list Ev) : list addr :=
  match t with
  | [] => []
  | EvRelease a :: t' => a :: released t'
  | _ :: t' => released t'
  end.

(** *** What the drain does with the stream *)

Definition isResult (msg : SDKMessage) : bool := String.eqb (mtype msg) "result".

(** The messages the loop consumes: all up to and including the first
    result message. *)
Fixpoint consumed (evs : list SDKMessage) : list SDKMessage :=
  match evs with
  | [] => []
  | msg :: rest => if isResult msg then [msg] else msg :: consumed rest
  end.

(** The texts of the text blocks of a content array. *)
Fixpoint blockTexts (blocks : list Block) : list string :=
  match blocks with
  | [] => []
  | block :: rest =>
      if String.eqb (btype block) "text" then text block :: blockTexts rest
      else blockTexts rest
  end.

Definition eventTexts (msg : SDKMessage) : list string :=
  if String.eqb (mtype msg) "assistant" then
    match content msg with
    | Some blocks => blockTexts blocks
    | None => []
    end
  else [].

(** The events one stream message gives rise to when every send succeeds. *)
Definition eventTrace (a : addr) (msg : SDKMessage) : list Ev :=
  (if isInit msg
   then [EvRekey a (session_id msg); EvSend (WSessionCreated (session_id msg))]
   else [])
  ++ [EvSend (WMessage (mtype msg) msg)]
  ++ map (fun c => EvSend (WTextChunk c)) (eventTexts msg).

Definition fullDrain (a : addr) (evs : list SDKMessage) : list Ev :=
  flat_map (eventTrace a) (consumed evs).

(** The stream reaches a result message or ends without raising. *)
Definition reachesEnd (sc : Script) (evs : list SDKMessage) : Prop :=
  existsb isResult evs = true \/ streamEnd sc = None.

Definition noWsThrow (sc : Script) : Prop := forall n, wsThrows sc n = None.

(** The state in which the handler reads [assignedSession.sessionId] before
    the drain, and the value it reads, when the request is well formed. *)
Definition startKey (sc : Script) (w : World) : string :=
  match parsed sc with
  | inr (_, uid) =>
      match getSession (tAcquire sc) (creation sc) (interfere sc AwPrewarm) uid w with
      | (Some a, w1) =>
          match heap (interfere sc AwSend (interfere sc AwGetSession w1)) !! a with
          | Some pooled => sessionId pooled
          | None => ""
          end
      | (None, _) => ""
      end
  | inl _ => ""
  end.

(** Terminal success of a request: the message parses and has a prompt, a
    session is acquired, neither [stream()] nor [send()] throws, the stream
    reaches its end, and the socket accepts every message. *)
Definition terminalSuccess (sc : Script) (w : World) : Prop :=
  exists prompt uid a,
    parsed sc = inr (prompt, uid) /\ truthy prompt = true /\
    (getSession (tAcquire sc) (creation sc) (interfere sc AwPrewarm) uid w).1 = Some a /\
    streamThrows sc = None /\ sendThrows sc = None /\
    reachesEnd sc (events sc) /\ noWsThrow sc.

(** *** Reasoning about computations *)

(** [wp m s Q]: the outcome, final state and events of [m] from [s]
    satisfy [Q]. *)
Definition wp {A : Type} (m : M A) (s : St)
    (Q : string + A -> St -> list Ev -> Prop) : Prop :=
  Q (m s).1.1 (m s).1.2 (m s).2.

(** A computation that leaves [assignedSession] alone and whose events are
    a prefix of [E]: all of [E] when it returns, in which case it returns
    [val]; it returns whenever no send throws and [ok] holds. *)
Definition post {A : Type} (sc : Script) (s : St) (E : list Ev) (val : A) (ok : Prop)
  : string + A -> St -> list Ev -> Prop :=
  fun r s' t =>
    assignedSession s' = assignedSession s /\
    (exists rest, E = t ++ rest) /\
    (noWsThrow sc -> t = E) /\
    (forall x, r = inr x -> t = E /\ x = val) /\
    (noWsThrow sc -> ok -> r = inr val).

(** Every [session_created] event of a trace comes immediately after the
    re-keying to the same key. *)
Definition createdAfterRekey (t : list Ev) : Prop :=
  forall l1 l2 k,
    t = l1 ++ EvSend (WSessionCreated k) :: l2 ->
    exists l0 a, l1 = l0 ++ [EvRekey a k].

(** Every [session_created] event of a trace is immediately followed by
    the [message] event of an init message with the same id. *)
Definition createdBeforeMessage (t : list Ev) : Prop :=
  forall l1 l2 k,
    t = l1 ++ EvSend (WSessionCreated k) :: l2 ->
    exists msg l3,
      l2 = EvSend (WMessage (mtype msg) msg) :: l3 /\
      isInit msg = true /\ session_id msg = k.

Definition countWire (f : Wire -> bool) (ws : list Wire) : nat :=
  length (List.filter f ws).

(** *** The shape of a run *)

Definition metadata : Ev := EvSend (WMetadata "Prompt received").

(** What [getSession] returns to the handler, if the handler calls it. *)
Definition acquisitionOf (sc : Script) (w : World) : option addr :=
  match parsed sc with
  | inr (_, uid) =>
      (getSession (tAcquire sc) (creation sc) (interfere sc AwPrewarm) uid w).1
  | inl _ => None
  end.

(** The completion message of a run that consumes its stream. *)
Definition completeOf (sc : Script) (w : World) : Wire :=
  WComplete
    (fold_left String.append (flat_map eventTexts (consumed (events sc))) "")
    (fold_left (fun k msg => if isInit msg then session_id msg else k)
               (consumed (events sc)) (startKey sc w)).

(** The events of a run ending in state [st], by how far the run got:
    [getSession] was not called; it returned [null]; it returned an entry. *)
Inductive RunShape (sc : Script) (w : World) (st : St) : list Ev -> Prop :=
| ShapeEarly fin :
    (fin = [] \/ exists e, fin = [EvSend (WError e)]) ->
    (noWsThrow sc ->
     match parsed sc with
     | inr (prompt, _) => truthy prompt = false
     | inl _ => True
     end) ->
    RunShape sc w st fin
| ShapeUnavailable fin :
    acquisitionOf sc w = None ->
    (fin = [] \/ exists e, fin = [EvSend (WError e)]) ->
    (noWsThrow sc -> fin = [EvSend (WError "Failed to get session")]) ->
    RunShape sc w st ([metadata; EvAcquire None] ++ fin)
| ShapeRelayed a mid fin :
    acquisitionOf sc w = Some a ->
    (exists rest, fullDrain a (events sc) = mid ++ rest) ->
    (fin = [] \/ (exists e, fin = [EvSend (WError e)]) \/
     (mid = fullDrain a (events sc) /\ fin = [EvSend (completeOf sc w)])) ->
    (noWsThrow sc -> streamThrows sc = None -> sendThrows sc = None ->
     mid = fullDrain a (events sc) /\
     (fin = [EvSend (completeOf sc w)] \/
      ((exists e, fin = [EvSend (WError e)]) /\ ~ reachesEnd sc (events sc)))) ->
    (forall pooled, heap (world st) !! a = Some pooled -> inUse pooled = false) ->
    RunShape sc w st ([metadata; EvAcquire (Some a)] ++ mid ++ fin ++ [EvRelease a]).

(** The events the drain itself may emit. *)
Definition drainOnly (e : Ev) : Prop :=
  match e with
  | EvSend (WSessionCreated _) | EvSend (WMessage _ _) | EvSend (WTextChunk _)
  | EvRekey _ _ => True
  | _ => False
  end.

(** *** Sample requests *)

Module RelaySamples.

Definition initMsg (k : string) : SDKMessage := mkMsg "system" "init" k None.
Definition resultMsg : SDKMessage := mkMsg "result" "success" "" None.
Definition helloMsg : SDKMessage :=
  mkMsg "assistant" "" ""
        (Some [mkBlock "text" "Hel"; mkBlock "tool_use" ""; mkBlock "text" "lo"]).

(** A pool whose only entry is free and stored, and tracked, under "abc". *)
Definition resumable : World :=
  mkWorld [mkPooled 1 "abc" 0 0 false] [("abc", 0%nat)] {[ 0%nat := "abc" ]}.

(** A request for session "abc" during which nothing fails. *)
Definition request (evs : list SDKMessage) : Script :=
  mkScript (inr (Some "hi", Some "abc")) 10 None None None evs None 20
           (fun _ => None) (fun _ w => w).

End RelaySamples.

(** *** The structure of the pool state *)

(** Consistency of the pool state: keys are unique, every stored or
    recorded address denotes an object, an object is stored under at most
    one key, and an object with a recorded key is stored under no other
    key. *)
Definition poolInv (w : World) : Prop :=
  JsMap.wf (sessionPool w) /\
  (forall k a, In (k, a) (sessionPool w) -> (a < length (heap w))%nat) /\
  (forall a k, sessionKeyMap w !! a = Some k -> (a < length (heap w))%nat) /\
  (forall k1 k2 a, In (k1, a) (sessionPool w) -> In (k2, a) (sessionPool w) -> k1 = k2) /\
  (forall a k k', sessionKeyMap w !! a = Some k -> In (k', a) (sessionPool w) -> k' = k).

(** One operation on the pool state, by any caller: an acquisition (during
    whose suspension other operations may run), a re-keying, a release, a
    cleanup run, or the storing of a pre-warmed session. *)
Inductive poolStep (SESSION_TIMEOUT : Z) (POOL_SIZE : nat)
    (closeThrows : SDKSession -> bool) : World -> World -> Prop :=
| StepGetSession now outcome env uid w :
    (forall w0, poolInv w0 -> poolInv (env w0)) ->
    poolStep SESSION_TIMEOUT POOL_SIZE closeThrows w
             (getSession now outcome env uid w).2
| StepUpdateSessionKey a k w :
    poolStep SESSION_TIMEOUT POOL_SIZE closeThrows w (updateSessionKey a k w)
| StepReleaseSession a now w :
    poolStep SESSION_TIMEOUT POOL_SIZE closeThrows w (releaseSession a now w)
| StepCleanupSessions now w :
    poolStep SESSION_TIMEOUT POOL_SIZE closeThrows w
             (cleanupSessions SESSION_TIMEOUT POOL_SIZE closeThrows now w).1.1
| StepStorePrewarmed pooled w :
    poolStep SESSION_TIMEOUT POOL_SIZE closeThrows w (storePrewarmed pooled w).

(** The object at [a] is free. *)
Definition freeAt (w : World) (a : addr) : Prop :=
  exists pooled, heap w !! a = Some pooled /\ inUse pooled = false.

(** What the eviction loop keeps of the pool. *)
Definition kept (SESSION_TIMEOUT : Z) (closeThrows : SDKSession -> bool)
    (now : Z) (h : list PooledSession) (e : string * addr) : bool :=
  negb (closable SESSION_TIMEOUT closeThrows now h e.2).

(** The pre-warm callbacks of a warm-up or top-up, run in order. *)
Definition storeAll (ps : list PooledSession) (w : World) : World :=
  fold_left (fun w0 pooled => storePrewarmed pooled w0) ps w.

(** Pre-warmed sessions that can all be stored in a pool with keys [keys]:
    they are free, and their ids are distinct and not among [keys]. *)
Definition freshFor (keys : list string) (ps : list PooledSession) : Prop :=
  Forall (fun pooled => inUse pooled = false) ps /\
  NoDup (map sessionId ps) /\
  (forall pooled, In pooled ps -> ~ In (sessionId pooled) keys).

(** *** Runs in which every send succeeds *)

(** No other callback touches the shared state while the handler is
    suspended. *)
Definition undisturbed (sc : Script) : Prop := forall p w, interfere sc p w = w.

(** The re-keyings the drain performs for the messages it consumes. *)
Definition rekeys (a : addr) (msgs : list SDKMessage) (w : World) : World :=
  fold_left (fun w0 msg => if isInit msg then updateSessionKey a (session_id msg) w0 else w0)
            msgs w.

(** The last message of a run that acquired an entry and whose sends all
    succeeded: the error thrown by [stream()], by [send()] or by the
    stream, or else the completion message. *)
Definition lastWire (sc : Script) (w : World) : Wire :=
  match streamThrows sc with
  | Some e => WError e
  | None =>
      match sendThrows sc with
      | Some e => WError e
      | None =>
          if existsb isResult (events sc) then completeOf sc w
          else match streamEnd sc with
               | Some e => WError e
               | None => completeOf sc w
               end
      end
  end.

(** The events the drain of such a run emits. *)
Definition drained (sc : Script) (a : addr) : list Ev :=
  match streamThrows sc, sendThrows sc with
  | None, None => fullDrain a (events sc)
  | _, _ => []
  end.

(** The stream messages forwarded as [message] wire messages, and the
    contents of the [text_chunk] messages, of a message list. *)
Fixpoint messagesOf (ws : list Wire) : list SDKMessage :=
  match ws with
  | [] => []
  | WMessage _ data :: ws' => data :: messagesOf ws'
  | _ :: ws' => messagesOf ws'
  end.

Fixpoint chunkList (ws : list Wire) : list string :=
  match ws with
  | [] => []
  | WTextChunk c :: ws' => c :: chunkList ws'
  | _ :: ws' => chunkList ws'
  end.

(** *** The Worker's bridge *)

(** A delivery that closes an open response stream: a message with a
    truthy [error], a [complete] message, the close or error of the socket,
    the timeout. *)
Definition closing {P : Type} (ev : Worker.Event P) : bool :=
  match ev with
  | Worker.OnMessage (Some m) =>
      match Worker.m_error m, Worker.m_type m with
      | Some _, _ => true
      | None, Some ty => String.eqb ty "complete"
      | None, None => false
      end
  | Worker.OnMessage None => false
  | _ => true
  end.

(** The line a delivery adds to an open response stream. *)
Definition lineOf {P : Type} (ev : Worker.Event P) : list (Worker.Line P) :=
  match ev with
  | Worker.OnMessage (Some m) =>
      match Worker.m_error m with
      | Some e => [Worker.LineError e]
      | None => [Worker.LineMessage m]
      end
  | Worker.OnMessage None => []
  | Worker.OnClose => []
  | Worker.OnError => [Worker.LineError "WebSocket connection failed"]
  | Worker.OnTimeout => [Worker.LineError "Query timeout"]
  end.

(** The deliveries up to and including the first closing one. *)
Fixpoint upToClosing {P : Type} (evs : list (Worker.Event P)) : list (Worker.Event P) :=
  match evs with
  | [] => []
  | ev :: rest => if closing ev then [ev] else ev :: upToClosing rest
  end.

(** The container's wire messages as the Worker's listener sees them after
    [JSON.parse]: only the error message has an [error] property, every
    other message has a [type]. *)
Definition toMessage (m : Wire) : Worker.Message Wire :=
  match m with
  | WError e =>
      Worker.mkMessage (if String.eqb e "" then None else Some e) None None m
  | WMetadata _ => Worker.mkMessage None (Some "metadata") None m
  | WSessionCreated k =>
      Worker.mkMessage None (Some "session_created")
                       (if String.eqb k "" then None else Some k) m
  | WMessage _ _ => Worker.mkMessage None (Some "message") None m
  | WTextChunk _ => Worker.mkMessage None (Some "text_chunk") None m
  | WComplete _ k =>
      Worker.mkMessage None (Some "complete")
                       (if String.eqb k "" then None else Some k) m
  end.

(** The deliveries a list of container messages amounts to. *)
Definition delivered (ws : list Wire) : list (Worker.Event Wire) :=
  map (fun m => Worker.OnMessage (Some (toMessage m))) ws.

(** * Properties *)

(** ** Facts about the [Map] model *)

Section JsMapFacts.
Context {V : Type}.
Implicit Types (m : list (string * V)) (k : string) (v : V).

Lemma get_set_eq k v m : JsMap.get k (JsMap.set k v m) = Some v.
Proof.
  induction m as [|[k' v'] m IH]; simpl.
  - now rewrite String.eqb_refl.
  - destruct (String.eqb k' k) eqn:E; simpl.
    + now rewrite String.eqb_refl.
    + now rewrite E.
Qed.

Lemma get_set_ne k k' v m : k <> k' -> JsMap.get k' (JsMap.set k v m) = JsMap.get k' m.
Proof.
  intros Hne. induction m as [|[k0 v0] m IH]; simpl.
  - apply String.eqb_neq in Hne. now rewrite Hne.
  - destruct (String.eqb k0 k) eqn:E; simpl.
    + apply String.eqb_eq in E. subst k0.
      apply String.eqb_neq in Hne. now rewrite Hne.
    + destruct (String.eqb k0 k'); [reflexivity | exact IH].
Qed.

Lemma get_delete_eq k m : JsMap.get k (JsMap.delete k m) = None.
Proof.
  induction m as [|[k' v'] m IH]; simpl; [reflexivity|].
  destruct (String.eqb k' k) eqn:E; simpl; [exact IH | now rewrite E].
Qed.

Lemma get_delete_ne k k' m : k <> k' -> JsMap.get k' (JsMap.delete k m) = JsMap.get k' m.
Proof.
  intros Hne. induction m as [|[k0 v0] m IH]; simpl; [reflexivity|].
  destruct (String.eqb k0 k) eqn:E; simpl.
  - apply String.eqb_eq in E. subst k0.
    apply String.eqb_neq in Hne. now rewrite Hne.
  - destruct (String.eqb k0 k'); [reflexivity | exact IH].
Qed.

Lemma In_delete k k' v m :
  In (k', v) (JsMap.delete k m) <-> k' <> k /\ In (k', v) m.
Proof.
  induction m as [|[k0 v0] m IH]; simpl; [tauto|].
  destruct (String.eqb k0 k) eqn:E.
  - apply String.eqb_eq in E. subst k0. rewrite IH. split.
    + intros [? ?]. auto.
    + intros [Hne [Heq | Hin]]; [congruence | auto].
  - apply String.eqb_neq in E. simpl. rewrite IH. split.
    + intros [Heq | [? ?]]; [|auto]. inversion Heq; subst. auto.
    + intros [Hne [Heq | Hin]]; auto.
Qed.

Lemma get_In k v m : JsMap.get k m = Some v -> In (k, v) m.
Proof.
  induction m as [|[k0 v0] m IH]; simpl; [discriminate|].
  destruct (String.eqb k0 k) eqn:E.
  - apply String.eqb_eq in E. intros [= <-]. subst. now left.
  - intros H. right. auto.
Qed.

Lemma In_get k v m : JsMap.wf m -> In (k, v) m -> JsMap.get k m = Some v.
Proof.
  unfold JsMap.wf. induction m as [|[k0 v0] m IH]; simpl; [tauto|].
  intros Hnd [Heq | Hin].
  - inversion Heq; subst. now rewrite String.eqb_refl.
  - apply NoDup_cons in Hnd as [Hnotin Hnd].
    destruct (String.eqb k0 k) eqn:E; [|auto].
    apply String.eqb_eq in E. subst k0. exfalso. apply Hnotin.
    apply list_elem_of_In. apply (in_map fst) in Hin. exact Hin.
Qed.

Lemma wf_In_unique k v v' m : JsMap.wf m -> In (k, v) m -> In (k, v') m -> v = v'.
Proof.
  intros Hwf H1 H2. apply (In_get _ _ _ Hwf) in H1, H2. congruence.
Qed.
End JsMapFacts.

(** ** Acquisition *)

Lemma firstFree_In h entries id a :
  firstFree h entries = Some (id, a) ->
  In (id, a) entries /\ exists pooled, h !! a = Some pooled /\ inUse pooled = false.
Proof.
  induction entries as [|[id' a'] rest IH]; simpl; [discriminate|].
  destruct (h !! a') as [pooled|] eqn:Hl.
  - destruct (inUse pooled) eqn:Hu.
    + intros H. destruct (IH H) as [? ?]. auto.
    + intros [= <- <-]. split; [now left | eauto].
  - intros H. destruct (IH H) as [? ?]. auto.
Qed.

Lemma reusable_Some uid w a :
  reusable uid w = Some a ->
  exists k pooled, uid = Some k /\ k <> "" /\ JsMap.get k (sessionPool w) = Some a /\
                   heap w !! a = Some pooled /\ inUse pooled = false.
Proof.
  unfold reusable, JsMap.has. destruct uid as [k|]; simpl; [|discriminate].
  destruct (String.eqb k "") eqn:E; simpl; [discriminate|].
  apply String.eqb_neq in E.
  destruct (JsMap.get k (sessionPool w)) as [a'|] eqn:Hg; [|discriminate].
  destruct (heap w !! a') as [pooled|] eqn:Hl; [|discriminate].
  destruct (inUse pooled) eqn:Hu; [discriminate|].
  intros [= <-]. eauto 10.
Qed.

Lemma noFree_firstFree w : noFree w -> firstFree (heap w) (sessionPool w) = None.
Proof.
  intros Hnf. destruct (firstFree (heap w) (sessionPool w)) as [[id a]|] eqn:E; [|reflexivity].
  apply firstFree_In in E as [Hin [pooled [Hl Hu]]].
  rewrite (Hnf _ _ _ Hin Hl) in Hu. discriminate.
Qed.

Lemma noFree_reusable uid w : noFree w -> reusable uid w = None.
Proof.
  intros Hnf. destruct (reusable uid w) as [a|] eqn:E; [|reflexivity].
  apply reusable_Some in E as (k & pooled & _ & _ & Hg & Hl & Hu).
  apply get_In in Hg. rewrite (Hnf _ _ _ Hg Hl) in Hu. discriminate.
Qed.

(** The two reuse branches of [getSession] mark the entry they return. *)
Lemma getSession_reuse_marks now outcome env uid w a w' :
  (reusable uid w <> None \/ firstFree (heap w) (sessionPool w) <> None) ->
  getSession now outcome env uid w = (Some a, w') ->
  exists pooled, heap w' !! a = Some pooled /\ inUse pooled = true /\ lastUsed pooled = now.
Proof.
  unfold getSession. intros Hor.
  destruct (reusable uid w) as [a0|] eqn:Hr.
  - intros [= <- <-]. apply reusable_Some in Hr as (k & pooled & _ & _ & _ & Hl & _).
    unfold markInUse, with_heap. cbn [heap].
    rewrite list_lookup_alter_eq, Hl. simpl. eauto.
  - destruct (firstFree (heap w) (sessionPool w)) as [[id a0]|] eqn:Hf.
    + intros [= <- <-]. apply firstFree_In in Hf as [_ [pooled [Hl _]]].
      unfold markInUse, with_heap. cbn [heap].
      rewrite list_lookup_alter_eq, Hl. simpl. eauto.
    + destruct Hor; congruence.
Qed.

(** C1 (defect): the creation branch of [getSession] returns the new entry
    without marking it.  From the empty pool, a first acquisition creates
    entry 0 and returns it with [inUse] still false; a second acquisition,
    made while the first is live, finds entry 0 free in the scan and
    returns the same entry. *)
Theorem getSession_created_entry_shared :
  let r1 := getSession 100 (Some Samples.created1) id None Samples.emptyWorld in
  let r2 := getSession 101 None id None r1.2 in
  r1.1 = Some 0%nat /\
  inUse <$> heap r1.2 !! 0%nat = Some false /\
  r2.1 = Some 0%nat.
Proof. repeat split. Qed.

(** ** Release *)

Lemma alter_twice {A : Type} (f g : A -> A) (l : list A) (i : nat) :
  (forall x, f (g x) = f x) -> alter f i (alter g i l) = alter f i l.
Proof.
  intros H. rewrite list_alter_alter_eq. apply list_alter_ext; [|reflexivity].
  intros x _. apply H.
Qed.

(** C9 (as stated, refuted): a held entry released at time 1 and released
    again at time 2 ends with [lastUsed] 2, not the 1 a single release
    leaves; and releasing, at time 5, a free entry last used at time 0
    changes the state: the release of an already-free entry is not a
    no-op. *)
Lemma releaseSession_twice_differs :
  releaseSession 0 2 (releaseSession 0 1 Samples.oneHeld)
    <> releaseSession 0 1 Samples.oneHeld /\
  inUse <$> heap Samples.oneTracked !! 0%nat = Some false /\
  releaseSession 0 5 Samples.oneTracked <> Samples.oneTracked.
Proof.
  split; [|split; [reflexivity|]]; intros H;
    apply (f_equal (fun w => lastUsed <$> heap w !! 0%nat)) in H; discriminate H.
Qed.

(** C9 (amended): releasing an entry twice leaves the state a single release
    at the time of the second call leaves; so the two states are identical
    when both calls read the same clock value, and otherwise differ in
    [lastUsed] only.  A release never fails, leaves the pool mapping, the
    key map and every other object alone, and sets [inUse] to false and
    [lastUsed] to the time of the call. *)
Theorem releaseSession_twice a t1 t2 w :
  releaseSession a t2 (releaseSession a t1 w) = releaseSession a t2 w /\
  releaseSession a t1 (releaseSession a t1 w) = releaseSession a t1 w /\
  sessionPool (releaseSession a t1 w) = sessionPool w /\
  sessionKeyMap (releaseSession a t1 w) = sessionKeyMap w /\
  (forall pooled, heap w !! a = Some pooled ->
     heap (releaseSession a t1 w) !! a =
       Some (mkPooled (session pooled) (sessionId pooled) (createdAt pooled) t1 false)) /\
  (forall b, b <> a -> heap (releaseSession a t1 w) !! b = heap w !! b).
Proof.
  assert (Htwice : forall t t', releaseSession a t' (releaseSession a t w) = releaseSession a t' w).
  { intros t t'. unfold releaseSession, with_heap. cbn [heap sessionPool sessionKeyMap].
    f_equal. now apply alter_twice. }
  split; [apply Htwice|]. split; [apply Htwice|].
  split; [reflexivity|]. split; [reflexivity|]. split.
  - intros pooled Hl. unfold releaseSession, with_heap. cbn [heap].
    now rewrite list_lookup_alter_eq, Hl.
  - intros b Hb. unfold releaseSession, with_heap. cbn [heap].
    apply list_lookup_alter_ne. congruence.
Qed.

(** ** Re-keying *)

(** C6 (as stated, refuted): after the warm-up stored two sessions, a
    request naming the key of the second one acquires it through the first
    branch of [getSession], which does not record it in [sessionKeyMap];
    [updateSessionKey] then leaves the entry under its old key in the
    mapping, with nothing under the new key, although it overwrites the
    entry's stored key. *)
Lemma updateSessionKey_untracked_not_moved :
  let r := getSession 5 None id (Some "prewarm-b") Samples.twoWarm in
  let w := updateSessionKey 1 "real-1" r.2 in
  r.1 = Some 1%nat /\
  JsMap.get "prewarm-b" (sessionPool w) = Some 1%nat /\
  JsMap.get "real-1" (sessionPool w) = None /\
  sessionId <$> heap w !! 1%nat = Some "real-1".
Proof. repeat split. Qed.

Lemma updateSessionKey_heap a k w :
  heap (updateSessionKey a k w) = alter (set_sessionId k) a (heap w).
Proof.
  unfold updateSessionKey, with_heap. cbn [heap].
  destruct (sessionKeyMap w !! a) as [old|]; [|reflexivity].
  destruct (truthy (Some old) && negb (String.eqb old k)); reflexivity.
Qed.

Lemma updateSessionKey_moved a k w old :
  sessionKeyMap w !! a = Some old -> old <> "" -> old <> k ->
  sessionPool (updateSessionKey a k w) = JsMap.set k a (JsMap.delete old (sessionPool w)) /\
  sessionKeyMap (updateSessionKey a k w) = <[a := k]> (sessionKeyMap w).
Proof.
  intros Hk Hne Hdiff. unfold updateSessionKey. rewrite Hk. simpl.
  apply String.eqb_neq in Hne, Hdiff. rewrite Hne, Hdiff. simpl. auto.
Qed.

Lemma updateSessionKey_unmoved a k w :
  (sessionKeyMap w !! a = None \/ sessionKeyMap w !! a = Some "" \/
   sessionKeyMap w !! a = Some k) ->
  sessionPool (updateSessionKey a k w) = sessionPool w /\
  sessionKeyMap (updateSessionKey a k w) = sessionKeyMap w.
Proof.
  unfold updateSessionKey. intros [H | [H | H]]; rewrite H; simpl; auto.
  rewrite String.eqb_refl. rewrite andb_false_r. auto.
Qed.

Lemma updateSessionKey_idem a k w :
  updateSessionKey a k (updateSessionKey a k w) = updateSessionKey a k w.
Proof.
  assert (Hsame : forall w', sessionPool w' = sessionPool (updateSessionKey a k w) ->
             sessionKeyMap w' = sessionKeyMap (updateSessionKey a k w) ->
             heap w' = alter (set_sessionId k) a (heap (updateSessionKey a k w)) ->
             w' = updateSessionKey a k w).
  { intros w' Hp Hm Hh.
    rewrite updateSessionKey_heap, alter_twice in Hh by reflexivity.
    rewrite <- updateSessionKey_heap in Hh.
    destruct w', (updateSessionKey a k w). cbn in Hp, Hm, Hh. congruence. }
  apply Hsame; [| |apply updateSessionKey_heap];
    apply updateSessionKey_unmoved.
  - destruct (sessionKeyMap w !! a) as [old|] eqn:Hk.
    + destruct (String.eqb old "") eqn:E1.
      { apply String.eqb_eq in E1. subst old. right. left.
        now destruct (updateSessionKey_unmoved a k w (or_intror (or_introl Hk))) as [_ ->]. }
      destruct (String.eqb old k) eqn:E2.
      { apply String.eqb_eq in E2. subst old. right. right.
        now destruct (updateSessionKey_unmoved a k w (or_intror (or_intror Hk))) as [_ ->]. }
      apply String.eqb_neq in E1, E2. right. right.
      destruct (updateSessionKey_moved a k w old Hk E1 E2) as [_ ->].
      apply lookup_insert_eq.
    + left. now destruct (updateSessionKey_unmoved a k w (or_introl Hk)) as [_ ->].
  - destruct (sessionKeyMap w !! a) as [old|] eqn:Hk.
    + destruct (String.eqb old "") eqn:E1.
      { apply String.eqb_eq in E1. subst old. right. left.
        now destruct (updateSessionKey_unmoved a k w (or_intror (or_introl Hk))) as [_ ->]. }
      destruct (String.eqb old k) eqn:E2.
      { apply String.eqb_eq in E2. subst old. right. right.
        now destruct (updateSessionKey_unmoved a k w (or_intror (or_intror Hk))) as [_ ->]. }
      apply String.eqb_neq in E1, E2. right. right.
      destruct (updateSessionKey_moved a k w old Hk E1 E2) as [_ ->].
      apply lookup_insert_eq.
    + left. now destruct (updateSessionKey_unmoved a k w (or_introl Hk)) as [_ ->].
Qed.

(** C6 (amended): [updateSessionKey] always overwrites the entry's stored
    key.  When [sessionKeyMap] records a non-empty key for the entry and
    that key differs from the new one, the function, in one step, deletes
    the recorded key from the pool mapping, stores the entry under the new
    key and records the new key: afterwards the new key maps to the entry,
    the old key maps to nothing, and all other keys are as before.  When
    the recorded key equals the new key, or no key (or the empty one) is
    recorded for the entry, the mapping and the key map are unchanged.  A
    second call with the same key changes nothing. *)
Theorem updateSessionKey_rekeys a k w :
  (forall old, sessionKeyMap w !! a = Some old -> old <> "" -> old <> k ->
     JsMap.get k (sessionPool (updateSessionKey a k w)) = Some a /\
     JsMap.get old (sessionPool (updateSessionKey a k w)) = None /\
     (forall k', k' <> k -> k' <> old ->
        JsMap.get k' (sessionPool (updateSessionKey a k w)) = JsMap.get k' (sessionPool w)) /\
     sessionKeyMap (updateSessionKey a k w) = <[a := k]> (sessionKeyMap w)) /\
  ((sessionKeyMap w !! a = Some k \/ sessionKeyMap w !! a = None \/
    sessionKeyMap w !! a = Some "") ->
     sessionPool (updateSessionKey a k w) = sessionPool w /\
     sessionKeyMap (updateSessionKey a k w) = sessionKeyMap w) /\
  (forall pooled, heap w !! a = Some pooled ->
     heap (updateSessionKey a k w) !! a = Some (set_sessionId k pooled)) /\
  (forall b, b <> a -> heap (updateSessionKey a k w) !! b = heap w !! b) /\
  updateSessionKey a k (updateSessionKey a k w) = updateSessionKey a k w.
Proof.
  split; [|split; [|split; [|split]]].
  - intros old Hk Hne Hdiff.
    destruct (updateSessionKey_moved a k w old Hk Hne Hdiff) as [-> ->].
    split; [apply get_set_eq|]. split; [|split; [|reflexivity]].
    + rewrite get_set_ne by congruence. apply get_delete_eq.
    + intros k' H1 H2. rewrite get_set_ne by congruence.
      apply get_delete_ne. congruence.
  - intros H. apply updateSessionKey_unmoved. tauto.
  - intros pooled Hl. now rewrite updateSessionKey_heap, list_lookup_alter_eq, Hl.
  - intros b Hb. rewrite updateSessionKey_heap. apply list_lookup_alter_ne. congruence.
  - apply updateSessionKey_idem.
Qed.

(** The amended C6 at a tracked entry: "prewarm-a" is re-keyed to "real-1". *)
Lemma updateSessionKey_rekeys_witness :
  JsMap.get "real-1" (sessionPool (updateSessionKey 0 "real-1" Samples.oneTracked)) = Some 0%nat /\
  JsMap.get "prewarm-a" (sessionPool (updateSessionKey 0 "real-1" Samples.oneTracked)) = None.
Proof.
  destruct (updateSessionKey_rekeys 0 "real-1" Samples.oneTracked) as [H _].
  destruct (H "prewarm-a") as (H1 & H2 & _).
  - reflexivity.
  - discriminate.
  - discriminate.
  - split; [exact H1 | exact H2].
Defined.

(** C7 (as stated, refuted): after the warm-up stored two sessions, both
    free, re-keying the second to "k" and then acquiring "k" returns the
    first. *)
Lemma rekey_then_acquire_other_entry :
  JsMap.get "prewarm-b" (sessionPool Samples.twoWarm) = Some 1%nat /\
  inUse <$> heap (updateSessionKey 1 "k" Samples.twoWarm) !! 1%nat = Some false /\
  (getSession 5 None id (Some "k") (updateSessionKey 1 "k" Samples.twoWarm)).1 = Some 0%nat.
Proof. repeat split. Qed.

(** C7 (amended): for an entry that [sessionKeyMap] records under a
    non-empty key, which is the key the pool stores it under, and for a
    non-empty key [k]: if the entry is free, [updateSessionKey] to [k]
    followed immediately by [getSession] of [k] returns that entry (and
    marks it in use). *)
Theorem rekey_then_acquire now outcome env a old k w pooled :
  sessionKeyMap w !! a = Some old ->
  old <> "" ->
  JsMap.get old (sessionPool w) = Some a ->
  k <> "" ->
  heap w !! a = Some pooled ->
  inUse pooled = false ->
  exists w',
    getSession now outcome env (Some k) (updateSessionKey a k w) = (Some a, w') /\
    inUse <$> heap w' !! a = Some true.
Proof.
  intros Hk Hold Hget Hne Hl Hfree.
  assert (Hgetk : JsMap.get k (sessionPool (updateSessionKey a k w)) = Some a).
  { destruct (String.eqb old k) eqn:E.
    - apply String.eqb_eq in E. subst old.
      destruct (updateSessionKey_unmoved a k w) as [-> _]; [tauto | exact Hget].
    - apply String.eqb_neq in E.
      destruct (updateSessionKey_moved a k w old Hk Hold E) as [-> _].
      apply get_set_eq. }
  assert (Hheap : heap (updateSessionKey a k w) !! a = Some (set_sessionId k pooled)).
  { now rewrite updateSessionKey_heap, list_lookup_alter_eq, Hl. }
  assert (Hr : reusable (Some k) (updateSessionKey a k w) = Some a).
  { unfold reusable, truthy, JsMap.has. apply String.eqb_neq in Hne. rewrite Hne.
    rewrite Hgetk, Hheap. cbn [negb andb inUse set_sessionId]. now rewrite Hfree. }
  unfold getSession. rewrite Hr. eexists. split; [reflexivity|].
  unfold markInUse, with_heap. cbn [heap]. now rewrite list_lookup_alter_eq, Hheap.
Qed.

Lemma rekey_then_acquire_witness :
  exists w',
    getSession 5 None id (Some "real-1") (updateSessionKey 0 "real-1" Samples.oneTracked)
      = (Some 0%nat, w') /\
    inUse <$> heap w' !! 0%nat = Some true.
Proof.
  apply (rekey_then_acquire 5 None id 0%nat "prewarm-a" "real-1" Samples.oneTracked Samples.pooledA).
  - reflexivity.
  - discriminate.
  - reflexivity.
  - discriminate.
  - reflexivity.
  - reflexivity.
Defined.

(** ** Idle eviction *)

Lemma wf_delete {V : Type} (k : string) (m : list (string * V)) :
  JsMap.wf m -> JsMap.wf (JsMap.delete k m).
Proof.
  unfold JsMap.wf. induction m as [|[k0 v0] m IH]; simpl; [auto|].
  intros Hnd. apply NoDup_cons in Hnd as [Hnotin Hnd].
  destruct (String.eqb k0 k); [auto|].
  simpl. apply NoDup_cons. split; [|auto].
  intros Hin. apply Hnotin. apply list_elem_of_In in Hin. apply list_elem_of_In.
  apply in_map_iff in Hin as [[k1 v1] [Heq Hin]]. simpl in Heq. subst k1.
  apply In_delete in Hin as [_ Hin]. apply (in_map fst) in Hin. exact Hin.
Qed.

Section CleanupFacts.
Variable SESSION_TIMEOUT : Z.
Variable closeThrows : SDKSession -> bool.
Variable now : Z.

Local Abbreviation loop := (evictLoop SESSION_TIMEOUT closeThrows now).
Local Abbreviation closable' := (closable SESSION_TIMEOUT closeThrows now).

Lemma evictLoop_heap entries w closed : heap (loop entries w closed).1 = heap w.
Proof.
  revert w closed. induction entries as [|[id a] rest IH]; intros w closed; simpl; [reflexivity|].
  destruct (heap w !! a) as [pooled|]; [|apply IH].
  destruct (expired SESSION_TIMEOUT now pooled); [|apply IH].
  destruct (closeThrows (session pooled)); [apply IH|].
  now rewrite IH.
Qed.

Lemma evictLoop_wf entries w closed :
  JsMap.wf (sessionPool w) -> JsMap.wf (sessionPool (loop entries w closed).1).
Proof.
  revert w closed. induction entries as [|[id a] rest IH]; intros w closed Hwf; simpl; [exact Hwf|].
  destruct (heap w !! a) as [pooled|]; [|now apply IH].
  destruct (expired SESSION_TIMEOUT now pooled); [|now apply IH].
  destruct (closeThrows (session pooled)); [now apply IH|].
  apply IH. simpl. now apply wf_delete.
Qed.

Lemma evictLoop_In entries w closed k v :
  In (k, v) (sessionPool (loop entries w closed).1) <->
  In (k, v) (sessionPool w) /\ forall a, In (k, a) entries -> closable' (heap w) a = false.
Proof.
  revert w closed. induction entries as [|[id a] rest IH]; intros w closed; simpl.
  { split; [intros H; split; [exact H | tauto] | tauto]. }
  assert (Hkeep : closable' (heap w) a = false ->
            (In (k, v) (sessionPool (loop rest w closed).1) <->
             In (k, v) (sessionPool w) /\
             forall a0, (id, a) = (k, a0) \/ In (k, a0) rest -> closable' (heap w) a0 = false)).
  { intros Hc. rewrite IH. split; intros [H1 H2]; (split; [exact H1|]).
    - intros a0 [[= <- <-] | Hin]; auto.
    - intros a0 Hin. auto. }
  unfold closable in Hkeep at 1.
  destruct (heap w !! a) as [pooled|] eqn:Hl; [|now apply Hkeep].
  destruct (expired SESSION_TIMEOUT now pooled) eqn:He; [|now apply Hkeep].
  destruct (closeThrows (session pooled)) eqn:Hc; [now apply Hkeep|].
  rewrite IH. simpl. rewrite In_delete. split.
  - intros [[Hne Hin] H2]. split; [exact Hin|].
    intros a0 [[= <- <-] | Hin0]; [congruence | auto].
  - intros [Hin H2]. split; [split; [|exact Hin] | auto].
    intros ->. specialize (H2 a (or_introl eq_refl)).
    unfold closable in H2. rewrite Hl, He, Hc in H2. discriminate.
Qed.

Lemma evictLoop_keyMap entries w closed a :
  closable' (heap w) a = false ->
  sessionKeyMap (loop entries w closed).1 !! a = sessionKeyMap w !! a.
Proof.
  revert w closed. induction entries as [|[id b] rest IH]; intros w closed Ha; simpl; [reflexivity|].
  destruct (heap w !! b) as [pooled|] eqn:Hl; [|now apply IH].
  destruct (expired SESSION_TIMEOUT now pooled) eqn:He; [|now apply IH].
  destruct (closeThrows (session pooled)) eqn:Hc; [now apply IH|].
  rewrite IH by exact Ha. simpl. apply lookup_delete_ne.
  intros ->. unfold closable in Ha. rewrite Hl, He, Hc in Ha. discriminate.
Qed.

Lemma evictLoop_closed entries w closed id a pooled :
  In (id, a) entries -> heap w !! a = Some pooled ->
  closable' (heap w) a = true ->
  In (session pooled) (loop entries w closed).2.
Proof.
  assert (Hmono : forall entries w closed s, In s closed -> In s (loop entries w closed).2).
  { clear. intros entries. induction entries as [|[id b] rest IH]; intros w closed s Hs; simpl; [exact Hs|].
    destruct (heap w !! b) as [pooled|]; [|now apply IH].
    destruct (expired SESSION_TIMEOUT now pooled); [|now apply IH].
    destruct (closeThrows (session pooled)); [now apply IH|].
    apply IH. apply in_or_app. now left. }
  revert w closed. induction entries as [|[id' b] rest IH]; intros w closed Hin Hl Hc; simpl; [destruct Hin|].
  destruct Hin as [[= -> ->] | Hin].
  - unfold closable in Hc. rewrite Hl in *.
    apply andb_true_iff in Hc as [He Hc]. apply negb_true_iff in Hc. rewrite He, Hc.
    apply Hmono. apply in_or_app. right. now left.
  - destruct (heap w !! b) as [q|]; [|now apply IH].
    destruct (expired SESSION_TIMEOUT now q); [|now apply IH].
    destruct (closeThrows (session q)); [now apply IH|].
    now apply IH.
Qed.
End CleanupFacts.

Lemma cleanupSessions_world T N closeThrows now w :
  (cleanupSessions T N closeThrows now w).1.1 = (evictLoop T closeThrows now (sessionPool w) w []).1 /\
  (cleanupSessions T N closeThrows now w).1.2 = (evictLoop T closeThrows now (sessionPool w) w []).2.
Proof.
  unfold cleanupSessions. now destruct (evictLoop T closeThrows now (sessionPool w) w []).
Qed.

(** What remains in the pool after a cleanup run. *)
Lemma cleanupSessions_In T N closeThrows now w id a :
  JsMap.wf (sessionPool w) ->
  In (id, a) (sessionPool (cleanupSessions T N closeThrows now w).1.1) <->
  In (id, a) (sessionPool w) /\ closable T closeThrows now (heap w) a = false.
Proof.
  intros Hwf. destruct (cleanupSessions_world T N closeThrows now w) as [-> _].
  rewrite evictLoop_In. split; intros [Hin H]; (split; [exact Hin|]).
  - now apply H.
  - intros a0 Hin0. now rewrite (wf_In_unique _ _ _ _ Hwf Hin0 Hin).
Qed.

(** C2 (as stated, refuted): with the default threshold of 25 minutes, a
    cleanup run 1500001 ms after an entry was acquired closes and removes
    that entry although a request still holds it. *)
Lemma cleanupSessions_removes_entry_in_use :
  inUse <$> heap Samples.oneHeld !! 0%nat = Some true /\
  In ("prewarm-a", 0%nat) (sessionPool Samples.oneHeld) /\
  sessionPool (cleanupSessions 1500000 3 (fun _ => false) 1500001 Samples.oneHeld).1.1 = [] /\
  (cleanupSessions 1500000 3 (fun _ => false) 1500001 Samples.oneHeld).1.2 = [1%nat].
Proof. repeat split. now left. Qed.

(** C2 (amended): [cleanupSessions] closes and removes an entry exactly when
    its idle time exceeds the threshold and [close()] does not throw; the
    [inUse] flag is not consulted.  After a run, every entry remaining in
    the pool has idle time at most the threshold or is one whose [close()]
    threw; every removed entry had its handle closed; no entry is added and
    no object is modified. *)
Theorem cleanupSessions_evicts_by_idle_time T N closeThrows now w :
  JsMap.wf (sessionPool w) ->
  heap (cleanupSessions T N closeThrows now w).1.1 = heap w /\
  (forall id a, In (id, a) (sessionPool (cleanupSessions T N closeThrows now w).1.1) ->
     In (id, a) (sessionPool w)) /\
  (forall id a pooled, In (id, a) (sessionPool w) -> heap w !! a = Some pooled ->
     (In (id, a) (sessionPool (cleanupSessions T N closeThrows now w).1.1) <->
      now - lastUsed pooled <= T \/ closeThrows (session pooled) = true)) /\
  (forall id a pooled, In (id, a) (sessionPool w) -> heap w !! a = Some pooled ->
     ~ In (id, a) (sessionPool (cleanupSessions T N closeThrows now w).1.1) ->
     In (session pooled) (cleanupSessions T N closeThrows now w).1.2).
Proof.
  intros Hwf.
  assert (Hc : forall a pooled, heap w !! a = Some pooled ->
            (closable T closeThrows now (heap w) a = false <->
             now - lastUsed pooled <= T \/ closeThrows (session pooled) = true)).
  { intros a pooled Hl. unfold closable, expired. rewrite Hl.
    rewrite andb_false_iff, negb_false_iff, Z.ltb_ge. reflexivity. }
  split; [|split; [|split]].
  - destruct (cleanupSessions_world T N closeThrows now w) as [-> _]. apply evictLoop_heap.
  - intros id a Hin. now apply (cleanupSessions_In T N closeThrows now w id a Hwf) in Hin.
  - intros id a pooled Hin Hl. rewrite (cleanupSessions_In _ _ _ _ _ _ _ Hwf), <- (Hc a pooled Hl).
    tauto.
  - intros id a pooled Hin Hl Hnot.
    destruct (cleanupSessions_world T N closeThrows now w) as [_ ->].
    apply (evictLoop_closed _ _ _ _ _ _ id a); [exact Hin | exact Hl|].
    destruct (closable T closeThrows now (heap w) a) eqn:E; [reflexivity|].
    exfalso. apply Hnot. apply (cleanupSessions_In _ _ _ _ _ _ _ Hwf). auto.
Qed.

Lemma cleanupSessions_evicts_by_idle_time_witness :
  In ("prewarm-a", 0%nat)
     (sessionPool (cleanupSessions 1500000 3 (fun _ => false) 1500000 Samples.oneTracked).1.1) <->
  1500000 - lastUsed Samples.pooledA <= 1500000 \/ false = true.
Proof.
  assert (Hwf : JsMap.wf (sessionPool Samples.oneTracked)).
  { unfold JsMap.wf. simpl. apply NoDup_cons. split; [|apply NoDup_nil; exact I].
    intros H. inversion H. }
  destruct (cleanupSessions_evicts_by_idle_time 1500000 3 (fun _ => false) 1500000
              Samples.oneTracked Hwf) as (_ & _ & H & _).
  apply (H "prewarm-a" 0%nat Samples.pooledA); [now left | reflexivity].
Defined.

(** C10: when [close()] throws for an expired entry during the eviction
    loop, that entry stays in the pool mapping under its key and its
    record in the key map is untouched; the loop goes on: every other
    expired entry whose [close()] returns is closed and removed; and a
    later cleanup run visits the entry again and removes it once its
    [close()] returns. *)
Theorem cleanupSessions_close_failure_keeps_entry T N closeThrows now w id a pooled :
  JsMap.wf (sessionPool w) ->
  In (id, a) (sessionPool w) ->
  heap w !! a = Some pooled ->
  expired T now pooled = true ->
  closeThrows (session pooled) = true ->
  In (id, a) (sessionPool (cleanupSessions T N closeThrows now w).1.1) /\
  JsMap.get id (sessionPool (cleanupSessions T N closeThrows now w).1.1) = Some a /\
  sessionKeyMap (cleanupSessions T N closeThrows now w).1.1 !! a = sessionKeyMap w !! a /\
  (forall id' b other,
     In (id', b) (sessionPool w) -> heap w !! b = Some other ->
     expired T now other = true -> closeThrows (session other) = false ->
     ~ In (id', b) (sessionPool (cleanupSessions T N closeThrows now w).1.1) /\
     In (session other) (cleanupSessions T N closeThrows now w).1.2) /\
  (forall N' closeThrows' now',
     now <= now' -> closeThrows' (session pooled) = false ->
     ~ In (id, a)
         (sessionPool (cleanupSessions T N' closeThrows' now'
                         (cleanupSessions T N closeThrows now w).1.1).1.1)).
Proof.
  intros Hwf Hin Hl He Hc.
  assert (Hkeep : closable T closeThrows now (heap w) a = false).
  { unfold closable. now rewrite Hl, He, Hc. }
  assert (Hin' : In (id, a) (sessionPool (cleanupSessions T N closeThrows now w).1.1)).
  { apply (cleanupSessions_In _ _ _ _ _ _ _ Hwf). auto. }
  assert (Hwf' : JsMap.wf (sessionPool (cleanupSessions T N closeThrows now w).1.1)).
  { destruct (cleanupSessions_world T N closeThrows now w) as [-> _]. now apply evictLoop_wf. }
  assert (Hheap' : heap (cleanupSessions T N closeThrows now w).1.1 = heap w).
  { destruct (cleanupSessions_world T N closeThrows now w) as [-> _]. apply evictLoop_heap. }
  split; [exact Hin'|]. split; [now apply In_get|]. split; [|split].
  - destruct (cleanupSessions_world T N closeThrows now w) as [-> _].
    now apply evictLoop_keyMap.
  - intros id' b other Hinb Hlb Heb Hcb.
    assert (Hcl : closable T closeThrows now (heap w) b = true).
    { unfold closable. now rewrite Hlb, Heb, Hcb. }
    split.
    + intros H. apply (cleanupSessions_In _ _ _ _ _ _ _ Hwf) in H as [_ H]. congruence.
    + destruct (cleanupSessions_world T N closeThrows now w) as [_ ->].
      now apply (evictLoop_closed _ _ _ _ _ _ id' b).
  - intros N' closeThrows' now' Hle Hc' H.
    apply (cleanupSessions_In _ _ _ _ _ _ _ Hwf') in H as [_ H].
    unfold closable in H. rewrite Hheap', Hl, Hc' in H.
    unfold expired in *. apply Z.ltb_lt in He.
    assert (Hlt : T < now' - lastUsed pooled) by lia.
    apply Z.ltb_lt in Hlt. rewrite Hlt in H. discriminate.
Qed.

Lemma cleanupSessions_close_failure_keeps_entry_witness :
  In ("prewarm-a", 0%nat)
     (sessionPool (cleanupSessions 1500000 3 (fun _ => true) 1500001 Samples.oneTracked).1.1).
Proof.
  assert (Hwf : JsMap.wf (sessionPool Samples.oneTracked)).
  { unfold JsMap.wf. simpl. apply NoDup_cons. split; [|apply NoDup_nil; exact I].
    intros H. inversion H. }
  apply (cleanupSessions_close_failure_keeps_entry 1500000 3 (fun _ => true) 1500001
           Samples.oneTracked "prewarm-a" 0%nat Samples.pooledA Hwf).
  - now left.
  - reflexivity.
  - reflexivity.
  - reflexivity.
Defined.

(** ** Computations of the handler *)

Lemma append_assoc (s1 s2 s3 : string) :
  String.append (String.append s1 s2) s3 = String.append s1 (String.append s2 s3).
Proof.
  induction s1 as [|c s1 IH]; [reflexivity|].
  change (String c (String.append (String.append s1 s2) s3)
          = String c (String.append s1 (String.append s2 s3))).
  now rewrite IH.
Qed.

Lemma append_nil_r (s : string) : String.append s "" = s.
Proof.
  induction s as [|c s IH]; [reflexivity|].
  change (String c (String.append s "") = String c s). now rewrite IH.
Qed.

Lemma wp_bind {A B : Type} (m : M A) (f : A -> M B) s Q :
  wp m s (fun r s1 t1 =>
            match r with
            | inl e => Q (inl e) s1 t1
            | inr x => wp (f x) s1 (fun r2 s2 t2 => Q r2 s2 (t1 ++ t2))
            end) ->
  wp (m ≫= f) s Q.
Proof.
  unfold wp, mbind, M_bind. destruct (m s) as [[[e|x] s1] t1]; simpl; [auto|].
  destruct (f x s1) as [[r2 s2] t2]; simpl. auto.
Qed.

Lemma wp_ret {A : Type} (x : A) s (Q : string + A -> St -> list Ev -> Prop) :
  Q (inr x) s [] -> wp (mret x) s Q.
Proof. auto. Qed.

Lemma wp_throw {A : Type} e s (Q : string + A -> St -> list Ev -> Prop) :
  Q (inl e) s [] -> wp (throw e) s Q.
Proof. auto. Qed.

Lemma wp_wsSend sc m s (Q : string + unit -> St -> list Ev -> Prop) :
  (forall e, wsThrows sc (sends s) = Some e ->
     Q (inl e) (mkSt (world s) (S (sends s)) (assignedSession s)) []) ->
  (wsThrows sc (sends s) = None ->
     Q (inr tt) (mkSt (world s) (S (sends s)) (assignedSession s)) [EvSend m]) ->
  wp (wsSend sc m) s Q.
Proof.
  intros H1 H2. unfold wp, wsSend. destruct (wsThrows sc (sends s)) as [e|]; simpl; auto.
Qed.

Lemma wp_yield sc p s (Q : string + unit -> St -> list Ev -> Prop) :
  Q (inr tt) (mkSt (interfere sc p (world s)) (sends s) (assignedSession s)) [] ->
  wp (yield sc p) s Q.
Proof. auto. Qed.

Lemma wp_tryCatchFinally body handler fin s Q :
  wp body s (fun r1 s1 t1 =>
    wp (match r1 with inl e => handler e | inr x => mret x end) s1 (fun r2 s2 t2 =>
      wp fin s2 (fun r3 s3 t3 =>
        Q (match r3 with inl e => inl e | inr _ => r2 end) s3 (t1 ++ t2 ++ t3)))) ->
  wp (tryCatchFinally body handler fin) s Q.
Proof.
  unfold wp, tryCatchFinally. destruct (body s) as [[r1 s1] t1]. simpl.
  destruct r1 as [e|x]; simpl.
  - destruct (handler e s1) as [[r2 s2] t2]. simpl.
    destruct (fin s2) as [[r3 s3] t3]. simpl. auto.
  - destruct (fin s1) as [[r3 s3] t3]. simpl. auto.
Qed.

Lemma wp_conseq {A : Type} (m : M A) s (Q Q' : string + A -> St -> list Ev -> Prop) :
  wp m s Q -> (forall r s' t, Q r s' t -> Q' r s' t) -> wp m s Q'.
Proof. unfold wp. auto. Qed.

(** Sequencing of computations described by [post]. *)
Lemma post_bind {A B : Type} sc (m : M A) (f : A -> M B) s E1 E2 v1 v2 ok :
  wp m s (post sc s E1 v1 True) ->
  (forall s1, assignedSession s1 = assignedSession s ->
     wp (f v1) s1 (post sc s1 E2 v2 ok)) ->
  wp (m ≫= f) s (post sc s (E1 ++ E2) v2 ok).
Proof.
  intros Hm Hf. apply wp_bind. unfold wp in *.
  destruct (m s) as [[[e|x] s1] t1]; simpl in *.
  - destruct Hm as (Ha & [rest Hp] & Hn & Hr & Hok).
    split; [exact Ha|]. split; [|split; [|split]].
    + exists (rest ++ E2). rewrite Hp. now rewrite <- app_assoc.
    + intros Hno. specialize (Hok Hno I). discriminate.
    + intros y [=].
    + intros Hno _. specialize (Hok Hno I). discriminate.
  - destruct Hm as (Ha & _ & _ & Hr & _).
    destruct (Hr x eq_refl) as [-> ->].
    specialize (Hf s1 Ha). destruct (f v1 s1) as [[r2 s2] t2]; simpl in *.
    destruct Hf as (Ha2 & [rest Hp] & Hn & Hr2 & Hok).
    split; [congruence|]. split; [|split; [|split]].
    + exists rest. rewrite Hp. now rewrite <- app_assoc.
    + intros Hno. now rewrite (Hn Hno).
    + intros y Hy. destruct (Hr2 y Hy) as [-> ->]. auto.
    + auto.
Qed.

Lemma post_ret {A : Type} sc (x : A) s ok : wp (mret x) s (post sc s [] x ok).
Proof.
  apply wp_ret. unfold post. split; [reflexivity|]. split; [now exists []|].
  split; [auto|]. split; [|auto]. now intros y [= <-].
Qed.

Lemma post_wsSend sc m s : wp (wsSend sc m) s (post sc s [EvSend m] tt True).
Proof.
  apply wp_wsSend; intros H; unfold post; simpl.
  - split; [reflexivity|]. split; [now exists [EvSend m]|].
    split; [|split].
    + intros Hno. specialize (Hno (sends s)). congruence.
    + intros x [=].
    + intros Hno. specialize (Hno (sends s)). congruence.
  - split; [reflexivity|]. split; [now exists []|].
    split; [auto|]. split; [|auto]. intros []. auto.
Qed.

Lemma post_yield sc p s : wp (yield sc p) s (post sc s [] tt True).
Proof.
  apply wp_yield. unfold post; simpl. split; [reflexivity|]. split; [now exists []|].
  split; [auto|]. split; [|auto]. intros []. auto.
Qed.

Lemma post_callUpdateSessionKey sc a k s :
  wp (callUpdateSessionKey a k) s (post sc s [EvRekey a k] tt True).
Proof.
  unfold wp, post, callUpdateSessionKey; simpl. split; [reflexivity|].
  split; [now exists []|]. split; [auto|]. split; [|auto]. intros []. auto.
Qed.

Lemma post_textBlocks sc blocks full s :
  wp (textBlocks sc blocks full) s
     (post sc s (map (fun c => EvSend (WTextChunk c)) (blockTexts blocks))
           (fold_left String.append (blockTexts blocks) full) True).
Proof.
  revert full s. induction blocks as [|block rest IH]; intros full s; simpl.
  - apply post_ret.
  - destruct (String.eqb (btype block) "text"); simpl.
    + refine (post_bind sc _ _ s [EvSend (WTextChunk (text block))] _ tt _ _ _ _).
      * apply post_wsSend.
      * intros s1 _. apply IH.
    + apply IH.
Qed.

(** The loop of the handler: its events are a prefix of [fullDrain], all of
    it when no send throws; when it returns, [fullResponse] has grown by
    the texts of the consumed messages and [realSessionId] is the id of the
    last init message consumed, if any. *)
Lemma post_drain sc a evs : forall i full key s,
  wp (drain sc a i evs full key) s
     (post sc s (fullDrain a evs)
           (fold_left String.append (flat_map eventTexts (consumed evs)) full,
            fold_left (fun k msg => if isInit msg then session_id msg else k) (consumed evs) key)
           (reachesEnd sc evs)).
Proof.
  induction evs as [|msg rest IH]; intros i full key s.
  - cbn [drain].
    refine (post_bind sc _ _ s [] [] tt _ _ (post_yield sc _ s) _).
    intros s1 _. simpl. destruct (streamEnd sc) as [e|] eqn:Hend.
    + apply wp_throw. unfold post. split; [reflexivity|]. split; [now exists []|].
      split; [auto|]. split; [intros x [=]|].
      intros _ [H | H]; [discriminate | congruence].
    + apply post_ret.
  - cbn [drain].
    assert (Hsplit : fullDrain a (msg :: rest)
              = [] ++ ((if isInit msg
                        then [EvRekey a (session_id msg); EvSend (WSessionCreated (session_id msg))]
                        else [])
                       ++ [EvSend (WMessage (mtype msg) msg)]
                       ++ map (fun c => EvSend (WTextChunk c)) (eventTexts msg)
                       ++ (if isResult msg then [] else fullDrain a rest))).
    { unfold fullDrain, eventTrace. cbn [consumed]. destruct (isResult msg); simpl;
        rewrite <- ?app_assoc; simpl; rewrite ?app_nil_r; reflexivity. }
    rewrite Hsplit.
    refine (post_bind sc _ _ s [] _ tt _ _ (post_yield sc _ s) _). intros s1 _.
    refine (post_bind sc _ _ s1 _ _ (if isInit msg then session_id msg else key) _ _ _ _).
    { destruct (isInit msg).
      - refine (post_bind sc _ _ s1 [EvRekey a (session_id msg)]
                  [EvSend (WSessionCreated (session_id msg))] tt _ _
                  (post_callUpdateSessionKey sc _ _ s1) _).
        intros s2 _.
        refine (post_bind sc _ _ s2 [EvSend (WSessionCreated (session_id msg))] [] tt _ _
                  (post_wsSend sc _ s2) _).
        intros s3 _. apply post_ret.
      - apply post_ret. }
    intros s2 _.
    refine (post_bind sc _ _ s2 _ _ tt _ _ (post_wsSend sc _ s2) _). intros s3 _.
    refine (post_bind sc _ _ s3 _ _ (fold_left String.append (eventTexts msg) full) _ _ _ _).
    { unfold eventTexts. destruct (String.eqb (mtype msg) "assistant").
      - destruct (content msg) as [blocks|]; [apply post_textBlocks | apply post_ret].
      - apply post_ret. }
    intros s4 _. fold (isResult msg). cbn [consumed]. destruct (isResult msg) eqn:Hres.
    + cbn [flat_map fold_left]. rewrite app_nil_r. apply post_ret.
    + eapply wp_conseq; [apply IH|].
      intros r s' t (H1 & H2 & H3 & H4 & H5). unfold post.
      cbn [flat_map fold_left]. rewrite fold_left_app.
      split; [exact H1|]. split; [exact H2|]. split; [exact H3|]. split; [exact H4|].
      intros Hno Hreach. apply H5; [exact Hno|].
      destruct Hreach as [Hex | Hend]; [|now right].
      left. simpl in Hex. rewrite Hres in Hex. exact Hex.
Qed.

(** ** The shape of a run *)

(** The [catch] and [finally] blocks after a [try] block that ended with
    outcome [r1] in state [s1]. *)
Lemma wp_catch_finally sc (r1 : string + unit) s1 (Q : St -> list Ev -> Prop) :
  (forall fin s3,
     match r1 with
     | inl e => fin = [] \/ fin = [EvSend (WError e)]
     | inr _ => fin = []
     end ->
     (noWsThrow sc ->
      match r1 with inl e => fin = [EvSend (WError e)] | inr _ => fin = [] end) ->
     match assignedSession s1 with
     | Some a => forall pooled, heap (world s3) !! a = Some pooled -> inUse pooled = false
     | None => True
     end ->
     Q s3 (fin ++ match assignedSession s1 with Some a => [EvRelease a] | None => [] end)) ->
  wp (match r1 with inl e => handlerCatch sc e | inr x => mret x end) s1
     (fun r2 s2 t2 =>
        wp (handlerFinally sc) s2 (fun r3 s3 t3 => Q s3 (t2 ++ t3))).
Proof.
  intros HQ.
  assert (Hfin : forall fin s2,
            assignedSession s2 = assignedSession s1 ->
            match r1 with
            | inl e => fin = [] \/ fin = [EvSend (WError e)]
            | inr _ => fin = []
            end ->
            (noWsThrow sc ->
             match r1 with inl e => fin = [EvSend (WError e)] | inr _ => fin = [] end) ->
            wp (handlerFinally sc) s2 (fun r3 s3 t3 => Q s3 (fin ++ t3))).
  { intros fin s2 Ha H1 H2. unfold handlerFinally. apply wp_bind.
    unfold wp at 1. unfold getAssigned. cbn [fst snd]. rewrite Ha.
    specialize (HQ fin). destruct (assignedSession s1) as [a|].
    - unfold wp, callReleaseSession. cbn [fst snd]. rewrite app_nil_l.
      apply HQ; [exact H1 | exact H2|].
      intros pooled. cbn [world]. unfold releaseSession, with_heap. cbn [heap].
      rewrite list_lookup_alter_eq. destruct (heap (world s2) !! a); simpl; [|discriminate].
      now intros [= <-].
    - apply wp_ret. rewrite app_nil_l. now apply HQ. }
  destruct r1 as [e|[]].
  - unfold handlerCatch. apply wp_wsSend.
    + intros e' He'. apply Hfin; [reflexivity | now left|].
      intros Hno. specialize (Hno (sends s1)). congruence.
    + intros _. apply Hfin; [reflexivity | now right | auto].
  - apply wp_ret. apply Hfin; auto.
Qed.

Lemma wp_callGetSession sc uid s (Q : string + option nat -> St -> list Ev -> Prop) :
  (forall r w',
     getSession (tAcquire sc) (creation sc) (interfere sc AwPrewarm) uid (world s) = (r, w') ->
     Q (inr r) (mkSt w' (sends s) (assignedSession s)) [EvAcquire r]) ->
  wp (callGetSession sc uid) s Q.
Proof.
  intros H. unfold wp, callGetSession.
  destruct (getSession (tAcquire sc) (creation sc) (interfere sc AwPrewarm) uid (world s))
    as [r w'] eqn:Hg.
  now apply H.
Qed.

Lemma wp_setAssigned r s (Q : string + unit -> St -> list Ev -> Prop) :
  Q (inr tt) (mkSt (world s) (sends s) r) [] -> wp (setAssigned r) s Q.
Proof. auto. Qed.

Lemma wp_readSessionId a s (Q : string + string -> St -> list Ev -> Prop) :
  Q (inr (match heap (world s) !! a with
          | Some pooled => sessionId pooled
          | None => ""
          end)) s [] ->
  wp (readSessionId a) s Q.
Proof. auto. Qed.

Ltac catch_finally r :=
  lazymatch goal with
  | |- wp _ _ (fun _ s2 t2 => wp _ s2 (fun _ s3 t3 => RunShape ?sc ?w s3 (?pre ++ t2 ++ t3))) =>
      apply (wp_catch_finally sc r _ (fun s3 t => RunShape sc w s3 (pre ++ t)));
      cbn [assignedSession]
  end.

Ltac norm_trace := cbn [app]; rewrite <- ?app_assoc, ?app_nil_r; cbn [app].

Lemma run_shape sc w : RunShape sc w (run sc w).1.2 (run sc w).2.
Proof.
  unfold run, handler.
  change (wp (tryCatchFinally (handlerTry sc) (handlerCatch sc) (handlerFinally sc))
             (mkSt w 0 None) (fun _ st t => RunShape sc w st t)).
  apply wp_tryCatchFinally. unfold handlerTry.
  destruct (parsed sc) as [e | [prompt uid]] eqn:Hp.
  - apply wp_throw. catch_finally (@inl string unit e).
    intros fin s3 H1 _ _. norm_trace. apply ShapeEarly.
    + destruct H1; eauto.
    + now rewrite Hp.
  - destruct (truthy prompt) eqn:Ht; cbn [negb].
    2:{ apply wp_wsSend.
        - intros e He. catch_finally (@inl string unit e).
          intros fin s3 H1 _ _. norm_trace. apply ShapeEarly.
          + destruct H1; eauto.
          + now rewrite Hp.
        - intros _. catch_finally (@inr string unit tt).
          intros fin s3 -> _ _. norm_trace. apply ShapeEarly; [eauto | now rewrite Hp]. }
    apply wp_bind. apply wp_wsSend.
    { intros e He. catch_finally (@inl string unit e).
      intros fin s3 H1 _ _. norm_trace. apply ShapeEarly.
      - destruct H1; eauto.
      - intros Hno. specialize (Hno 0%nat). cbn [sends] in He. congruence. }
    intros _. apply wp_bind. apply wp_callGetSession. cbn [world sends assignedSession].
    intros r w1 Hg.
    assert (Hacq : acquisitionOf sc w = r).
    { unfold acquisitionOf. now rewrite Hp, Hg. }
    apply wp_bind. apply wp_yield. apply wp_bind. apply wp_setAssigned.
    cbn [world sends assignedSession].
    destruct r as [a|].
    2:{ apply wp_wsSend.
        - intros e He. catch_finally (@inl string unit e).
          intros fin s3 H1 H2 _. norm_trace.
          apply (ShapeUnavailable sc w s3 fin Hacq).
          + destruct H1; eauto.
          + intros Hno. specialize (Hno 1%nat). cbn [sends] in He. congruence.
        - intros _. catch_finally (@inr string unit tt).
          intros fin s3 -> _ _. norm_trace.
          apply (ShapeUnavailable sc w s3 [EvSend (WError "Failed to get session")] Hacq); eauto. }
    assert (Hkey : startKey sc w
                   = match heap (interfere sc AwSend (interfere sc AwGetSession w1)) !! a with
                     | Some pooled => sessionId pooled
                     | None => ""
                     end).
    { unfold startKey. now rewrite Hp, Hg. }
    unfold relay.
    destruct (streamThrows sc) as [e|] eqn:Hst.
    { apply wp_bind. apply wp_throw. catch_finally (@inl string unit e).
      intros fin s3 H1 _ H3. norm_trace.
      apply (ShapeRelayed sc w s3 a [] fin Hacq);
        [now exists (fullDrain a (events sc)) | | intros _ Hx; congruence | exact H3].
      destruct H1 as [-> | ->]; eauto. }
    apply wp_bind. apply wp_ret. apply wp_bind. apply wp_yield.
    destruct (sendThrows sc) as [e|] eqn:Hse.
    { apply wp_bind. apply wp_throw. catch_finally (@inl string unit e).
      intros fin s3 H1 _ H3. norm_trace.
      apply (ShapeRelayed sc w s3 a [] fin Hacq);
        [now exists (fullDrain a (events sc)) | | intros _ _ Hx; congruence | exact H3].
      destruct H1 as [-> | ->]; eauto. }
    apply wp_bind. apply wp_ret. apply wp_bind. apply wp_readSessionId.
    cbn [world sends assignedSession]. rewrite <- Hkey.
    apply wp_bind. eapply wp_conseq; [apply post_drain|].
    intros r s' t (Ha & Hpre & Hno & Hret & Hok). cbn [assignedSession] in Ha.
    destruct r as [e | x].
    { catch_finally (@inl string unit e). rewrite Ha.
      intros fin s3 H1 H2 H3. norm_trace.
      apply (ShapeRelayed sc w s3 a t fin Hacq); [exact Hpre | | | exact H3].
      - destruct H1 as [-> | ->]; eauto.
      - intros Hn _ _. split; [now apply Hno|]. right. split; [rewrite (H2 Hn); eauto|].
        intros Hreach. specialize (Hok Hn Hreach). discriminate. }
    destruct (Hret x eq_refl) as [-> ->]. cbn [fst snd].
    fold (completeOf sc w).
    apply wp_wsSend.
    + intros e He. catch_finally (@inl string unit e). rewrite Ha.
      intros fin s3 H1 H2 H3. norm_trace.
      apply (ShapeRelayed sc w s3 a (fullDrain a (events sc)) fin Hacq);
        [exists []; now rewrite app_nil_r | | | exact H3].
      * destruct H1 as [-> | ->]; eauto.
      * intros Hn. specialize (Hn (sends s')). congruence.
    + intros _. catch_finally (@inr string unit tt). rewrite Ha.
      intros fin s3 -> _ H3. norm_trace.
      apply (ShapeRelayed sc w s3 a (fullDrain a (events sc)) [EvSend (completeOf sc w)] Hacq);
        [exists []; now rewrite app_nil_r | | | exact H3].
      * right. right. auto.
      * intros _ _ _. auto.
Qed.

(** ** Traces *)

Lemma wires_app t1 t2 : wires (t1 ++ t2) = wires t1 ++ wires t2.
Proof.
  induction t1 as [|[m|r|a k|a] t1 IH]; simpl; [reflexivity| |auto|auto|auto].
  now rewrite IH.
Qed.

Lemma acquired_app t1 t2 : acquired (t1 ++ t2) = acquired t1 ++ acquired t2.
Proof.
  induction t1 as [|[m|[a|]|a k|a] t1 IH]; simpl; auto. now rewrite IH.
Qed.

Lemma released_app t1 t2 : released (t1 ++ t2) = released t1 ++ released t2.
Proof.
  induction t1 as [|[m|r|a k|a] t1 IH]; simpl; auto. now rewrite IH.
Qed.

Lemma chunksOf_app ws1 ws2 :
  chunksOf (ws1 ++ ws2) = String.append (chunksOf ws1) (chunksOf ws2).
Proof.
  induction ws1 as [|m ws1 IH]; [reflexivity|].
  destruct m; simpl; try exact IH. rewrite IH. now rewrite append_assoc.
Qed.

Lemma lastCreated_app ws1 ws2 dflt :
  lastCreated (ws1 ++ ws2) dflt = lastCreated ws2 (lastCreated ws1 dflt).
Proof.
  revert dflt. induction ws1 as [|m ws1 IH]; intros dflt; [reflexivity|].
  destruct m; simpl; apply IH.
Qed.

Lemma createdKeys_app ws1 ws2 : createdKeys (ws1 ++ ws2) = createdKeys ws1 ++ createdKeys ws2.
Proof.
  induction ws1 as [|m ws1 IH]; [reflexivity|].
  destruct m; simpl; try exact IH. now rewrite IH.
Qed.

Lemma eventTrace_drainOnly a msg : Forall drainOnly (eventTrace a msg).
Proof.
  unfold eventTrace. apply Forall_app. split.
  - destruct (isInit msg); repeat constructor.
  - apply Forall_cons. split; [exact I|].
    induction (eventTexts msg); simpl; constructor; auto. exact I.
Qed.

Lemma fullDrain_drainOnly a evs : Forall drainOnly (fullDrain a evs).
Proof.
  unfold fullDrain. induction (consumed evs) as [|msg l IH]; simpl; [constructor|].
  apply Forall_app. split; [apply eventTrace_drainOnly | exact IH].
Qed.

Lemma drainOnly_projections t :
  Forall drainOnly t ->
  acquired t = [] /\ released t = [] /\
  countWire isComplete (wires t) = 0%nat /\ countWire isError (wires t) = 0%nat /\
  Forall (fun m => isComplete m = false /\ isError m = false) (wires t).
Proof.
  unfold countWire. induction 1 as [|e t He Ht IH]; simpl; [repeat split; constructor|].
  destruct IH as (H1 & H2 & H3 & H4 & H5).
  destruct e as [[]|r|a k|a]; simpl in *; try contradiction; repeat split; auto.
Qed.

Lemma prefix_drainOnly mid rest a evs :
  fullDrain a evs = mid ++ rest -> Forall drainOnly mid.
Proof.
  intros H. pose proof (fullDrain_drainOnly a evs) as HF. rewrite H in HF.
  now apply Forall_app in HF as [HF _].
Qed.

Lemma fold_append xs acc :
  fold_left String.append xs acc = String.append acc (fold_left String.append xs "").
Proof.
  revert acc. induction xs as [|x xs IH]; intros acc; simpl.
  - now rewrite append_nil_r.
  - rewrite (IH (String.append acc x)), (IH (String.append "" x)).
    simpl. now rewrite append_assoc.
Qed.

Lemma chunksOf_texts xs :
  chunksOf (map WTextChunk xs) = fold_left String.append xs "".
Proof.
  induction xs as [|x xs IH]; [reflexivity|].
  simpl. rewrite IH. change (String.append "" x) with x.
  now rewrite (fold_append xs x).
Qed.

Lemma wires_chunks xs : wires (map (fun c => EvSend (WTextChunk c)) xs) = map WTextChunk xs.
Proof. induction xs as [|x xs IH]; simpl; [reflexivity | now rewrite IH]. Qed.

Lemma chunksOf_eventTrace a msg :
  chunksOf (wires (eventTrace a msg)) = fold_left String.append (eventTexts msg) "".
Proof.
  unfold eventTrace. rewrite wires_app, chunksOf_app.
  destruct (isInit msg); simpl; rewrite wires_chunks; apply chunksOf_texts.
Qed.

(** The text of the completion message is the concatenation of the text
    chunks sent during the drain. *)
Lemma chunksOf_fullDrain a evs :
  chunksOf (wires (fullDrain a evs))
  = fold_left String.append (flat_map eventTexts (consumed evs)) "".
Proof.
  unfold fullDrain. induction (consumed evs) as [|msg l IH]; [reflexivity|].
  cbn [flat_map]. rewrite wires_app, chunksOf_app, fold_left_app, IH, chunksOf_eventTrace.
  now rewrite (fold_append (flat_map eventTexts l) (fold_left String.append (eventTexts msg) "")).
Qed.

Lemma lastCreated_chunks xs dflt :
  lastCreated (wires (map (fun c => EvSend (WTextChunk c)) xs)) dflt = dflt.
Proof. induction xs as [|x xs IH]; simpl; auto. Qed.

(** The key of the completion message is the key of the last
    [session_created] message sent during the drain, if any. *)
Lemma lastCreated_fullDrain a evs dflt :
  lastCreated (wires (fullDrain a evs)) dflt
  = fold_left (fun k msg => if isInit msg then session_id msg else k) (consumed evs) dflt.
Proof.
  unfold fullDrain. revert dflt. induction (consumed evs) as [|msg l IH]; intros dflt; [reflexivity|].
  cbn [flat_map fold_left]. rewrite wires_app, lastCreated_app, IH. f_equal.
  unfold eventTrace. rewrite wires_app, lastCreated_app.
  destruct (isInit msg); simpl; apply lastCreated_chunks.
Qed.

Lemma createdKeys_chunks xs :
  createdKeys (wires (map (fun c => EvSend (WTextChunk c)) xs)) = [].
Proof. induction xs as [|x xs IH]; simpl; auto. Qed.

Lemma createdKeys_fullDrain a evs :
  createdKeys (wires (fullDrain a evs)) = map session_id (List.filter isInit (consumed evs)).
Proof.
  unfold fullDrain. induction (consumed evs) as [|msg l IH]; [reflexivity|].
  cbn [flat_map List.filter]. rewrite wires_app, createdKeys_app, IH.
  unfold eventTrace. rewrite wires_app, createdKeys_app.
  destruct (isInit msg); simpl; now rewrite createdKeys_chunks.
Qed.

(** ** Release on every exit path *)

Lemma fin_projections sc w (fin : list Ev) P :
  (fin = [] \/ (exists e, fin = [EvSend (WError e)]) \/
   (P /\ fin = [EvSend (completeOf sc w)])) ->
  acquired fin = [] /\ released fin = [].
Proof. intros [-> | [[e ->] | [_ ->]]]; auto. Qed.

(** C3: in every run of the message handler, whatever fails and wherever,
    the entries released are exactly the entries acquired: none when
    [getSession] was not reached or returned [null], and otherwise the one
    acquired entry, released once, as the last thing the handler does, and
    left with [inUse] false. *)
Theorem release_exactly_once sc w :
  released (run sc w).2 = acquired (run sc w).2 /\
  (length (released (run sc w).2) <= 1)%nat /\
  (forall a, In a (acquired (run sc w).2) ->
     exists t0, (run sc w).2 = t0 ++ [EvRelease a] /\ released t0 = []) /\
  (forall a pooled, In a (released (run sc w).2) ->
     heap (world (run sc w).1.2) !! a = Some pooled -> inUse pooled = false).
Proof.
  pose proof (run_shape sc w) as H. revert H.
  generalize (run sc w).1.2 as st, (run sc w).2 as t. intros st t H.
  destruct H as [fin Hfin _ | fin Hacq Hfin _ | a mid fin Hacq Hpre Hfin _ Hrel].
  - assert (Hp : acquired fin = [] /\ released fin = []).
    { destruct Hfin as [-> | [e ->]]; auto. }
    destruct Hp as [Ha Hr]. rewrite Ha, Hr. simpl. repeat split; auto; contradiction.
  - assert (Hp : acquired fin = [] /\ released fin = []).
    { destruct Hfin as [-> | [e ->]]; auto. }
    destruct Hp as [Ha Hr]. simpl. rewrite Ha, Hr. simpl. repeat split; auto; contradiction.
  - destruct Hpre as [rest Hpre].
    destruct (drainOnly_projections mid (prefix_drainOnly _ _ _ _ Hpre)) as (Ham & Hrm & _).
    destruct (fin_projections sc w fin _ Hfin) as [Haf Hrf].
    assert (Hacqd : acquired ([metadata; EvAcquire (Some a)] ++ mid ++ fin ++ [EvRelease a]) = [a]).
    { simpl. rewrite !acquired_app, Ham, Haf. reflexivity. }
    assert (Hreld : released ([metadata; EvAcquire (Some a)] ++ mid ++ fin ++ [EvRelease a]) = [a]).
    { simpl. rewrite !released_app, Hrm, Hrf. reflexivity. }
    rewrite Hacqd, Hreld. split; [reflexivity|]. split; [simpl; lia|]. split.
    + intros a' [<- | []]. exists ([metadata; EvAcquire (Some a)] ++ mid ++ fin). split.
      * now rewrite <- !app_assoc.
      * simpl. now rewrite released_app, Hrm, Hrf.
    + intros a' pooled [<- | []]. apply Hrel.
Qed.

(** ** Completion and error messages *)

(** The wire messages of a run: messages that are neither completion nor
    error, followed by at most one completion or error message. *)
Lemma run_wires sc w :
  exists pre fin,
    wires (run sc w).2 = pre ++ fin /\
    Forall (fun m => isComplete m = false /\ isError m = false) pre /\
    (fin = [] \/ (exists e, fin = [WError e]) \/
     fin = [WComplete (chunksOf pre) (lastCreated pre (startKey sc w))]) /\
    (terminalSuccess sc w ->
     fin = [WComplete (chunksOf pre) (lastCreated pre (startKey sc w))]).
Proof.
  pose proof (run_shape sc w) as H. revert H.
  generalize (run sc w).1.2 as st, (run sc w).2 as t. intros st t H.
  destruct H as [fin Hfin Hno | fin Hacq Hfin _ | a mid fin Hacq Hpre Hfin Hok _].
  - exists [], (wires fin). split; [reflexivity|]. split; [constructor|]. split.
    + destruct Hfin as [-> | [e ->]]; simpl; eauto.
    + intros (prompt & uid & a & Hp & Ht & _ & _ & _ & _ & Hn).
      specialize (Hno Hn). rewrite Hp in Hno. congruence.
  - exists [WMetadata "Prompt received"], (wires fin). split; [reflexivity|].
    split; [repeat constructor|]. split.
    + destruct Hfin as [-> | [e ->]]; simpl; eauto.
    + intros (prompt & uid & a & Hp & _ & Hg & _).
      unfold acquisitionOf in Hacq. rewrite Hp, Hg in Hacq. discriminate.
  - destruct Hpre as [rest Hpre].
    destruct (drainOnly_projections mid (prefix_drainOnly _ _ _ _ Hpre)) as (_ & _ & _ & _ & Hplain).
    assert (Hcomplete : mid = fullDrain a (events sc) ->
              wires [EvSend (completeOf sc w)]
              = [WComplete (chunksOf (WMetadata "Prompt received" :: wires mid))
                           (lastCreated (WMetadata "Prompt received" :: wires mid) (startKey sc w))]).
    { intros ->. simpl. unfold completeOf.
      now rewrite chunksOf_fullDrain, lastCreated_fullDrain. }
    exists (WMetadata "Prompt received" :: wires mid), (wires fin). split.
    { simpl. rewrite !wires_app. simpl. now rewrite app_nil_r. }
    split; [constructor; [split; reflexivity | exact Hplain]|]. split.
    + destruct Hfin as [-> | [[e ->] | [Hmid ->]]]; simpl; eauto.
    + intros (prompt & uid & a' & _ & _ & _ & Hst & Hse & Hreach & Hn).
      destruct (Hok Hn Hst Hse) as [Hmid [-> | [_ Hnot]]]; [now apply Hcomplete | contradiction].
Qed.



Lemma countWire_app f ws1 ws2 : countWire f (ws1 ++ ws2) = (countWire f ws1 + countWire f ws2)%nat.
Proof. unfold countWire. now rewrite List.filter_app, length_app. Qed.


(** ** The [session_created] message *)

Lemma createdAfterRekey_app t1 t2 :
  createdAfterRekey t1 -> createdAfterRekey t2 -> createdAfterRekey (t1 ++ t2).
Proof.
  intros H1 H2 l1 l2 k Heq.
  apply app_eq_app in Heq as [l [[Ht1 Hl] | [Hl1 Ht2]]].
  - destruct l as [|x l]; simpl in Hl.
    + destruct (H2 [] l2 k) as (l0 & a & Hl0); [now rewrite <- Hl|].
      now destruct l0.
    + inversion Hl; subst. now apply (H1 l1 l k).
  - destruct (H2 l l2 k Ht2) as (l0 & a & ->).
    exists (t1 ++ l0), a. rewrite Hl1. now rewrite <- app_assoc.
Qed.

Lemma createdAfterRekey_prefix t rest :
  createdAfterRekey (t ++ rest) -> createdAfterRekey t.
Proof.
  intros H l1 l2 k ->. apply (H l1 (l2 ++ rest) k). now rewrite <- app_assoc.
Qed.

Lemma createdKeys_nil_In ws k : createdKeys ws = [] -> ~ In (WSessionCreated k) ws.
Proof.
  induction ws as [|m ws IH]; simpl; [tauto|].
  destruct m; try discriminate; intros H [Heq | Hin]; try discriminate; now apply IH.
Qed.

Lemma In_wires m t : In (EvSend m) t -> In m (wires t).
Proof.
  induction t as [|e t IH]; simpl; [tauto|].
  intros [-> | Hin]; [now left|]. destruct e; simpl; auto.
Qed.

Lemma createdAfterRekey_none t : createdKeys (wires t) = [] -> createdAfterRekey t.
Proof.
  intros H l1 l2 k ->. exfalso. apply (createdKeys_nil_In _ k H).
  apply In_wires. apply in_or_app. right. now left.
Qed.

Lemma createdBeforeMessage_none t : createdKeys (wires t) = [] -> createdBeforeMessage t.
Proof.
  intros H l1 l2 k ->. exfalso. apply (createdKeys_nil_In _ k H).
  apply In_wires. apply in_or_app. right. now left.
Qed.

Lemma createdBeforeMessage_app t1 t2 :
  createdBeforeMessage t1 -> createdBeforeMessage t2 -> createdBeforeMessage (t1 ++ t2).
Proof.
  intros H1 H2 l1 l2 k Heq.
  apply app_eq_app in Heq as [l [[Ht1 Hl] | [Hl1 Ht2]]].
  - destruct l as [|x l]; simpl in Hl.
    + apply (H2 [] l2 k). now rewrite <- Hl.
    + inversion Hl; subst. destruct (H1 l1 l k eq_refl) as (msg & l3 & -> & Hi & Hk).
      exists msg, (l3 ++ t2). auto.
  - now apply (H2 l l2 k).
Qed.

Lemma eventTrace_created a msg :
  createdAfterRekey (eventTrace a msg) /\ createdBeforeMessage (eventTrace a msg).
Proof.
  unfold eventTrace.
  assert (Htail : createdKeys (wires ([EvSend (WMessage (mtype msg) msg)]
                     ++ map (fun c => EvSend (WTextChunk c)) (eventTexts msg))) = []).
  { simpl. apply createdKeys_chunks. }
  destruct (isInit msg) eqn:Hi.
  - split.
    + apply createdAfterRekey_app; [|now apply createdAfterRekey_none].
      intros l1 l2 k Heq. destruct l1 as [|x [|y l1]]; simpl in Heq.
      * discriminate.
      * inversion Heq; subst. now exists [], a.
      * inversion Heq. now destruct l1.
    + intros l1 l2 k Heq. destruct l1 as [|x [|y l1]]; simpl in Heq.
      * discriminate.
      * inversion Heq; subst. exists msg. eauto.
      * injection Heq as _ _ Hrest. exfalso. apply (createdKeys_nil_In _ k Htail).
        apply In_wires. cbn [app]. rewrite Hrest. apply in_or_app. right. now left.
  - split; [now apply createdAfterRekey_none | now apply createdBeforeMessage_none].
Qed.

Lemma fullDrain_created a evs :
  createdAfterRekey (fullDrain a evs) /\ createdBeforeMessage (fullDrain a evs).
Proof.
  unfold fullDrain. induction (consumed evs) as [|msg l [IH1 IH2]]; simpl.
  - split; [now apply createdAfterRekey_none | now apply createdBeforeMessage_none].
  - destruct (eventTrace_created a msg) as [H1 H2].
    split; [now apply createdAfterRekey_app | now apply createdBeforeMessage_app].
Qed.

Lemma fin_created sc w (fin : list Ev) P :
  (fin = [] \/ (exists e, fin = [EvSend (WError e)]) \/
   (P /\ fin = [EvSend (completeOf sc w)])) ->
  createdKeys (wires fin) = [].
Proof. intros [-> | [[e ->] | [_ ->]]]; auto. Qed.

(** C4 (as stated, refuted): a request that names session "abc" acquires
    the entry stored under "abc"; the init message of the stream carries
    the same id "abc", and [session_created] is sent all the same.  A
    stream with two init messages gets two [session_created] messages. *)
Lemma session_created_for_unchanged_key :
  parsed (RelaySamples.request [RelaySamples.initMsg "abc"; RelaySamples.resultMsg])
    = inr (Some "hi", Some "abc") /\
  acquisitionOf (RelaySamples.request [RelaySamples.initMsg "abc"; RelaySamples.resultMsg])
                RelaySamples.resumable = Some 0%nat /\
  JsMap.get "abc" (sessionPool RelaySamples.resumable) = Some 0%nat /\
  wires (run (RelaySamples.request [RelaySamples.initMsg "abc"; RelaySamples.resultMsg])
             RelaySamples.resumable).2
    = [WMetadata "Prompt received";
       WSessionCreated "abc";
       WMessage "system" (RelaySamples.initMsg "abc");
       WMessage "result" RelaySamples.resultMsg;
       WComplete "" "abc"] /\
  createdKeys (wires (run (RelaySamples.request
                             [RelaySamples.initMsg "abc"; RelaySamples.initMsg "abc";
                              RelaySamples.resultMsg])
                          RelaySamples.resumable).2)
    = ["abc"; "abc"].
Proof. repeat split. Qed.

(** C4 (amended): every [session_created] message of a run is sent
    immediately after the re-keying of the entry to the key it carries,
    and there is at most one per init message consumed.  When the drain is
    reached and the socket accepts every message, one [session_created]
    message is sent for each init message the drain consumes, in order,
    carrying that message's session id, whatever key the caller supplied,
    and it is immediately followed by the [message] wire message of that
    init message, so it precedes every later message. *)
Theorem session_created_per_init_message sc w :
  createdAfterRekey (run sc w).2 /\
  (exists more,
     map session_id (List.filter isInit (consumed (events sc)))
     = createdKeys (wires (run sc w).2) ++ more) /\
  (forall prompt uid a,
     parsed sc = inr (prompt, uid) -> truthy prompt = true ->
     (getSession (tAcquire sc) (creation sc) (interfere sc AwPrewarm) uid w).1 = Some a ->
     streamThrows sc = None -> sendThrows sc = None -> noWsThrow sc ->
     createdKeys (wires (run sc w).2)
       = map session_id (List.filter isInit (consumed (events sc))) /\
     createdBeforeMessage (run sc w).2).
Proof.
  pose proof (run_shape sc w) as H. revert H.
  generalize (run sc w).1.2 as st, (run sc w).2 as t. intros st t H.
  destruct H as [fin Hfin Hno | fin Hacq Hfin _ | a mid fin Hacq Hpre Hfin Hok _].
  - assert (Hc : createdKeys (wires fin) = []) by (destruct Hfin as [-> | [e ->]]; auto).
    split; [now apply createdAfterRekey_none|]. split; [rewrite Hc; eauto|].
    intros prompt uid a Hp Ht _ _ _ Hn. specialize (Hno Hn). rewrite Hp in Hno. congruence.
  - assert (Hc : createdKeys (wires ([metadata; EvAcquire None] ++ fin)) = [])
      by (destruct Hfin as [-> | [e ->]]; auto).
    split; [now apply createdAfterRekey_none|]. split; [rewrite Hc; eauto|].
    intros prompt uid a Hp _ Hg _ _ _.
    unfold acquisitionOf in Hacq. rewrite Hp, Hg in Hacq. discriminate.
  - pose proof (fin_created sc w fin _ Hfin) as Hcf.
    assert (Hkeys : createdKeys (wires ([metadata; EvAcquire (Some a)] ++ mid ++ fin ++ [EvRelease a]))
                    = createdKeys (wires mid)).
    { simpl. rewrite !wires_app, !createdKeys_app, Hcf. simpl. now rewrite app_nil_r. }
    assert (Hfront : createdKeys (wires [metadata; EvAcquire (Some a)]) = []) by reflexivity.
    assert (Hback : createdKeys (wires (fin ++ [EvRelease a])) = []).
    { rewrite wires_app, createdKeys_app, Hcf. reflexivity. }
    destruct (fullDrain_created a (events sc)) as [HP HQ].
    split; [|split].
    + apply createdAfterRekey_app; [now apply createdAfterRekey_none|].
      rewrite app_assoc. apply createdAfterRekey_app.
      * apply createdAfterRekey_app.
        -- destruct Hpre as [rest Hpre]. rewrite Hpre in HP.
           now apply createdAfterRekey_prefix in HP.
        -- now apply createdAfterRekey_none.
      * now apply createdAfterRekey_none.
    + rewrite Hkeys, <- createdKeys_fullDrain with (a := a).
      destruct Hpre as [rest ->]. rewrite wires_app, createdKeys_app. eauto.
    + intros prompt uid a' _ _ _ Hst Hse Hn.
      destruct (Hok Hn Hst Hse) as [Hmid _]. rewrite Hkeys, Hmid. split.
      * apply createdKeys_fullDrain.
      * apply createdBeforeMessage_app; [now apply createdBeforeMessage_none|].
        apply createdBeforeMessage_app; [exact HQ|].
        now apply createdBeforeMessage_none.
Qed.

(** ** Acquisition when no entry is free *)




(** ** The properties at sample requests *)

Lemma release_exactly_once_witness :
  exists t0,
    (run (RelaySamples.request [RelaySamples.initMsg "abc"; RelaySamples.resultMsg])
         RelaySamples.resumable).2 = t0 ++ [EvRelease 0] /\
    released t0 = [].
Proof.
  destruct (release_exactly_once
              (RelaySamples.request [RelaySamples.initMsg "abc"; RelaySamples.resultMsg])
              RelaySamples.resumable) as (_ & _ & H & _).
  apply (H 0%nat). vm_compute. now left.
Defined.

Lemma terminalSuccess_sample :
  terminalSuccess (RelaySamples.request [RelaySamples.helloMsg; RelaySamples.resultMsg])
                  RelaySamples.resumable.
Proof.
  exists (Some "hi"), (Some "abc"), 0%nat.
  repeat split; try reflexivity. now left.
Qed.


Lemma session_created_per_init_message_witness :
  createdKeys
    (wires (run (RelaySamples.request [RelaySamples.initMsg "abc"; RelaySamples.resultMsg])
                RelaySamples.resumable).2)
  = map session_id
        (List.filter isInit (consumed [RelaySamples.initMsg "abc"; RelaySamples.resultMsg])).
Proof.
  destruct (session_created_per_init_message
              (RelaySamples.request [RelaySamples.initMsg "abc"; RelaySamples.resultMsg])
              RelaySamples.resumable) as (_ & _ & H).
  refine (proj1 (H (Some "hi") (Some "abc") 0%nat _ _ _ _ _ _));
    first [reflexivity | intros n; reflexivity].
Defined.

Lemma releaseSession_twice_witness :
  heap (releaseSession 0 1 Samples.oneHeld) !! 0%nat
  = Some (mkPooled 1 "prewarm-a" 0 1 false).
Proof.
  destruct (releaseSession_twice 0 1 2 Samples.oneHeld) as (_ & _ & _ & _ & H & _).
  apply (H (mkPooled 1 "prewarm-a" 0 0 true)). reflexivity.
Defined.

(** ** More facts about the [Map] model *)

Lemma In_set_inv {V : Type} (k k' : string) (v v' : V) (m : list (string * V)) :
  In (k', v') (JsMap.set k v m) -> (k' = k /\ v' = v) \/ (k' <> k /\ In (k', v') m) \/
                                   (k' = k /\ In (k', v') m).
Proof.
  induction m as [|[k0 v0] m IH]; simpl.
  - intros [[= <- <-] | []]. auto.
  - destruct (String.eqb k0 k) eqn:E.
    + apply String.eqb_eq in E. subst k0. intros [[= <- <-] | Hin]; [auto|].
      destruct (String.eqb k' k) eqn:E'.
      * apply String.eqb_eq in E'. auto.
      * apply String.eqb_neq in E'. auto.
    + apply String.eqb_neq in E. intros [[= <- <-] | Hin]; [auto|].
      destruct (IH Hin) as [H | [[H1 H2] | [H1 H2]]]; auto.
Qed.

Lemma In_set_same {V : Type} (k : string) (v : V) (m : list (string * V)) :
  In (k, v) (JsMap.set k v m).
Proof. apply get_In, get_set_eq. Qed.

Lemma In_set_other {V : Type} (k k' : string) (v v' : V) (m : list (string * V)) :
  k' <> k -> In (k', v') m -> In (k', v') (JsMap.set k v m).
Proof.
  intros Hne. induction m as [|[k0 v0] m IH]; simpl; [tauto|].
  destruct (String.eqb k0 k) eqn:E.
  - apply String.eqb_eq in E. subst k0. intros [[= -> ->] | Hin]; [congruence | now right].
  - intros [Heq | Hin]; [now left | right; auto].
Qed.

Lemma wf_set {V : Type} (k : string) (v : V) (m : list (string * V)) :
  JsMap.wf m -> JsMap.wf (JsMap.set k v m).
Proof.
  unfold JsMap.wf. induction m as [|[k0 v0] m IH]; simpl.
  - intros _. apply NoDup_cons. split; [intros H; inversion H | apply NoDup_nil; exact I].
  - intros Hnd. apply NoDup_cons in Hnd as [Hnotin Hnd].
    destruct (String.eqb k0 k) eqn:E.
    + apply String.eqb_eq in E. subst k0. simpl. apply NoDup_cons. auto.
    + apply String.eqb_neq in E. simpl. apply NoDup_cons. split; [|auto].
      intros Hin. apply list_elem_of_In in Hin.
      apply in_map_iff in Hin as [[k1 v1] [Heq Hin]]. simpl in Heq. subst k1.
      apply In_set_inv in Hin as [[H _] | [[_ H] | [H _]]]; try congruence.
      apply Hnotin. apply list_elem_of_In. apply (in_map fst) in H. exact H.
Qed.

Lemma In_set_wf {V : Type} (k k' : string) (v v' : V) (m : list (string * V)) :
  JsMap.wf m ->
  In (k', v') (JsMap.set k v m) <-> (k' = k /\ v' = v) \/ (k' <> k /\ In (k', v') m).
Proof.
  intros Hwf. split.
  - intros Hin. destruct (String.eqb k' k) eqn:E.
    + apply String.eqb_eq in E. subst k'. left. split; [reflexivity|].
      apply (In_get _ _ _ (wf_set k v m Hwf)) in Hin. rewrite get_set_eq in Hin. congruence.
    + apply String.eqb_neq in E. right. split; [exact E|].
      apply In_set_inv in Hin as [[H _] | [[_ H] | [H _]]]; congruence.
  - intros [[-> ->] | [Hne Hin]]; [apply In_set_same | now apply In_set_other].
Qed.

(** ** The structure of the pool state is kept *)

Lemma poolInv_heap w h :
  length h = length (heap w) -> poolInv w -> poolInv (with_heap h w).
Proof.
  intros Hlen (H1 & H2 & H3 & H4 & H5). unfold poolInv, with_heap. cbn [heap sessionPool sessionKeyMap].
  rewrite Hlen. auto.
Qed.

Lemma poolInv_store pooled w km :
  poolInv w ->
  (km = sessionKeyMap w \/ km = <[length (heap w) := sessionId pooled]> (sessionKeyMap w)) ->
  poolInv (mkWorld (heap w ++ [pooled])
                   (JsMap.set (sessionId pooled) (length (heap w)) (sessionPool w)) km).
Proof.
  intros (H1 & H2 & H3 & H4 & H5) Hkm. unfold poolInv. cbn [heap sessionPool sessionKeyMap].
  rewrite length_app. simpl.
  assert (Hin : forall k a, In (k, a) (JsMap.set (sessionId pooled) (length (heap w)) (sessionPool w)) ->
            (k = sessionId pooled /\ a = length (heap w)) \/
            (k <> sessionId pooled /\ In (k, a) (sessionPool w))).
  { intros k a. now apply In_set_wf. }
  assert (Hkm' : forall a k, km !! a = Some k ->
            (a = length (heap w) /\ k = sessionId pooled) \/ sessionKeyMap w !! a = Some k).
  { intros a k Hl. destruct Hkm as [-> | ->]; [auto|].
    rewrite lookup_insert in Hl. case_decide; [|auto]. left. split; congruence. }
  split; [now apply wf_set|]. split; [|split; [|split]].
  - intros k a Hk. destruct (Hin k a Hk) as [[_ ->] | [_ Hk']]; [lia|].
    specialize (H2 k a Hk'). lia.
  - intros a k Hl. destruct (Hkm' a k Hl) as [[-> _] | Hl']; [lia|].
    specialize (H3 a k Hl'). lia.
  - intros k1 k2 a Hk1 Hk2.
    destruct (Hin k1 a Hk1) as [[E1 Ea1] | [Hn1 Hk1']];
      destruct (Hin k2 a Hk2) as [[E2 Ea2] | [Hn2 Hk2']].
    + congruence.
    + specialize (H2 k2 _ Hk2'). lia.
    + specialize (H2 k1 _ Hk1'). lia.
    + eauto.
  - intros a k k' Hl Hk.
    destruct (Hin k' a Hk) as [[E1 Ea1] | [Hn Hk']];
      destruct (Hkm' a k Hl) as [[Ea2 E2] | Hl'].
    + congruence.
    + specialize (H3 _ _ Hl'). lia.
    + specialize (H2 _ _ Hk'). lia.
    + eauto.
Qed.

Lemma poolInv_getSession now outcome env uid w :
  (forall w0, poolInv w0 -> poolInv (env w0)) ->
  poolInv w -> poolInv (getSession now outcome env uid w).2.
Proof.
  intros Henv Hinv. unfold getSession.
  destruct (reusable uid w) as [a|] eqn:Hr.
  - cbn [snd]. unfold markInUse. apply poolInv_heap; [apply length_alter | exact Hinv].
  - destruct (firstFree (heap w) (sessionPool w)) as [[id a]|] eqn:Hf.
    + cbn [snd]. apply firstFree_In in Hf as [Hin [pooled [Hl _]]].
      destruct Hinv as (H1 & H2 & H3 & H4 & H5).
      unfold poolInv, markInUse, with_heap. cbn [heap sessionPool sessionKeyMap].
      rewrite length_alter. split; [exact H1|]. split; [exact H2|]. split; [|split; [exact H4|]].
      * intros b k Hk. rewrite lookup_insert in Hk. case_decide; [|eauto].
        subst b. eauto.
      * intros b k k' Hk Hin'. rewrite lookup_insert in Hk. case_decide; [|eauto].
        subst b. injection Hk as <-. eauto.
    + destruct (prewarmSession outcome) as [newSession|]; cbn [snd]; [|auto].
      apply poolInv_store; auto.
Qed.

Lemma poolInv_updateSessionKey a k w : poolInv w -> poolInv (updateSessionKey a k w).
Proof.
  intros Hinv. unfold updateSessionKey.
  destruct (sessionKeyMap w !! a) as [old|] eqn:Hk;
    [|apply poolInv_heap; [apply length_alter | exact Hinv]].
  destruct (truthy (Some old) && negb (String.eqb old k)) eqn:Hg;
    [|apply poolInv_heap; [apply length_alter | exact Hinv]].
  apply poolInv_heap; [apply length_alter|].
  destruct Hinv as (H1 & H2 & H3 & H4 & H5).
  unfold poolInv. cbn [heap sessionPool sessionKeyMap].
  assert (Hin : forall k' b, In (k', b) (JsMap.set k a (JsMap.delete old (sessionPool w))) ->
            (k' = k /\ b = a) \/ (k' <> k /\ k' <> old /\ In (k', b) (sessionPool w))).
  { intros k' b Hin. apply (In_set_wf _ _ _ _ _ (wf_delete old _ H1)) in Hin
      as [? | [Hne Hin]]; [auto|].
    apply In_delete in Hin. tauto. }
  split; [apply wf_set; now apply wf_delete|]. split; [|split; [|split]].
  - intros k' b Hin'. destruct (Hin k' b Hin') as [[_ ->] | (_ & _ & Hin'')]; eauto.
  - intros b k' Hl. rewrite lookup_insert in Hl. case_decide; [subst b|]; eauto.
  - intros k1 k2 b Hk1 Hk2.
    destruct (Hin k1 b Hk1) as [[E1 Eb1] | (Hn1 & Ho1 & Hk1')];
      destruct (Hin k2 b Hk2) as [[E2 Eb2] | (Hn2 & Ho2 & Hk2')].
    + congruence.
    + subst b. exfalso. apply Ho2. eauto.
    + subst b. exfalso. apply Ho1. eauto.
    + eauto.
  - intros b k0 k' Hl Hin'. rewrite lookup_insert in Hl.
    destruct (Hin k' b Hin') as [[E1 Eb1] | (Hn & Ho & Hin'')].
    + case_decide; congruence.
    + case_decide; [|eauto]. subst b. exfalso. apply Ho. eauto.
Qed.

Lemma evictLoop_keyMap_sub T closeThrows now entries w closed a k :
  sessionKeyMap (evictLoop T closeThrows now entries w closed).1 !! a = Some k ->
  sessionKeyMap w !! a = Some k.
Proof.
  revert w closed. induction entries as [|[id b] rest IH]; intros w closed; simpl; [auto|].
  destruct (heap w !! b) as [pooled|]; [|apply IH].
  destruct (expired T now pooled); [|apply IH].
  destruct (closeThrows (session pooled)); [apply IH|].
  intros H. apply IH in H. simpl in H. rewrite lookup_delete in H.
  case_decide; [discriminate | exact H].
Qed.

Lemma poolInv_cleanupSessions T N closeThrows now w :
  poolInv w -> poolInv (cleanupSessions T N closeThrows now w).1.1.
Proof.
  intros (H1 & H2 & H3 & H4 & H5).
  pose proof (cleanupSessions_In T N closeThrows now w) as Hin.
  destruct (cleanupSessions_world T N closeThrows now w) as [Hw _].
  assert (Hheap : heap (cleanupSessions T N closeThrows now w).1.1 = heap w).
  { rewrite Hw. apply evictLoop_heap. }
  assert (Hwf : JsMap.wf (sessionPool (cleanupSessions T N closeThrows now w).1.1)).
  { rewrite Hw. now apply evictLoop_wf. }
  assert (Hkm : forall a k, sessionKeyMap (cleanupSessions T N closeThrows now w).1.1 !! a = Some k ->
            sessionKeyMap w !! a = Some k).
  { intros a k. rewrite Hw. apply evictLoop_keyMap_sub. }
  revert Hin Hheap Hwf Hkm. generalize (cleanupSessions T N closeThrows now w).1.1 as w'.
  intros w' Hin Hheap Hwf Hkm. unfold poolInv. rewrite Hheap.
  split; [exact Hwf|]. split; [|split; [|split]].
  - intros k a Hk. apply Hin in Hk as [Hk _]; eauto.
  - intros a k Hl. eauto.
  - intros k1 k2 a Hk1 Hk2.
    apply Hin in Hk1 as [Hk1 _]; [|exact H1]. apply Hin in Hk2 as [Hk2 _]; eauto.
  - intros a k k' Hl Hk. apply Hin in Hk as [Hk _]; eauto.
Qed.

(** X1: every operation on the pool keeps the state consistent: keys stay
    unique, stored and recorded addresses denote objects, no object is
    ever stored under two keys, and an object with a recorded key is not
    stored under another key.  Hence every state reached from the empty
    pool is consistent. *)
Theorem poolInv_preserved T N closeThrows w w' :
  poolInv w -> rtc (poolStep T N closeThrows) w w' -> poolInv w'.
Proof.
  intros Hinv Hrtc. induction Hrtc as [w | w w1 w2 Hstep _ IH]; [exact Hinv|].
  apply IH. destruct Hstep.
  - now apply poolInv_getSession.
  - now apply poolInv_updateSessionKey.
  - unfold releaseSession. apply poolInv_heap; [apply length_alter | exact Hinv].
  - now apply poolInv_cleanupSessions.
  - apply poolInv_store; auto.
Qed.

Lemma poolInv_empty : poolInv Samples.emptyWorld.
Proof.
  unfold poolInv, Samples.emptyWorld. cbn [heap sessionPool sessionKeyMap].
  split; [apply NoDup_nil; exact I|]. split; [intros k a []|]. split; [|split].
  - intros a k Hl. rewrite lookup_empty in Hl. discriminate.
  - intros k1 k2 a [].
  - intros a k k' _ [].
Qed.

Lemma poolInv_twoWarm : poolInv Samples.twoWarm.
Proof.
  unfold Samples.twoWarm. apply poolInv_store; [|auto].
  apply poolInv_store; [exact poolInv_empty | auto].
Qed.

Lemma poolInv_preserved_witness :
  poolInv (updateSessionKey 0 "real-1"
             (getSession 5 None id None Samples.twoWarm).2).
Proof.
  apply (poolInv_preserved 1500000 3 (fun _ => false) Samples.emptyWorld).
  - exact poolInv_empty.
  - eapply rtc_l; [apply (StepStorePrewarmed _ _ _ Samples.pooledA)|].
    eapply rtc_l; [apply (StepStorePrewarmed _ _ _ Samples.pooledB)|].
    eapply rtc_l; [apply (StepGetSession _ _ _ 5 None id None); auto|].
    eapply rtc_l; [apply (StepUpdateSessionKey _ _ _ 0%nat "real-1")|].
    apply rtc_refl.
Defined.

(** ** More on acquisition *)

Lemma firstFree_split h entries id a :
  firstFree h entries = Some (id, a) ->
  exists pre post,
    entries = pre ++ (id, a) :: post /\
    forall id' b pooled, In (id', b) pre -> h !! b = Some pooled -> inUse pooled = true.
Proof.
  induction entries as [|[id0 a0] rest IH]; simpl; [discriminate|].
  destruct (h !! a0) as [p0|] eqn:Hl.
  - destruct (inUse p0) eqn:Hu.
    + intros H. destruct (IH H) as (pre & post & -> & Hpre).
      exists ((id0, a0) :: pre), post. split; [reflexivity|].
      intros id' b pooled [[= <- <-] | Hin] Hb; [congruence | eauto].
    + intros [= <- <-]. exists [], rest. split; [reflexivity|]. intros ? ? ? [].
  - intros H. destruct (IH H) as (pre & post & -> & Hpre).
    exists ((id0, a0) :: pre), post. split; [reflexivity|].
    intros id' b pooled [[= <- <-] | Hin] Hb; [congruence | eauto].
Qed.

Lemma firstFree_None h entries :
  firstFree h entries = None ->
  forall id a pooled, In (id, a) entries -> h !! a = Some pooled -> inUse pooled = true.
Proof.
  induction entries as [|[id0 a0] rest IH]; simpl; [intros _ ? ? ? []|].
  destruct (h !! a0) as [p0|] eqn:Hl.
  - destruct (inUse p0) eqn:Hu; [|discriminate].
    intros H id a pooled [[= <- <-] | Hin] Ha; [congruence | eauto].
  - intros H id a pooled [[= <- <-] | Hin] Ha; [congruence | eauto].
Qed.

(** X2: [getSession] never hands out an entry that is in use.  The entry it
    returns either was stored in the pool and free when the call began, or
    is a newly created one; and it creates one only when the scan found no
    free entry in the pool. *)
Theorem getSession_returns_free_or_new now outcome env uid w a w' :
  getSession now outcome env uid w = (Some a, w') ->
  ((exists id, In (id, a) (sessionPool w)) /\ freeAt w a /\
   sessionPool w' = sessionPool w /\ length (heap w') = length (heap w)) \/
  (noFree w /\ a = length (heap (env w)) /\
   exists pooled, prewarmSession outcome = Some pooled /\ heap w' !! a = Some pooled).
Proof.
  unfold getSession. destruct (reusable uid w) as [a0|] eqn:Hr.
  - intros [= <- <-]. left.
    apply reusable_Some in Hr as (k & pooled & _ & _ & Hg & Hl & Hu).
    split; [exists k; now apply get_In|]. split; [exists pooled; auto|].
    split; [reflexivity|]. unfold markInUse, with_heap. cbn [heap]. apply length_alter.
  - destruct (firstFree (heap w) (sessionPool w)) as [[id a0]|] eqn:Hf.
    + intros [= <- <-]. left. apply firstFree_In in Hf as [Hin [pooled [Hl Hu]]].
      split; [eauto|]. split; [exists pooled; auto|]. split; [reflexivity|].
      unfold markInUse, with_heap. cbn [heap]. apply length_alter.
    + destruct (prewarmSession outcome) as [pooled|] eqn:Hp; [|discriminate].
      intros [= <- <-]. right. split; [exact (firstFree_None _ _ Hf)|].
      split; [reflexivity|]. exists pooled. split; [reflexivity|]. cbn [heap].
      rewrite lookup_app_r by lia. now rewrite Nat.sub_diag.
Qed.

Lemma getSession_returns_free_or_new_witness :
  ((exists id, In (id, 0%nat) (sessionPool Samples.twoWarm)) /\ freeAt Samples.twoWarm 0 /\
   sessionPool (getSession 5 None id None Samples.twoWarm).2 = sessionPool Samples.twoWarm /\
   length (heap (getSession 5 None id None Samples.twoWarm).2) = length (heap Samples.twoWarm)) \/
  (noFree Samples.twoWarm /\ 0%nat = length (heap (id Samples.twoWarm)) /\
   exists pooled, prewarmSession None = Some pooled /\
                  heap (getSession 5 None id None Samples.twoWarm).2 !! 0%nat = Some pooled).
Proof.
  apply (getSession_returns_free_or_new 5 None id None Samples.twoWarm 0%nat
           (getSession 5 None id None Samples.twoWarm).2).
  reflexivity.
Defined.

(** X3: whenever some entry stored in the pool is free, [getSession]
    returns an entry of the pool that was free, marks it in use with the
    current time, and creates nothing: the outcome of session creation
    plays no part, the pool mapping is unchanged and no object is added. *)
Theorem getSession_reuses_when_some_free now outcome env uid w id a :
  In (id, a) (sessionPool w) -> freeAt w a ->
  exists b pooled,
    getSession now outcome env uid w
      = (Some b, (getSession now None env uid w).2) /\
    (exists id', In (id', b) (sessionPool w)) /\
    heap w !! b = Some pooled /\ inUse pooled = false /\
    heap (getSession now outcome env uid w).2 !! b
      = Some (mkPooled (session pooled) (sessionId pooled) (createdAt pooled) now true) /\
    sessionPool (getSession now outcome env uid w).2 = sessionPool w /\
    length (heap (getSession now outcome env uid w).2) = length (heap w).
Proof.
  intros Hin [p [Hl Hu]]. unfold getSession.
  destruct (reusable uid w) as [b|] eqn:Hr.
  - apply reusable_Some in Hr as (k & pooled & _ & _ & Hg & Hlb & Hub).
    exists b, pooled. cbn [snd]. split; [reflexivity|].
    split; [exists k; now apply get_In|]. split; [exact Hlb|]. split; [exact Hub|].
    unfold markInUse, with_heap. cbn [heap sessionPool].
    rewrite list_lookup_alter_eq, Hlb, length_alter. auto.
  - destruct (firstFree (heap w) (sessionPool w)) as [[id' b]|] eqn:Hf.
    + apply firstFree_In in Hf as [Hinb [pooled [Hlb Hub]]].
      exists b, pooled. cbn [snd]. split; [reflexivity|].
      split; [eauto|]. split; [exact Hlb|]. split; [exact Hub|].
      unfold markInUse, with_heap. cbn [heap sessionPool].
      rewrite list_lookup_alter_eq, Hlb, length_alter. auto.
    + rewrite (firstFree_None _ _ Hf id a p Hin Hl) in Hu. discriminate.
Qed.

Lemma getSession_reuses_when_some_free_witness :
  exists b pooled,
    getSession 5 (Some Samples.created1) id None Samples.twoWarm
      = (Some b, (getSession 5 None id None Samples.twoWarm).2) /\
    (exists id', In (id', b) (sessionPool Samples.twoWarm)) /\
    heap Samples.twoWarm !! b = Some pooled /\ inUse pooled = false /\
    heap (getSession 5 (Some Samples.created1) id None Samples.twoWarm).2 !! b
      = Some (mkPooled (session pooled) (sessionId pooled) (createdAt pooled) 5 true) /\
    sessionPool (getSession 5 (Some Samples.created1) id None Samples.twoWarm).2
      = sessionPool Samples.twoWarm /\
    length (heap (getSession 5 (Some Samples.created1) id None Samples.twoWarm).2)
      = length (heap Samples.twoWarm).
Proof.
  apply (getSession_reuses_when_some_free 5 (Some Samples.created1) id None Samples.twoWarm
           "prewarm-b" 1%nat).
  - right. now left.
  - exists Samples.pooledB. split; reflexivity.
Defined.

Lemma getSession_by_key now outcome env k w a pooled :
  k <> "" -> JsMap.get k (sessionPool w) = Some a ->
  heap w !! a = Some pooled -> inUse pooled = false ->
  getSession now outcome env (Some k) w = (Some a, markInUse a now w).
Proof.
  intros Hne Hg Hl Hu. unfold getSession, reusable, JsMap.has. cbn [truthy].
  apply String.eqb_neq in Hne. now rewrite Hne, Hg, Hl, Hu.
Qed.

(** X4: the caller's key is preferred: a non-empty key that names a free
    entry gets that entry, wherever it stands among the free entries.  A
    key that is absent, empty, unknown to the pool or naming an entry in
    use is ignored: the call behaves exactly like a call without a key. *)
Theorem getSession_prefers_caller_key now outcome env k w a pooled :
  JsMap.get k (sessionPool w) = Some a -> heap w !! a = Some pooled ->
  (k <> "" -> inUse pooled = false ->
   getSession now outcome env (Some k) w = (Some a, markInUse a now w)) /\
  (inUse pooled = true ->
   getSession now outcome env (Some k) w = getSession now outcome env None w) /\
  getSession now outcome env (Some "") w = getSession now outcome env None w /\
  (forall k', JsMap.get k' (sessionPool w) = None ->
     getSession now outcome env (Some k') w = getSession now outcome env None w).
Proof.
  intros Hg Hl. unfold getSession, reusable, JsMap.has. cbn [truthy].
  split; [|split; [|split]].
  - intros Hne Hu. apply String.eqb_neq in Hne. rewrite Hne, Hg, Hl, Hu. reflexivity.
  - intros Hu. rewrite Hg, Hl, Hu. now destruct (negb (String.eqb k "") && true).
  - reflexivity.
  - intros k' Hn. rewrite Hn. now rewrite andb_false_r.
Qed.

Lemma getSession_prefers_caller_key_witness :
  getSession 5 None id (Some "prewarm-b") Samples.twoWarm
  = (Some 1%nat, markInUse 1 5 Samples.twoWarm).
Proof.
  refine (proj1 (getSession_prefers_caller_key 5 None id "prewarm-b" Samples.twoWarm
                   1%nat Samples.pooledB _ _) _ _); [reflexivity | reflexivity | discriminate | reflexivity].
Defined.

(** X5: without a usable key, [getSession] takes the first free entry in
    the insertion order of the pool: every entry stored before the one it
    returns is in use; it records the key under which it found the entry
    in the key map. *)
Theorem getSession_scans_in_insertion_order now outcome env uid w a w' :
  reusable uid w = None ->
  getSession now outcome env uid w = (Some a, w') ->
  ~ noFree w ->
  exists pre post id,
    sessionPool w = pre ++ (id, a) :: post /\
    (forall id' b pooled, In (id', b) pre -> heap w !! b = Some pooled -> inUse pooled = true) /\
    sessionKeyMap w' !! a = Some id.
Proof.
  intros Hr. unfold getSession. rewrite Hr.
  destruct (firstFree (heap w) (sessionPool w)) as [[id a0]|] eqn:Hf.
  - intros [= <- <-] _. destruct (firstFree_split _ _ _ _ Hf) as (pre & post & Heq & Hpre).
    exists pre, post, id. split; [exact Heq|]. split; [exact Hpre|].
    cbn [sessionKeyMap]. apply lookup_insert_eq.
  - intros _ Hnot. exfalso. apply Hnot. exact (firstFree_None _ _ Hf).
Qed.

Lemma getSession_scans_in_insertion_order_witness :
  exists pre post key,
    sessionPool Samples.twoWarm = pre ++ (key, 0%nat) :: post /\
    (forall id' b pooled, In (id', b) pre -> heap Samples.twoWarm !! b = Some pooled ->
                          inUse pooled = true) /\
    sessionKeyMap (getSession 5 None id None Samples.twoWarm).2 !! 0%nat = Some key.
Proof.
  apply (getSession_scans_in_insertion_order 5 None id None Samples.twoWarm 0%nat
           (getSession 5 None id None Samples.twoWarm).2).
  - reflexivity.
  - reflexivity.
  - intros H. specialize (H "prewarm-a" 0%nat Samples.pooledA (or_introl eq_refl) eq_refl).
    discriminate H.
Defined.

(** X6: a released entry can be acquired again by the key it is stored
    under: after [releaseSession], [getSession] with that (non-empty) key
    returns the same entry, whatever the entry's state was before. *)
Theorem release_then_acquire_by_key now now' outcome env k w a pooled :
  k <> "" ->
  JsMap.get k (sessionPool w) = Some a ->
  heap w !! a = Some pooled ->
  exists w',
    getSession now' outcome env (Some k) (releaseSession a now w) = (Some a, w') /\
    heap w' !! a
      = Some (mkPooled (session pooled) (sessionId pooled) (createdAt pooled) now' true) /\
    sessionPool w' = sessionPool w.
Proof.
  intros Hne Hg Hl.
  assert (Hrel : heap (releaseSession a now w) !! a
                 = Some (mkPooled (session pooled) (sessionId pooled) (createdAt pooled) now false)).
  { unfold releaseSession, with_heap. cbn [heap]. now rewrite list_lookup_alter_eq, Hl. }
  rewrite (getSession_by_key now' outcome env k (releaseSession a now w) a _ Hne Hg Hrel eq_refl).
  eexists. split; [reflexivity|].
  unfold markInUse, with_heap. cbn [heap sessionPool].
  rewrite list_lookup_alter_eq, Hrel. auto.
Qed.

Lemma release_then_acquire_by_key_witness :
  exists w',
    getSession 30 None id (Some "prewarm-a") (releaseSession 0 20 Samples.oneHeld)
      = (Some 0%nat, w') /\
    heap w' !! 0%nat = Some (mkPooled 1 "prewarm-a" 0 30 true) /\
    sessionPool w' = sessionPool Samples.oneHeld.
Proof.
  apply (release_then_acquire_by_key 20 30 None id "prewarm-a" Samples.oneHeld 0%nat
           (mkPooled 1 "prewarm-a" 0 0 true)).
  - discriminate.
  - reflexivity.
  - reflexivity.
Defined.

(** ** More on re-keying *)

(** X7: re-keying onto a key that already holds another entry overwrites
    it: the other entry is no longer stored under any key, although its
    object is neither closed nor changed and its record in the key map
    stays. *)
Theorem updateSessionKey_overwrites_occupant a b old k w :
  poolInv w ->
  sessionKeyMap w !! a = Some old -> old <> "" -> old <> k ->
  JsMap.get k (sessionPool w) = Some b -> b <> a ->
  JsMap.get k (sessionPool (updateSessionKey a k w)) = Some a /\
  (forall k', ~ In (k', b) (sessionPool (updateSessionKey a k w))) /\
  heap (updateSessionKey a k w) !! b = heap w !! b /\
  sessionKeyMap (updateSessionKey a k w) !! b = sessionKeyMap w !! b.
Proof.
  intros (H1 & H2 & H3 & H4 & H5) Hk Hold Hdiff Hg Hba.
  destruct (updateSessionKey_moved a k w old Hk Hold Hdiff) as [Hp Hm].
  rewrite Hp, Hm. split; [apply get_set_eq|]. split; [|split].
  - intros k' Hin.
    apply (In_set_wf _ _ _ _ _ (wf_delete old _ H1)) in Hin as [[_ Hb] | [Hne Hin]];
      [congruence|].
    apply In_delete in Hin as [_ Hin]. apply get_In in Hg.
    apply Hne. eauto.
  - rewrite updateSessionKey_heap. now apply list_lookup_alter_ne.
  - apply lookup_insert_ne. congruence.
Qed.

Lemma updateSessionKey_overwrites_occupant_witness :
  JsMap.get "prewarm-b"
    (sessionPool (updateSessionKey 0 "prewarm-b" (getSession 5 None id None Samples.twoWarm).2))
  = Some 0%nat /\
  (forall k', ~ In (k', 1%nat)
                (sessionPool (updateSessionKey 0 "prewarm-b"
                                (getSession 5 None id None Samples.twoWarm).2))).
Proof.
  assert (Hinv : poolInv (getSession 5 None id None Samples.twoWarm).2).
  { apply poolInv_getSession; [auto | exact poolInv_twoWarm]. }
  destruct (updateSessionKey_overwrites_occupant 0%nat 1%nat "prewarm-a" "prewarm-b"
              (getSession 5 None id None Samples.twoWarm).2 Hinv) as (Ha & Hb & _);
    [reflexivity | discriminate | discriminate | reflexivity | discriminate |].
  split; [exact Ha | exact Hb].
Defined.

(** ** More on idle eviction *)

Lemma delete_absent {V : Type} (k : string) (m : list (string * V)) :
  ~ In k (map fst m) -> JsMap.delete k m = m.
Proof.
  induction m as [|[k0 v0] m IH]; simpl; [reflexivity|].
  intros Hnot. destruct (String.eqb k0 k) eqn:E.
  - apply String.eqb_eq in E. tauto.
  - f_equal. apply IH. tauto.
Qed.

Lemma delete_middle {V : Type} (k : string) (v : V) (pre rest : list (string * V)) :
  JsMap.wf (pre ++ (k, v) :: rest) -> JsMap.delete k (pre ++ (k, v) :: rest) = pre ++ rest.
Proof.
  unfold JsMap.wf. rewrite map_app. simpl. intros Hnd.
  apply NoDup_app in Hnd as (_ & Hdisj & Hnd). apply NoDup_cons in Hnd as [Hnot _].
  induction pre as [|[k0 v0] pre IH]; simpl.
  - rewrite String.eqb_refl. apply delete_absent. now rewrite <- list_elem_of_In.
  - destruct (String.eqb k0 k) eqn:E.
    + apply String.eqb_eq in E. subst k0. exfalso.
      apply (Hdisj k); [now left | now left].
    + f_equal. apply IH. intros x Hx. apply Hdisj. now right.
Qed.

Lemma wf_app_remove {V : Type} (e : string * V) (pre rest : list (string * V)) :
  JsMap.wf (pre ++ e :: rest) -> JsMap.wf (pre ++ rest).
Proof.
  unfold JsMap.wf. rewrite !map_app. simpl. intros Hnd.
  apply NoDup_app in Hnd as (H1 & Hdisj & Hnd). apply NoDup_cons in Hnd as [_ H2].
  apply NoDup_app. split; [exact H1|]. split; [|exact H2].
  intros x Hx Hr. apply (Hdisj x Hx). now right.
Qed.

(** The handles the eviction loop closes among [entries]. *)
Lemma evictLoop_filter T closeThrows now entries : forall pre w closed,
  sessionPool w = pre ++ entries -> JsMap.wf (pre ++ entries) ->
  sessionPool (evictLoop T closeThrows now entries w closed).1
    = pre ++ List.filter (kept T closeThrows now (heap w)) entries /\
  (evictLoop T closeThrows now entries w closed).2
    = closed ++ flat_map (fun e : string * nat =>
                            match heap w !! e.2 with
                            | Some pooled => [session pooled]
                            | None => []
                            end)
                         (List.filter (fun e => negb (kept T closeThrows now (heap w) e)) entries).
Proof.
  induction entries as [|[id a] rest IH]; intros pre w closed Hp Hwf.
  - simpl. rewrite !app_nil_r. rewrite app_nil_r in Hp. auto.
  - cbn [evictLoop List.filter].
    destruct (kept T closeThrows now (heap w) (id, a)) eqn:Hk; cbn [negb].
    + assert (Hstep : match heap w !! a with
                      | Some pooled =>
                          if expired T now pooled then
                            if closeThrows (session pooled)
                            then evictLoop T closeThrows now rest w closed
                            else evictLoop T closeThrows now rest
                                   (mkWorld (heap w) (JsMap.delete id (sessionPool w))
                                            (base.delete a (sessionKeyMap w)))
                                   (closed ++ [session pooled])
                          else evictLoop T closeThrows now rest w closed
                      | None => evictLoop T closeThrows now rest w closed
                      end = evictLoop T closeThrows now rest w closed).
      { unfold kept, closable in Hk. cbn [snd] in Hk.
        destruct (heap w !! a) as [pooled|]; [|reflexivity].
        destruct (expired T now pooled); [|reflexivity].
        destruct (closeThrows (session pooled)); [reflexivity | discriminate]. }
      rewrite Hstep.
      destruct (IH (pre ++ [(id, a)]) w closed) as [H1 H2].
      * now rewrite <- app_assoc.
      * now rewrite <- app_assoc.
      * rewrite H1, H2, <- app_assoc. auto.
    + unfold kept, closable in Hk. cbn [snd] in Hk.
      destruct (heap w !! a) as [pooled|] eqn:Hl; [|discriminate].
      destruct (expired T now pooled); [|discriminate].
      destruct (closeThrows (session pooled)); [discriminate|].
      cbn [flat_map snd]. rewrite Hl.
      destruct (IH pre (mkWorld (heap w) (JsMap.delete id (sessionPool w))
                                (base.delete a (sessionKeyMap w)))
                   (closed ++ [session pooled])) as [H1 H2].
      * cbn [sessionPool]. rewrite Hp. now apply delete_middle.
      * now apply wf_app_remove in Hwf.
      * cbn [heap] in H1, H2. rewrite H1, H2, <- app_assoc. auto.
Qed.

(** X8: a cleanup run filters the pool: what remains is the pool without
    the expired entries whose [close()] returned, in the same order, and
    the handles closed are those of the removed entries, in pool order. *)
Theorem cleanupSessions_filters_in_order T N closeThrows now w :
  JsMap.wf (sessionPool w) ->
  sessionPool (cleanupSessions T N closeThrows now w).1.1
    = List.filter (kept T closeThrows now (heap w)) (sessionPool w) /\
  (cleanupSessions T N closeThrows now w).1.2
    = flat_map (fun e : string * nat =>
                  match heap w !! e.2 with
                  | Some pooled => [session pooled]
                  | None => []
                  end)
               (List.filter (fun e => negb (kept T closeThrows now (heap w) e)) (sessionPool w)).
Proof.
  intros Hwf. destruct (cleanupSessions_world T N closeThrows now w) as [-> ->].
  exact (evictLoop_filter T closeThrows now (sessionPool w) [] w [] eq_refl Hwf).
Qed.

Lemma wf_twoWarm : JsMap.wf (sessionPool Samples.twoWarm).
Proof.
  unfold JsMap.wf. simpl. apply NoDup_cons. split.
  - intros H. apply list_elem_of_In in H. destruct H as [H | []]. discriminate.
  - apply NoDup_cons. split; [intros H; inversion H | apply NoDup_nil; exact I].
Qed.

Lemma cleanupSessions_filters_in_order_witness :
  sessionPool (cleanupSessions 1500000 3 (fun s => Nat.eqb s 1) 1500001 Samples.twoWarm).1.1
    = List.filter (kept 1500000 (fun s => Nat.eqb s 1) 1500001 (heap Samples.twoWarm))
                  (sessionPool Samples.twoWarm).
Proof.
  exact (proj1 (cleanupSessions_filters_in_order 1500000 3 (fun s => Nat.eqb s 1) 1500001
                  Samples.twoWarm wf_twoWarm)).
Defined.

Lemma evictLoop_all_kept T closeThrows now entries w closed :
  (forall e, In e entries -> kept T closeThrows now (heap w) e = true) ->
  evictLoop T closeThrows now entries w closed = (w, closed).
Proof.
  induction entries as [|[id a] rest IH]; intros Hk; [reflexivity|].
  cbn [evictLoop]. pose proof (Hk (id, a) (or_introl eq_refl)) as Ha.
  unfold kept, closable in Ha. cbn [snd] in Ha.
  assert (Hrest : evictLoop T closeThrows now rest w closed = (w, closed)).
  { apply IH. intros e He. apply Hk. now right. }
  destruct (heap w !! a) as [pooled|]; [|exact Hrest].
  destruct (expired T now pooled); [|exact Hrest].
  destruct (closeThrows (session pooled)); [exact Hrest | discriminate].
Qed.

(** X9: a second cleanup run at the same time, with the same handles
    failing to close, changes nothing: it removes no entry, closes no
    handle and starts the same number of pre-warm operations. *)
Theorem cleanupSessions_twice T N closeThrows now w :
  JsMap.wf (sessionPool w) ->
  cleanupSessions T N closeThrows now (cleanupSessions T N closeThrows now w).1.1
  = ((cleanupSessions T N closeThrows now w).1.1, [],
     (cleanupSessions T N closeThrows now w).2).
Proof.
  intros Hwf.
  assert (Hkept : forall e, In e (sessionPool (cleanupSessions T N closeThrows now w).1.1) ->
            kept T closeThrows now (heap (cleanupSessions T N closeThrows now w).1.1) e = true).
  { intros [id a] Hin. apply (cleanupSessions_In _ _ _ _ _ _ _ Hwf) in Hin as [_ Hc].
    destruct (cleanupSessions_world T N closeThrows now w) as [-> _].
    rewrite evictLoop_heap. unfold kept. cbn [snd]. now rewrite Hc. }
  assert (Hn : (cleanupSessions T N closeThrows now w).2
               = if (availableCount (cleanupSessions T N closeThrows now w).1.1 <? N)%nat
                 then (N - availableCount (cleanupSessions T N closeThrows now w).1.1)%nat
                 else 0%nat).
  { unfold cleanupSessions. now destruct (evictLoop T closeThrows now (sessionPool w) w []). }
  revert Hkept Hn. generalize (cleanupSessions T N closeThrows now w).1.1 as w1.
  generalize (cleanupSessions T N closeThrows now w).2 as n. intros n w1 Hkept ->.
  unfold cleanupSessions at 1. now rewrite (evictLoop_all_kept _ _ _ _ _ _ Hkept).
Qed.

Lemma cleanupSessions_twice_witness :
  cleanupSessions 1500000 3 (fun s => Nat.eqb s 1) 1500001
    (cleanupSessions 1500000 3 (fun s => Nat.eqb s 1) 1500001 Samples.twoWarm).1.1
  = ((cleanupSessions 1500000 3 (fun s => Nat.eqb s 1) 1500001 Samples.twoWarm).1.1, [],
     (cleanupSessions 1500000 3 (fun s => Nat.eqb s 1) 1500001 Samples.twoWarm).2).
Proof.
  exact (cleanupSessions_twice 1500000 3 (fun s => Nat.eqb s 1) 1500001 Samples.twoWarm wf_twoWarm).
Defined.

(** ** Warm-up and top-up *)

Lemma set_absent {V : Type} (k : string) (v : V) (m : list (string * V)) :
  ~ In k (map fst m) -> JsMap.set k v m = m ++ [(k, v)].
Proof.
  induction m as [|[k0 v0] m IH]; simpl; [reflexivity|].
  intros Hnot. destruct (String.eqb k0 k) eqn:E.
  - apply String.eqb_eq in E. tauto.
  - f_equal. apply IH. tauto.
Qed.

Lemma availableCount_store pooled w :
  (forall k a, In (k, a) (sessionPool w) -> (a < length (heap w))%nat) ->
  ~ In (sessionId pooled) (map fst (sessionPool w)) ->
  inUse pooled = false ->
  sessionPool (storePrewarmed pooled w) = sessionPool w ++ [(sessionId pooled, length (heap w))] /\
  availableCount (storePrewarmed pooled w) = S (availableCount w).
Proof.
  intros Hvalid Hfresh Hfree. unfold storePrewarmed, availableCount. cbn [heap sessionPool].
  rewrite (set_absent _ _ _ Hfresh). split; [reflexivity|].
  rewrite List.filter_app, length_app. cbn [List.filter snd].
  rewrite lookup_app_r, Nat.sub_diag by lia. cbn [lookup list_lookup]. rewrite Hfree.
  cbn [negb length]. rewrite Nat.add_1_r. f_equal. f_equal.
  apply List.filter_ext_in. intros [k a] Hin. cbn [snd].
  now rewrite lookup_app_l by eauto.
Qed.

Lemma storeAll_spec ps : forall w,
  poolInv w -> freshFor (map fst (sessionPool w)) ps ->
  poolInv (storeAll ps w) /\
  availableCount (storeAll ps w) = (availableCount w + length ps)%nat /\
  length (sessionPool (storeAll ps w)) = (length (sessionPool w) + length ps)%nat /\
  (forall k a, In (k, a) (sessionPool w) -> In (k, a) (sessionPool (storeAll ps w))) /\
  (forall a pooled, heap w !! a = Some pooled -> heap (storeAll ps w) !! a = Some pooled) /\
  (forall pooled, In pooled ps ->
     exists a, JsMap.get (sessionId pooled) (sessionPool (storeAll ps w)) = Some a /\
               heap (storeAll ps w) !! a = Some pooled).
Proof.
  induction ps as [|p ps IH]; intros w Hinv (Hfree & Hnd & Hkeys).
  - unfold storeAll. cbn [fold_left length]. split; [exact Hinv|].
    split; [lia|]. split; [lia|]. split; [auto|]. split; [auto|]. intros ? [].
  - unfold storeAll. cbn [fold_left]. fold (storeAll ps (storePrewarmed p w)).
    apply Forall_cons in Hfree as [Hp Hfree]. cbn [map] in Hnd.
    apply NoDup_cons in Hnd as [Hpnot Hnd].
    assert (Hvalid : forall k a, In (k, a) (sessionPool w) -> (a < length (heap w))%nat)
      by apply Hinv.
    assert (Hfreshp : ~ In (sessionId p) (map fst (sessionPool w))).
    { apply Hkeys. now left. }
    destruct (availableCount_store p w Hvalid Hfreshp Hp) as [Hpool Hcount].
    assert (Hinv1 : poolInv (storePrewarmed p w)) by (apply poolInv_store; auto).
    assert (Hfresh1 : freshFor (map fst (sessionPool (storePrewarmed p w))) ps).
    { split; [exact Hfree|]. split; [exact Hnd|].
      intros q Hq. rewrite Hpool, map_app. cbn [map fst]. intros Hin.
      apply in_app_or in Hin as [Hin | [Heq | []]].
      - apply (Hkeys q); [now right | exact Hin].
      - apply Hpnot. apply list_elem_of_In. rewrite Heq. now apply in_map. }
    destruct (IH (storePrewarmed p w) Hinv1 Hfresh1) as (H1 & H2 & H3 & H4 & H5 & H6).
    split; [exact H1|]. split; [|split; [|split; [|split]]].
    + rewrite H2, Hcount. cbn [length]. lia.
    + rewrite H3, Hpool, length_app. cbn [length]. lia.
    + intros k a Hin. apply H4. rewrite Hpool. apply in_or_app. now left.
    + intros a q Hq. apply H5. unfold storePrewarmed. cbn [heap].
      rewrite lookup_app_l; [exact Hq|]. now apply lookup_lt_Some in Hq.
    + intros q [<- | Hq]; [|now apply H6].
      exists (length (heap w)). split.
      * apply In_get; [apply H1|]. apply H4. rewrite Hpool. apply in_or_app. right. now left.
      * apply H5. unfold storePrewarmed. cbn [heap].
        rewrite lookup_app_r by lia. now rewrite Nat.sub_diag.
Qed.

(** X10: the warm-up fills the pool: after the callbacks of pre-warm
    operations that all succeeded, with distinct ids, stored their
    sessions in the empty pool, the pool has one free entry per session,
    and each session is found under its own id. *)
Theorem warmup_fills_pool ps :
  freshFor [] ps ->
  availableCount (storeAll ps Samples.emptyWorld) = length ps /\
  length (sessionPool (storeAll ps Samples.emptyWorld)) = length ps /\
  poolInv (storeAll ps Samples.emptyWorld) /\
  (forall pooled, In pooled ps ->
     exists a, JsMap.get (sessionId pooled) (sessionPool (storeAll ps Samples.emptyWorld)) = Some a /\
               heap (storeAll ps Samples.emptyWorld) !! a = Some pooled).
Proof.
  intros Hfresh.
  destruct (storeAll_spec ps Samples.emptyWorld poolInv_empty Hfresh)
    as (H1 & H2 & H3 & _ & _ & H6).
  auto.
Qed.

Lemma freshFor_two : freshFor [] [Samples.pooledA; Samples.pooledB].
Proof.
  split; [repeat constructor|]. split; [|intros ? _ []].
  simpl. apply NoDup_cons. split.
  - intros H. apply list_elem_of_In in H. destruct H as [H | []]. discriminate.
  - apply NoDup_cons. split; [intros H; inversion H | apply NoDup_nil; exact I].
Qed.

Lemma warmup_fills_pool_witness :
  availableCount (storeAll [Samples.pooledA; Samples.pooledB] Samples.emptyWorld) = 2%nat.
Proof.
  exact (proj1 (warmup_fills_pool [Samples.pooledA; Samples.pooledB] freshFor_two)).
Defined.

(** X11: the top-up of a cleanup run starts exactly as many pre-warm
    operations as free entries are missing from [POOL_SIZE], none when
    there are enough.  When they all succeed with new distinct ids and
    their callbacks run, the pool has [POOL_SIZE] free entries again, or
    as many as it had if it had more; the entries that survived the
    eviction are still there. *)
Theorem cleanupSessions_tops_up T N closeThrows now w ps :
  poolInv w ->
  length ps = (cleanupSessions T N closeThrows now w).2 ->
  freshFor (map fst (sessionPool (cleanupSessions T N closeThrows now w).1.1)) ps ->
  (cleanupSessions T N closeThrows now w).2
    = (N - availableCount (cleanupSessions T N closeThrows now w).1.1)%nat /\
  availableCount (storeAll ps (cleanupSessions T N closeThrows now w).1.1)
    = Nat.max N (availableCount (cleanupSessions T N closeThrows now w).1.1) /\
  (forall k a, In (k, a) (sessionPool (cleanupSessions T N closeThrows now w).1.1) ->
     In (k, a) (sessionPool (storeAll ps (cleanupSessions T N closeThrows now w).1.1))).
Proof.
  intros Hinv Hlen Hfresh.
  assert (Hn : (cleanupSessions T N closeThrows now w).2
               = (N - availableCount (cleanupSessions T N closeThrows now w).1.1)%nat).
  { unfold cleanupSessions. destruct (evictLoop T closeThrows now (sessionPool w) w []).
    cbn [fst snd]. destruct (Nat.ltb_spec (availableCount w0) N); lia. }
  pose proof (poolInv_cleanupSessions T N closeThrows now w Hinv) as Hinv1.
  destruct (storeAll_spec ps _ Hinv1 Hfresh) as (_ & H2 & _ & H4 & _).
  split; [exact Hn|]. split; [|exact H4].
  rewrite H2, Hlen, Hn. lia.
Qed.

Lemma cleanupSessions_tops_up_witness :
  availableCount
    (storeAll [mkPooled 3 "prewarm-c" 9 9 false]
       (cleanupSessions 1500000 3 (fun _ => false) 10 Samples.twoWarm).1.1)
  = Nat.max 3 (availableCount (cleanupSessions 1500000 3 (fun _ => false) 10 Samples.twoWarm).1.1).
Proof.
  refine (proj1 (proj2 (cleanupSessions_tops_up 1500000 3 (fun _ => false) 10 Samples.twoWarm
                          [mkPooled 3 "prewarm-c" 9 9 false] poolInv_twoWarm _ _))).
  - reflexivity.
  - split; [repeat constructor|]. split.
    + simpl. apply NoDup_cons. split; [intros H; inversion H | apply NoDup_nil; exact I].
    + intros pooled [<- | []]. simpl. intros [H | [H | []]]; discriminate.
Defined.

(** ** Runs in which every send succeeds *)

Lemma wp_wsSend_ok sc m s (Q : string + unit -> St -> list Ev -> Prop) :
  noWsThrow sc ->
  Q (inr tt) (mkSt (world s) (S (sends s)) (assignedSession s)) [EvSend m] ->
  wp (wsSend sc m) s Q.
Proof.
  intros Hno HQ. apply wp_wsSend; [|auto]. intros e He. rewrite Hno in He. discriminate.
Qed.

Lemma wp_callUpdateSessionKey a k s (Q : string + unit -> St -> list Ev -> Prop) :
  Q (inr tt) (mkSt (updateSessionKey a k (world s)) (sends s) (assignedSession s)) [EvRekey a k] ->
  wp (callUpdateSessionKey a k) s Q.
Proof. auto. Qed.

Lemma textBlocks_ok sc blocks : forall full s,
  noWsThrow sc ->
  wp (textBlocks sc blocks full) s
     (fun r s' _ => (exists x, r = inr x) /\ world s' = world s).
Proof.
  induction blocks as [|block rest IH]; intros full s Hno; cbn [textBlocks].
  - apply wp_ret. eauto.
  - destruct (String.eqb (btype block) "text"); [|now apply IH].
    apply wp_bind. apply wp_wsSend_ok; [exact Hno|].
    eapply wp_conseq; [apply IH; exact Hno|]. intros r s' t H. exact H.
Qed.

(** The drain when every send succeeds: it raises what the stream raises,
    and, undisturbed, leaves the state the re-keyings produce. *)
Lemma drain_quiet sc a evs : forall i full key s,
  noWsThrow sc ->
  wp (drain sc a i evs full key) s
     (fun r s' _ =>
        (existsb isResult evs = false -> forall e, streamEnd sc = Some e -> r = inl e) /\
        (undisturbed sc -> world s' = rekeys a (consumed evs) (world s))).
Proof.
  induction evs as [|msg rest IH]; intros i full key s Hno; cbn [drain].
  - apply wp_bind. apply wp_yield.
    destruct (streamEnd sc) as [e|].
    + apply wp_throw. split; [now intros _ e' [= ->]|]. intros Hq. cbn [world]. apply Hq.
    + apply wp_ret. split; [intros _ e' [=]|]. intros Hq. cbn [world]. apply Hq.
  - apply wp_bind. apply wp_yield. apply wp_bind.
    assert (Hrest : forall s1 key1,
              world s1 = (if isInit msg
                          then updateSessionKey a (session_id msg) (interfere sc (AwNext i) (world s))
                          else interfere sc (AwNext i) (world s)) ->
              wp (wsSend sc (WMessage (mtype msg) msg)
                  ≫= (fun _ =>
                        (if String.eqb (mtype msg) "assistant"
                         then match content msg with
                              | Some blocks => textBlocks sc blocks full
                              | None => mret full
                              end
                         else mret full)
                        ≫= (fun fullResponse' =>
                              if String.eqb (mtype msg) "result"
                              then mret (fullResponse', key1)
                              else drain sc a (S i) rest fullResponse' key1)))
                 s1
                 (fun r s' _ =>
                    (existsb isResult (msg :: rest) = false ->
                     forall e, streamEnd sc = Some e -> r = inl e) /\
                    (undisturbed sc -> world s' = rekeys a (consumed (msg :: rest)) (world s)))).
    { intros s1 key1 Hw. apply wp_bind. apply wp_wsSend_ok; [exact Hno|]. apply wp_bind.
      assert (Hfinal : forall full1 s2, world s2 = world s1 ->
                wp (if String.eqb (mtype msg) "result"
                    then mret (full1, key1)
                    else drain sc a (S i) rest full1 key1) s2
                   (fun r s' _ =>
                      (existsb isResult (msg :: rest) = false ->
                       forall e, streamEnd sc = Some e -> r = inl e) /\
                      (undisturbed sc ->
                       world s' = rekeys a (consumed (msg :: rest)) (world s)))).
      { intros full1 s2 Hw2. cbn [existsb consumed]. unfold isResult at 1 3.
        destruct (String.eqb (mtype msg) "result") eqn:Hres.
        - apply wp_ret. split; [discriminate|]. intros Hq. unfold rekeys. cbn [fold_left].
          rewrite Hw2, Hw, !Hq. reflexivity.
        - eapply wp_conseq; [apply IH; exact Hno|]. intros r s' t [H1 H2].
          split; [exact H1|]. intros Hq. rewrite (H2 Hq). unfold rekeys. cbn [fold_left].
          rewrite Hw2, Hw, !Hq. reflexivity. }
      destruct (String.eqb (mtype msg) "assistant").
      - destruct (content msg) as [blocks|].
        + eapply wp_conseq; [apply textBlocks_ok; exact Hno|].
          intros r s2 t [[x ->] Hw2]. eapply wp_conseq; [apply Hfinal; exact Hw2|].
          intros r s' t' H. exact H.
        + apply wp_ret. eapply wp_conseq; [apply Hfinal; reflexivity|]. intros r s' t' H. exact H.
      - apply wp_ret. eapply wp_conseq; [apply Hfinal; reflexivity|]. intros r s' t' H. exact H. }
    destruct (isInit msg).
    + apply wp_bind. apply wp_callUpdateSessionKey. apply wp_bind.
      apply wp_wsSend_ok; [exact Hno|]. apply wp_ret.
      eapply wp_conseq; [apply Hrest; reflexivity|]. intros r s' t' H. exact H.
    + apply wp_ret. eapply wp_conseq; [apply Hrest; reflexivity|]. intros r s' t' H. exact H.
Qed.

Lemma wp_and {A : Type} (m : M A) s (Q1 Q2 : string + A -> St -> list Ev -> Prop) :
  wp m s Q1 -> wp m s Q2 -> wp m s (fun r s' t => Q1 r s' t /\ Q2 r s' t).
Proof. unfold wp. auto. Qed.

(** The [catch] and [finally] blocks when every send succeeds and an entry
    is assigned. *)
Lemma wp_catch_finally_ok sc (r1 : string + unit) s1 a (Q : St -> list Ev -> Prop) :
  noWsThrow sc ->
  assignedSession s1 = Some a ->
  (forall s3,
     world s3 = releaseSession a (tRelease sc) (world s1) ->
     Q s3 (match r1 with inl e => [EvSend (WError e)] | inr _ => [] end ++ [EvRelease a])) ->
  wp (match r1 with inl e => handlerCatch sc e | inr x => mret x end) s1
     (fun r2 s2 t2 =>
        wp (handlerFinally sc) s2 (fun r3 s3 t3 => Q s3 (t2 ++ t3))).
Proof.
  intros Hno Ha HQ.
  assert (Hfin : forall s2 t2,
            assignedSession s2 = Some a -> world s2 = world s1 ->
            t2 = match r1 with inl e => [EvSend (WError e)] | inr _ => [] end ->
            wp (handlerFinally sc) s2 (fun r3 s3 t3 => Q s3 (t2 ++ t3))).
  { intros s2 t2 Ha2 Hw2 ->. unfold handlerFinally. apply wp_bind.
    unfold wp at 1, getAssigned. cbn [fst snd]. rewrite Ha2.
    unfold wp, callReleaseSession. cbn [fst snd]. rewrite app_nil_l.
    apply HQ. cbn [world]. now rewrite Hw2. }
  destruct r1 as [e|[]].
  - unfold handlerCatch. apply wp_wsSend_ok; [exact Hno|]. now apply Hfin.
  - apply wp_ret. now apply Hfin.
Qed.

Ltac catch_finally_ok r a :=
  lazymatch goal with
  | |- wp _ _ (fun _ s2 t2 => wp _ s2 (fun _ s3 t3 => ?T s3 (?pre ++ t2 ++ t3))) =>
      lazymatch goal with
      | Hno : noWsThrow ?sc |- _ =>
          apply (wp_catch_finally_ok sc r _ a (fun s3 t => T s3 (pre ++ t)) Hno);
          [first [reflexivity | eassumption] | cbn [world]; intros s3 Hw3]
      end
  end.

(** The events and the final state of a run that acquires an entry and
    whose sends all succeed. *)
Lemma run_all_sent sc w prompt uid a w1 :
  noWsThrow sc ->
  parsed sc = inr (prompt, uid) -> truthy prompt = true ->
  getSession (tAcquire sc) (creation sc) (interfere sc AwPrewarm) uid w = (Some a, w1) ->
  (run sc w).2
    = [metadata; EvAcquire (Some a)] ++ drained sc a ++ [EvSend (lastWire sc w)] ++ [EvRelease a] /\
  (undisturbed sc ->
   world (run sc w).1.2
     = releaseSession a (tRelease sc)
         (match streamThrows sc, sendThrows sc with
          | None, None => rekeys a (consumed (events sc)) w1
          | _, _ => w1
          end)).
Proof.
  intros Hno Hp Ht Hg.
  pose (Target := fun (st : St) (t : list Ev) =>
          t = [metadata; EvAcquire (Some a)] ++ drained sc a
                ++ [EvSend (lastWire sc w)] ++ [EvRelease a] /\
          (undisturbed sc ->
           world st = releaseSession a (tRelease sc)
                        (match streamThrows sc, sendThrows sc with
                         | None, None => rekeys a (consumed (events sc)) w1
                         | _, _ => w1
                         end))).
  change (Target (run sc w).1.2 (run sc w).2).
  unfold run, handler.
  change (wp (tryCatchFinally (handlerTry sc) (handlerCatch sc) (handlerFinally sc))
             (mkSt w 0 None) (fun _ st t => Target st t)).
  apply wp_tryCatchFinally. unfold handlerTry. rewrite Hp, Ht. cbn [negb].
  apply wp_bind. apply wp_wsSend_ok; [exact Hno|].
  apply wp_bind. apply wp_callGetSession. cbn [world sends assignedSession].
  intros r w1' Hg'. rewrite Hg in Hg'. injection Hg' as <- <-.
  apply wp_bind. apply wp_yield. apply wp_bind. apply wp_setAssigned.
  cbn [world sends assignedSession].
  assert (Hkey : startKey sc w
                 = match heap (interfere sc AwSend (interfere sc AwGetSession w1)) !! a with
                   | Some pooled => sessionId pooled
                   | None => ""
                   end).
  { unfold startKey. now rewrite Hp, Hg. }
  unfold relay.
  destruct (streamThrows sc) as [e|] eqn:Hst.
  { apply wp_bind. apply wp_throw. catch_finally_ok (@inl string unit e) a.
    unfold Target, drained, lastWire. rewrite Hst. split; [reflexivity|].
    intros Hq. now rewrite Hw3, Hq. }
  apply wp_bind. apply wp_ret. apply wp_bind. apply wp_yield.
  destruct (sendThrows sc) as [e|] eqn:Hse.
  { apply wp_bind. apply wp_throw. catch_finally_ok (@inl string unit e) a.
    unfold Target, drained, lastWire. rewrite Hst, Hse. split; [reflexivity|].
    intros Hq. now rewrite Hw3, !Hq. }
  apply wp_bind. apply wp_ret. apply wp_bind. apply wp_readSessionId.
  cbn [world sends assignedSession]. rewrite <- Hkey.
  apply wp_bind.
  eapply wp_conseq; [apply wp_and; [apply post_drain | apply (drain_quiet sc a _ _ _ _ _ Hno)]|].
  intros r s' t [(Ha & _ & Htr & Hret & Hok) [Hraise Hworld]].
  cbn [assignedSession world] in Ha, Hworld. specialize (Htr Hno). subst t.
  assert (Hlast : lastWire sc w
                  = match r with
                    | inl e => WError e
                    | inr _ => completeOf sc w
                    end).
  { unfold lastWire. rewrite Hst, Hse.
    destruct (existsb isResult (events sc)) eqn:Hex.
    - rewrite (Hok Hno (or_introl Hex)). reflexivity.
    - destruct (streamEnd sc) as [e|] eqn:Hend.
      + now rewrite (Hraise eq_refl e eq_refl).
      + rewrite (Hok Hno (or_intror Hend)). reflexivity. }
  assert (Hfinal : forall s3, world s3 = releaseSession a (tRelease sc) (world s') ->
            undisturbed sc ->
            world s3 = releaseSession a (tRelease sc) (rekeys a (consumed (events sc)) w1)).
  { intros s3 Hw3 Hq. now rewrite Hw3, (Hworld Hq), !Hq. }
  destruct r as [e | x].
  { catch_finally_ok (@inl string unit e) a.
    unfold Target, drained. rewrite Hst, Hse, Hlast. split.
    - norm_trace. reflexivity.
    - now apply Hfinal. }
  destruct (Hret x eq_refl) as [_ ->]. cbn [fst snd]. fold (completeOf sc w).
  apply wp_wsSend_ok; [exact Hno|].
  catch_finally_ok (@inr string unit tt) a.
  unfold Target, drained. rewrite Hst, Hse, Hlast. split.
  - norm_trace. reflexivity.
  - now apply Hfinal.
Qed.

Lemma messagesOf_app ws1 ws2 : messagesOf (ws1 ++ ws2) = messagesOf ws1 ++ messagesOf ws2.
Proof.
  induction ws1 as [|m ws1 IH]; [reflexivity|].
  destruct m; simpl; try exact IH. now rewrite IH.
Qed.

Lemma chunkList_app ws1 ws2 : chunkList (ws1 ++ ws2) = chunkList ws1 ++ chunkList ws2.
Proof.
  induction ws1 as [|m ws1 IH]; [reflexivity|].
  destruct m; simpl; try exact IH. now rewrite IH.
Qed.

Lemma eventTrace_forwarded a msg :
  messagesOf (wires (eventTrace a msg)) = [msg] /\
  chunkList (wires (eventTrace a msg)) = eventTexts msg /\
  forall ty data, In (WMessage ty data) (wires (eventTrace a msg)) -> ty = mtype data.
Proof.
  unfold eventTrace. rewrite !wires_app, !messagesOf_app, !chunkList_app.
  assert (Hc : forall xs, messagesOf (wires (map (fun c => EvSend (WTextChunk c)) xs)) = [] /\
                          chunkList (wires (map (fun c => EvSend (WTextChunk c)) xs)) = xs /\
                          forall ty data,
                            ~ In (WMessage ty data) (wires (map (fun c => EvSend (WTextChunk c)) xs))).
  { induction xs as [|x xs (IH1 & IH2 & IH3)]; simpl; [auto|].
    rewrite IH1, IH2. split; [reflexivity|]. split; [reflexivity|].
    intros ty data [H | H]; [discriminate | now apply (IH3 ty data)]. }
  destruct (Hc (eventTexts msg)) as (H1 & H2 & H3).
  destruct (isInit msg); simpl; rewrite H1, H2; (split; [reflexivity|]; split; [reflexivity|]);
    intros ty data Hin; repeat (apply in_app_or in Hin as [Hin | Hin] || simpl in Hin);
    repeat (destruct Hin as [Hin | Hin]); try discriminate; try contradiction;
    try (now injection Hin as <- <-); try (exfalso; now apply (H3 ty data)).
Qed.

Lemma fullDrain_forwarded a evs :
  messagesOf (wires (fullDrain a evs)) = consumed evs /\
  chunkList (wires (fullDrain a evs)) = flat_map eventTexts (consumed evs) /\
  forall ty data, In (WMessage ty data) (wires (fullDrain a evs)) -> ty = mtype data.
Proof.
  unfold fullDrain. induction (consumed evs) as [|msg l (IH1 & IH2 & IH3)]; simpl.
  - split; [reflexivity|]. split; [reflexivity|]. intros ? ? [].
  - destruct (eventTrace_forwarded a msg) as (H1 & H2 & H3).
    rewrite wires_app, messagesOf_app, chunkList_app, H1, H2, IH1, IH2.
    split; [reflexivity|]. split; [reflexivity|].
    intros ty data Hin. apply in_app_or in Hin as [Hin | Hin]; eauto.
Qed.

Lemma consumed_split pre post :
  consumed (pre ++ post) = if existsb isResult pre then consumed pre else pre ++ consumed post.
Proof.
  induction pre as [|msg pre IH]; [reflexivity|].
  cbn [app consumed existsb]. destruct (isResult msg); [reflexivity|]. cbn [orb].
  rewrite IH. now destruct (existsb isResult pre).
Qed.

Lemma lastWire_cases sc w :
  (exists e, lastWire sc w = WError e) \/ lastWire sc w = completeOf sc w.
Proof.
  unfold lastWire. destruct (streamThrows sc); [eauto|]. destruct (sendThrows sc); [eauto|].
  destruct (existsb isResult (events sc)); [auto|]. destruct (streamEnd sc); eauto.
Qed.

(** X12: when an entry is acquired, [stream()] and [send()] succeed and the
    socket accepts every message, the handler forwards each stream message
    up to and including the first result message exactly once, in order,
    as a [message] wire message typed with the message's own type, and
    sends one [text_chunk] per text block of the assistant messages among
    them, in order.  Nothing that follows the first result message is
    forwarded. *)
Theorem stream_forwarded_once_in_order sc w prompt uid a w1 :
  noWsThrow sc ->
  parsed sc = inr (prompt, uid) -> truthy prompt = true ->
  getSession (tAcquire sc) (creation sc) (interfere sc AwPrewarm) uid w = (Some a, w1) ->
  streamThrows sc = None -> sendThrows sc = None ->
  messagesOf (wires (run sc w).2) = consumed (events sc) /\
  chunkList (wires (run sc w).2) = flat_map eventTexts (consumed (events sc)) /\
  (forall ty data, In (WMessage ty data) (wires (run sc w).2) -> ty = mtype data) /\
  (forall pre post, events sc = pre ++ post ->
     messagesOf (wires (run sc w).2)
       = if existsb isResult pre then consumed pre else pre ++ consumed post).
Proof.
  intros Hno Hp Ht Hg Hst Hse.
  destruct (run_all_sent sc w prompt uid a w1 Hno Hp Ht Hg) as [Htr _].
  rewrite Htr. unfold drained. rewrite Hst, Hse.
  destruct (fullDrain_forwarded a (events sc)) as (H1 & H2 & H3).
  assert (Hlast : messagesOf [lastWire sc w] = [] /\ chunkList [lastWire sc w] = [] /\
                  forall ty data, ~ In (WMessage ty data) [lastWire sc w]).
  { destruct (lastWire_cases sc w) as [[e ->] | ->]; unfold completeOf; simpl;
      (split; [reflexivity|]; split; [reflexivity|]); intros ty data [H | []]; discriminate. }
  destruct Hlast as (L1 & L2 & L3).
  assert (Hw : wires ([metadata; EvAcquire (Some a)] ++ fullDrain a (events sc)
                        ++ [EvSend (lastWire sc w)] ++ [EvRelease a])
               = WMetadata "Prompt received" :: wires (fullDrain a (events sc)) ++ [lastWire sc w]).
  { simpl. rewrite wires_app. reflexivity. }
  rewrite Hw. cbn [messagesOf chunkList]. rewrite messagesOf_app, chunkList_app, H1, H2, L1, L2.
  rewrite !app_nil_r. split; [reflexivity|]. split; [reflexivity|]. split.
  - intros ty data [H | Hin]; [discriminate|].
    apply in_app_or in Hin as [Hin | Hin]; [eauto | exfalso; now apply (L3 ty data)].
  - intros pre post ->. apply consumed_split.
Qed.

Lemma noWsThrow_request evs : noWsThrow (RelaySamples.request evs).
Proof. intros n. reflexivity. Qed.

Lemma stream_forwarded_once_in_order_witness :
  messagesOf
    (wires (run (RelaySamples.request
                   [RelaySamples.helloMsg; RelaySamples.resultMsg; RelaySamples.helloMsg])
                RelaySamples.resumable).2)
  = consumed [RelaySamples.helloMsg; RelaySamples.resultMsg; RelaySamples.helloMsg].
Proof.
  refine (proj1 (stream_forwarded_once_in_order
                   (RelaySamples.request
                      [RelaySamples.helloMsg; RelaySamples.resultMsg; RelaySamples.helloMsg])
                   RelaySamples.resumable (Some "hi") (Some "abc") 0%nat
                   (markInUse 0 10 RelaySamples.resumable)
                   (noWsThrow_request _) _ _ _ _ _)); reflexivity.
Defined.

Lemma consumed_no_result evs : existsb isResult evs = false -> consumed evs = evs.
Proof.
  induction evs as [|msg evs IH]; [reflexivity|]. cbn [existsb consumed].
  destruct (isResult msg); [discriminate|]. cbn [orb]. intros H. now rewrite IH.
Qed.

(** X13: a failure of the upstream session is reported once and nothing
    else follows.  When the socket accepts every message and an entry was
    acquired: if [stream()] or [send()] throws, the client receives the
    metadata message and one error message with the thrown text; if the
    stream raises after yielding messages, none of them a result message,
    the client receives the metadata message, everything those messages
    give rise to, and then one error message with the raised text.  In
    each case no completion message is sent and the entry is released. *)
Theorem upstream_failure_reported sc w prompt uid a w1 :
  noWsThrow sc ->
  parsed sc = inr (prompt, uid) -> truthy prompt = true ->
  getSession (tAcquire sc) (creation sc) (interfere sc AwPrewarm) uid w = (Some a, w1) ->
  (forall e, streamThrows sc = Some e ->
     wires (run sc w).2 = [WMetadata "Prompt received"; WError e]) /\
  (forall e, streamThrows sc = None -> sendThrows sc = Some e ->
     wires (run sc w).2 = [WMetadata "Prompt received"; WError e]) /\
  (forall e, streamThrows sc = None -> sendThrows sc = None ->
     existsb isResult (events sc) = false -> streamEnd sc = Some e ->
     wires (run sc w).2
       = WMetadata "Prompt received"
           :: wires (flat_map (eventTrace a) (events sc)) ++ [WError e] /\
     countWire isComplete (wires (run sc w).2) = 0%nat) /\
  released (run sc w).2 = [a].
Proof.
  intros Hno Hp Ht Hg.
  destruct (run_all_sent sc w prompt uid a w1 Hno Hp Ht Hg) as [Htr _].
  rewrite Htr. unfold drained, lastWire. split; [|split; [|split]].
  - intros e ->. reflexivity.
  - intros e -> ->. reflexivity.
  - intros e -> -> Hex Hend. rewrite Hex, Hend. unfold fullDrain.
    rewrite (consumed_no_result _ Hex).
    assert (Hw : wires ([metadata; EvAcquire (Some a)] ++ flat_map (eventTrace a) (events sc)
                          ++ [EvSend (WError e)] ++ [EvRelease a])
                 = WMetadata "Prompt received"
                     :: wires (flat_map (eventTrace a) (events sc)) ++ [WError e]).
    { simpl. rewrite wires_app. reflexivity. }
    rewrite Hw. split; [reflexivity|].
    pose proof (fullDrain_drainOnly a (events sc)) as Hd. unfold fullDrain in Hd.
    rewrite (consumed_no_result _ Hex) in Hd.
    destruct (drainOnly_projections _ Hd) as (_ & _ & Hc & _).
    change (WMetadata "Prompt received" :: wires (flat_map (eventTrace a) (events sc)) ++ [WError e])
      with ([WMetadata "Prompt received"] ++ wires (flat_map (eventTrace a) (events sc)) ++ [WError e]).
    rewrite !countWire_app, Hc. reflexivity.
  - assert (Hd : Forall drainOnly
                   (match streamThrows sc, sendThrows sc with
                    | None, None => fullDrain a (events sc)
                    | _, _ => []
                    end)).
    { destruct (streamThrows sc); [constructor|]. destruct (sendThrows sc); [constructor|].
      apply fullDrain_drainOnly. }
    destruct (drainOnly_projections _ Hd) as (_ & Hr & _).
    simpl. rewrite !released_app, Hr. reflexivity.
Qed.

Lemma upstream_failure_reported_witness :
  wires (run (mkScript (inr (Some "hi", Some "abc")) 10 None None None
                       [RelaySamples.helloMsg] (Some "disconnected") 20
                       (fun _ => None) (fun _ w => w))
             RelaySamples.resumable).2
  = WMetadata "Prompt received"
      :: wires (flat_map (eventTrace 0) [RelaySamples.helloMsg]) ++ [WError "disconnected"].
Proof.
  refine (proj1 (proj1 (proj2 (proj2
            (upstream_failure_reported
               (mkScript (inr (Some "hi", Some "abc")) 10 None None None
                         [RelaySamples.helloMsg] (Some "disconnected") 20
                         (fun _ => None) (fun _ w => w))
               RelaySamples.resumable (Some "hi") (Some "abc") 0%nat
               (markInUse 0 10 RelaySamples.resumable) _ _ _ _)))
            "disconnected" _ _ _ _)); first [reflexivity | intros n; reflexivity].
Defined.

(** ** Requests that are rejected before acquisition *)

(** X14: a request that cannot be parsed, or whose prompt is missing or
    empty, never reaches the pool: the shared state is exactly what it
    was, nothing is acquired or released, and the client is sent one error
    message, the text of the parse error or "No prompt provided", when the
    socket accepts it.  If the socket refuses the "No prompt provided"
    message, the handler tries once to report that failure instead. *)
Theorem rejected_request_leaves_pool sc w :
  (forall e, parsed sc = inl e ->
     world (run sc w).1.2 = w /\
     acquired (run sc w).2 = [] /\ released (run sc w).2 = [] /\
     wires (run sc w).2
       = match wsThrows sc 0 with
         | None => [WError e]
         | Some _ => []
         end) /\
  (forall prompt uid, parsed sc = inr (prompt, uid) -> truthy prompt = false ->
     world (run sc w).1.2 = w /\
     acquired (run sc w).2 = [] /\ released (run sc w).2 = [] /\
     wires (run sc w).2
       = match wsThrows sc 0 with
         | None => [WError "No prompt provided"]
         | Some e =>
             match wsThrows sc 1 with
             | None => [WError e]
             | Some _ => []
             end
         end).
Proof.
  split.
  - intros e Hp. unfold run, handler, tryCatchFinally, handlerTry. rewrite Hp.
    unfold throw, handlerCatch, handlerFinally, wsSend, mbind, M_bind, getAssigned.
    cbn [sends world assignedSession]. destruct (wsThrows sc 0); simpl; auto.
  - intros prompt uid Hp Ht. unfold run, handler, tryCatchFinally, handlerTry. rewrite Hp, Ht.
    cbn [negb]. unfold handlerCatch, handlerFinally, wsSend, mbind, M_bind, getAssigned.
    cbn [sends world assignedSession].
    destruct (wsThrows sc 0); simpl; [destruct (wsThrows sc 1); simpl|]; auto.
Qed.

Lemma rejected_request_leaves_pool_witness :
  world (run (mkScript (inr (Some "", None)) 10 None None None [] None 20
                       (fun _ => None) (fun _ w => w))
             Samples.twoWarm).1.2 = Samples.twoWarm /\
  wires (run (mkScript (inr (Some "", None)) 10 None None None [] None 20
                       (fun _ => None) (fun _ w => w))
             Samples.twoWarm).2 = [WError "No prompt provided"].
Proof.
  destruct (rejected_request_leaves_pool
              (mkScript (inr (Some "", None)) 10 None None None [] None 20
                        (fun _ => None) (fun _ w => w))
              Samples.twoWarm) as [_ H].
  destruct (H (Some "") None eq_refl eq_refl) as (H1 & _ & _ & H2).
  split; [exact H1 | exact H2].
Defined.

(** ** The key a client gets back *)

Lemma rekeys_tracked a msgs : forall w cur,
  (forall msg, In msg msgs -> isInit msg = true -> session_id msg <> "") ->
  sessionKeyMap w !! a = Some cur -> cur <> "" ->
  JsMap.get cur (sessionPool w) = Some a ->
  is_Some (heap w !! a) ->
  let cur' := fold_left (fun k msg => if isInit msg then session_id msg else k) msgs cur in
  sessionKeyMap (rekeys a msgs w) !! a = Some cur' /\ cur' <> "" /\
  JsMap.get cur' (sessionPool (rekeys a msgs w)) = Some a /\
  is_Some (heap (rekeys a msgs w) !! a).
Proof.
  induction msgs as [|msg msgs IH]; intros w cur Hids Hk Hne Hg Hh; [cbn; auto|].
  unfold rekeys. cbn [fold_left]. fold (rekeys a msgs).
  assert (Hids' : forall m, In m msgs -> isInit m = true -> session_id m <> "").
  { intros m Hm. apply Hids. now right. }
  destruct (isInit msg) eqn:Hi; [|now apply IH].
  pose proof (Hids msg (or_introl eq_refl) Hi) as Hid.
  assert (Hh' : is_Some (heap (updateSessionKey a (session_id msg) w) !! a)).
  { rewrite updateSessionKey_heap, list_lookup_alter_eq. destruct Hh as [p ->]. now eexists. }
  destruct (String.eqb cur (session_id msg)) eqn:E.
  - apply String.eqb_eq in E. subst cur.
    destruct (updateSessionKey_unmoved a (session_id msg) w) as [Hp Hm]; [tauto|].
    apply IH; auto; [now rewrite Hm | now rewrite Hp].
  - apply String.eqb_neq in E.
    destruct (updateSessionKey_moved a (session_id msg) w cur Hk Hne E) as [Hp Hm].
    apply IH; auto.
    + rewrite Hm. apply lookup_insert_eq.
    + rewrite Hp. apply get_set_eq.
Qed.

(** X15: the session id a client receives in the completion message leads
    back to the same session.  Take an undisturbed request whose sends all
    succeed, whose acquired entry is recorded in the key map under the
    non-empty key it is stored under, with that key as its stored id, and
    whose init messages carry non-empty ids.  If the run sends a
    completion message, then after the run [getSession] with the
    [claudeSessionId] of that message returns the very entry the run
    used. *)
Theorem completion_key_reacquires_entry sc w prompt uid a w1 old pooled :
  noWsThrow sc -> undisturbed sc ->
  parsed sc = inr (prompt, uid) -> truthy prompt = true ->
  getSession (tAcquire sc) (creation sc) (interfere sc AwPrewarm) uid w = (Some a, w1) ->
  sessionKeyMap w1 !! a = Some old -> old <> "" ->
  JsMap.get old (sessionPool w1) = Some a ->
  heap w1 !! a = Some pooled -> sessionId pooled = old ->
  (forall msg, In msg (consumed (events sc)) -> isInit msg = true -> session_id msg <> "") ->
  forall resp key,
    In (WComplete resp key) (wires (run sc w).2) ->
    key = fold_left (fun k msg => if isInit msg then session_id msg else k)
                    (consumed (events sc)) old /\
    JsMap.get key (sessionPool (world (run sc w).1.2)) = Some a /\
    forall now' outcome' env',
      (getSession now' outcome' env' (Some key) (world (run sc w).1.2)).1 = Some a.
Proof.
  intros Hno Hq Hp Ht Hg Hk Hne Hget Hl Hsid Hids resp key Hin.
  destruct (run_all_sent sc w prompt uid a w1 Hno Hp Ht Hg) as [Htr Hw].
  specialize (Hw Hq). rewrite Htr in Hin.
  assert (Hstart : startKey sc w = old).
  { unfold startKey. now rewrite Hp, Hg, !Hq, Hl. }
  assert (Hd : Forall drainOnly (drained sc a)).
  { unfold drained. destruct (streamThrows sc); [constructor|].
    destruct (sendThrows sc); [constructor|]. apply fullDrain_drainOnly. }
  destruct (drainOnly_projections _ Hd) as (_ & _ & _ & _ & Hplain).
  assert (Hc : lastWire sc w = WComplete resp key).
  { simpl in Hin. rewrite wires_app in Hin. destruct Hin as [Hin | Hin]; [discriminate|].
    apply in_app_or in Hin as [Hin | Hin].
    - rewrite List.Forall_forall in Hplain. destruct (Hplain _ Hin) as [Hx _]. discriminate.
    - simpl in Hin. destruct Hin as [Hin | []]. exact Hin. }
  assert (Hboth : streamThrows sc = None /\ sendThrows sc = None /\
                  completeOf sc w = WComplete resp key).
  { unfold lastWire in Hc. destruct (streamThrows sc); [discriminate|].
    destruct (sendThrows sc); [discriminate|]. split; [reflexivity|]. split; [reflexivity|].
    destruct (existsb isResult (events sc)); [exact Hc|].
    destruct (streamEnd sc); [discriminate | exact Hc]. }
  destruct Hboth as (Hst & Hse & Hcomp). rewrite Hst, Hse in Hw.
  unfold completeOf in Hcomp. rewrite Hstart in Hcomp. injection Hcomp as _ Hkey.
  destruct (rekeys_tracked a (consumed (events sc)) w1 old Hids Hk Hne Hget)
    as (_ & Hne' & Hget' & [q Hq']); [eauto|].
  rewrite Hkey in Hne', Hget'.
  assert (Hpool : sessionPool (world (run sc w).1.2)
                  = sessionPool (rekeys a (consumed (events sc)) w1)).
  { now rewrite Hw. }
  split; [now rewrite Hkey|]. split; [now rewrite Hpool|].
  intros now' outcome' env'.
  erewrite getSession_by_key; [reflexivity | exact Hne' | now rewrite Hpool | |].
  - rewrite Hw. unfold releaseSession, with_heap. cbn [heap].
    rewrite list_lookup_alter_eq, Hq'. reflexivity.
  - reflexivity.
Qed.

Lemma completion_key_reacquires_entry_witness :
  (getSession 30 None (fun w => w) (Some "real-1")
     (world (run (mkScript (inr (Some "hi", None)) 10 None None None
                           [RelaySamples.initMsg "real-1"; RelaySamples.helloMsg;
                            RelaySamples.resultMsg] None 20
                           (fun _ => None) (fun _ w => w))
                 Samples.twoWarm).1.2)).1 = Some 0%nat.
Proof.
  refine (proj2 (proj2
            (completion_key_reacquires_entry
               (mkScript (inr (Some "hi", None)) 10 None None None
                         [RelaySamples.initMsg "real-1"; RelaySamples.helloMsg;
                          RelaySamples.resultMsg] None 20
                         (fun _ => None) (fun _ w => w))
               Samples.twoWarm (Some "hi") None 0%nat
               (getSession 10 None (fun w => w) None Samples.twoWarm).2
               "prewarm-a" (mkPooled 1 "prewarm-a" 0 10 true)
               _ _ _ _ _ _ _ _ _ _ _ "Hello" "real-1" _)) 30 None (fun w => w)).
  - intros n. reflexivity.
  - intros p w. reflexivity.
  - reflexivity.
  - reflexivity.
  - reflexivity.
  - reflexivity.
  - discriminate.
  - reflexivity.
  - reflexivity.
  - reflexivity.
  - intros msg [<- | [<- | [<- | []]]]; discriminate.
  - vm_compute. auto 10.
Defined.

(** ** The Worker's bridge *)

Section BridgeFacts.
Context {P : Type}.
Implicit Types (st : Worker.State P) (ev : Worker.Event P) (evs : list (Worker.Event P)).

Lemma deliver_closed ev st :
  Worker.closed st = true ->
  Worker.closed (Worker.deliver ev st) = true /\
  Worker.wsClosed (Worker.deliver ev st) = Worker.wsClosed st /\
  Worker.out (Worker.deliver ev st) = Worker.out st.
Proof.
  intros Hc.
  assert (Hcs : forall err, Worker.closeStream err st = st).
  { intros err. unfold Worker.closeStream. now rewrite Hc. }
  destruct ev as [[m|]| | |]; cbn [Worker.deliver Worker.onMessage]; rewrite ?Hcs; auto.
  destruct (Worker.m_error m); [now rewrite Hcs|].
  destruct (Worker.m_type m) as [ty|]; [|now rewrite Hc].
  destruct (Worker.m_claudeSessionId m) as [sid|]; [|now rewrite Hc].
  destruct (String.eqb ty "session_created"); cbn [Worker.closed]; now rewrite Hc.
Qed.

Lemma deliver_open ev st :
  Worker.closed st = false ->
  Worker.closed (Worker.deliver ev st) = closing ev /\
  Worker.wsClosed (Worker.deliver ev st) = (Worker.wsClosed st || closing ev) /\
  Worker.out (Worker.deliver ev st) = Worker.out st ++ lineOf ev.
Proof.
  intros Hc.
  assert (Hcs : forall err st',
            Worker.closed st' = false ->
            Worker.closeStream err st'
            = Worker.mkState (Worker.sessionId st') true true
                (Worker.out st' ++ match err with
                                   | Some e => [Worker.LineError e]
                                   | None => []
                                   end)).
  { intros err st' H. unfold Worker.closeStream. now rewrite H. }
  destruct ev as [[m|]| | |]; cbn [Worker.deliver Worker.onMessage closing lineOf].
  - destruct (Worker.m_error m) as [e|].
    { rewrite (Hcs _ _ Hc). cbn [Worker.closed Worker.wsClosed Worker.out].
      now rewrite orb_true_r. }
    assert (Hgo : forall st1,
              Worker.closed st1 = false -> Worker.wsClosed st1 = Worker.wsClosed st ->
              Worker.out st1 = Worker.out st ->
              let r := if Worker.closed st1 then st1
                       else match Worker.m_type m with
                            | Some ty =>
                                if String.eqb ty "complete"
                                then Worker.closeStream None
                                       (Worker.mkState (Worker.sessionId st1) (Worker.closed st1)
                                          (Worker.wsClosed st1)
                                          (Worker.out st1 ++ [Worker.LineMessage m]))
                                else Worker.mkState (Worker.sessionId st1) (Worker.closed st1)
                                       (Worker.wsClosed st1)
                                       (Worker.out st1 ++ [Worker.LineMessage m])
                            | None => Worker.mkState (Worker.sessionId st1) (Worker.closed st1)
                                        (Worker.wsClosed st1)
                                        (Worker.out st1 ++ [Worker.LineMessage m])
                            end in
              Worker.closed r = match Worker.m_type m with
                                | Some ty => String.eqb ty "complete"
                                | None => false
                                end /\
              Worker.wsClosed r = (Worker.wsClosed st ||
                                   match Worker.m_type m with
                                   | Some ty => String.eqb ty "complete"
                                   | None => false
                                   end) /\
              Worker.out r = Worker.out st ++ [Worker.LineMessage m]).
    { intros st1 H1 H2 H3. cbn zeta. rewrite H1.
      destruct (Worker.m_type m) as [ty|]; [destruct (String.eqb ty "complete")|].
      - rewrite Hcs by reflexivity. cbn [Worker.closed Worker.wsClosed Worker.out].
        now rewrite H3, app_nil_r, orb_true_r.
      - cbn [Worker.closed Worker.wsClosed Worker.out]. now rewrite ?H1, ?H2, ?H3, orb_false_r.
      - cbn [Worker.closed Worker.wsClosed Worker.out]. now rewrite ?H1, ?H2, ?H3, orb_false_r. }
    destruct (Worker.m_type m) as [ty|] eqn:Hty.
    + destruct (Worker.m_claudeSessionId m) as [sid|]; [|now apply Hgo].
      destruct (String.eqb ty "session_created"); now apply Hgo.
    + now apply Hgo.
  - now rewrite orb_false_r, app_nil_r.
  - rewrite (Hcs _ _ Hc). cbn [Worker.closed Worker.wsClosed Worker.out].
    now rewrite orb_true_r, app_nil_r.
  - rewrite (Hcs _ _ Hc). cbn [Worker.closed Worker.wsClosed Worker.out].
    now rewrite orb_true_r.
  - rewrite (Hcs _ _ Hc). cbn [Worker.closed Worker.wsClosed Worker.out].
    now rewrite orb_true_r.
Qed.

Lemma bridge_closed evs : forall st,
  Worker.closed st = true ->
  Worker.closed (Worker.bridge evs st) = true /\
  Worker.wsClosed (Worker.bridge evs st) = Worker.wsClosed st /\
  Worker.out (Worker.bridge evs st) = Worker.out st.
Proof.
  induction evs as [|ev evs IH]; intros st Hc; [auto|].
  unfold Worker.bridge. cbn [fold_left]. fold (Worker.bridge evs (Worker.deliver ev st)).
  destruct (deliver_closed ev st Hc) as (H1 & H2 & H3).
  destruct (IH _ H1) as (H4 & H5 & H6). rewrite H5, H6. auto.
Qed.

Lemma bridge_open evs : forall st,
  Worker.closed st = false ->
  Worker.closed (Worker.bridge evs st) = existsb closing evs /\
  Worker.wsClosed (Worker.bridge evs st) = (Worker.wsClosed st || existsb closing evs) /\
  Worker.out (Worker.bridge evs st) = Worker.out st ++ flat_map lineOf (upToClosing evs).
Proof.
  induction evs as [|ev evs IH]; intros st Hc.
  - cbn. now rewrite orb_false_r, app_nil_r.
  - unfold Worker.bridge. cbn [fold_left]. fold (Worker.bridge evs (Worker.deliver ev st)).
    destruct (deliver_open ev st Hc) as (H1 & H2 & H3). cbn [existsb upToClosing].
    destruct (closing ev) eqn:Hcl.
    + destruct (bridge_closed evs _ H1) as (H4 & H5 & H6).
      rewrite H4, H5, H6, H2, H3. cbn [flat_map orb]. now rewrite app_nil_r, !orb_true_r.
    + destruct (IH _ H1) as (H4 & H5 & H6).
      rewrite H4, H5, H6, H2, H3. cbn [flat_map orb]. rewrite orb_false_r, <- app_assoc. auto.
Qed.
End BridgeFacts.

(** X16: the response stream of the Worker carries exactly the lines of the
    deliveries up to and including the first closing one (a message with an
    [error], a [complete] message, the socket's close or error, the
    timeout), in order, and nothing of what is delivered afterwards; the
    stream and the container socket are closed together, exactly when such
    a delivery occurred. *)
Theorem bridge_relays_up_to_first_closing {P : Type} (evs : list (Worker.Event P)) sid :
  Worker.out (Worker.bridge evs (Worker.opened sid)) = flat_map lineOf (upToClosing evs) /\
  Worker.closed (Worker.bridge evs (Worker.opened sid)) = existsb closing evs /\
  Worker.wsClosed (Worker.bridge evs (Worker.opened sid)) = existsb closing evs /\
  (forall pre ev post, evs = pre ++ ev :: post -> existsb closing pre = false ->
     closing ev = true ->
     Worker.out (Worker.bridge evs (Worker.opened sid)) = flat_map lineOf pre ++ lineOf ev).
Proof.
  destruct (bridge_open evs (Worker.opened sid) eq_refl) as (H1 & H2 & H3).
  cbn [Worker.opened Worker.out Worker.wsClosed app orb] in H2, H3.
  split; [exact H3|]. split; [exact H1|]. split; [exact H2|].
  intros pre ev post -> Hpre Hev. rewrite H3. f_equal.
  clear H1 H2 H3. induction pre as [|e pre IH]; cbn [app upToClosing flat_map].
  - rewrite Hev. cbn. now rewrite app_nil_r.
  - cbn [existsb] in Hpre. apply orb_false_iff in Hpre as [He Hpre]. rewrite He.
    cbn [flat_map]. rewrite (IH Hpre), app_assoc. reflexivity.
Qed.

Lemma bridge_relays_up_to_first_closing_witness :
  Worker.out (Worker.bridge
                [Worker.OnMessage (Some (toMessage (WTextChunk "a")));
                 Worker.OnTimeout;
                 Worker.OnMessage (Some (toMessage (WTextChunk "b")))]
                (Worker.opened None))
  = flat_map lineOf [Worker.OnMessage (Some (toMessage (WTextChunk "a")))]
      ++ lineOf Worker.OnTimeout.
Proof.
  refine (proj2 (proj2 (proj2
            (bridge_relays_up_to_first_closing
               [Worker.OnMessage (Some (toMessage (WTextChunk "a")));
                Worker.OnTimeout;
                Worker.OnMessage (Some (toMessage (WTextChunk "b")))] None)))
            [Worker.OnMessage (Some (toMessage (WTextChunk "a")))]
            Worker.OnTimeout
            [Worker.OnMessage (Some (toMessage (WTextChunk "b")))] _ _ _); reflexivity.
Defined.

(** X17: once the response stream is closed, no delivery writes to it or
    touches the socket again, whatever arrives; and an error line, once
    written, is the last line of the response. *)
Theorem bridge_closed_is_final {P : Type} (evs more : list (Worker.Event P)) sid :
  (Worker.closed (Worker.bridge evs (Worker.opened sid)) = true ->
   Worker.out (Worker.bridge (evs ++ more) (Worker.opened sid))
     = Worker.out (Worker.bridge evs (Worker.opened sid)) /\
   Worker.wsClosed (Worker.bridge (evs ++ more) (Worker.opened sid)) = true) /\
  (forall pre e post,
     Worker.out (Worker.bridge evs (Worker.opened sid)) = pre ++ Worker.LineError e :: post ->
     post = [] /\ Worker.closed (Worker.bridge evs (Worker.opened sid)) = true).
Proof.
  split.
  - intros Hc. unfold Worker.bridge. rewrite fold_left_app.
    fold (Worker.bridge evs (Worker.opened sid)).
    fold (Worker.bridge more (Worker.bridge evs (Worker.opened sid))).
    destruct (bridge_closed more _ Hc) as (_ & H2 & H3). rewrite H2, H3.
    split; [reflexivity|].
    destruct (bridge_open evs (Worker.opened sid) eq_refl) as (H4 & H5 & _).
    cbn [Worker.opened Worker.wsClosed orb] in H5. now rewrite H5, <- H4.
  - destruct (bridge_open evs (Worker.opened sid) eq_refl) as (H1 & _ & H3).
    cbn [Worker.opened Worker.out app] in H3. rewrite H1, H3. clear H1 H3.
    induction evs as [|ev evs IH]; intros pre e post Heq.
    + now destruct pre.
    + cbn [upToClosing existsb] in *. destruct (closing ev) eqn:Hcl.
      * cbn [flat_map orb] in *. rewrite app_nil_r in Heq. split; [|reflexivity].
        destruct ev as [[m|]| | |]; cbn [lineOf] in Heq;
          try (destruct (Worker.m_error m));
          destruct pre as [|x [|y pre]]; simpl in Heq; try discriminate;
          inversion Heq; reflexivity.
      * cbn [flat_map orb] in *.
        assert (Hline : lineOf ev = [] \/ exists m, lineOf ev = [Worker.LineMessage m]).
        { destruct ev as [[m|]| | |]; cbn [lineOf closing] in *; try discriminate; auto.
          destruct (Worker.m_error m); [discriminate | eauto]. }
        destruct Hline as [Hl | [m Hl]]; rewrite Hl in Heq; cbn [app] in Heq.
        -- now apply (IH pre e post).
        -- destruct pre as [|x pre]; simpl in Heq; [discriminate|].
           injection Heq as _ Heq. now apply (IH pre e post).
Qed.

Lemma bridge_closed_is_final_witness :
  Worker.out (Worker.bridge
                ([Worker.OnError] ++ [Worker.OnMessage (Some (toMessage (WTextChunk "b")))])
                (Worker.opened None))
  = Worker.out (Worker.bridge [Worker.OnError] (Worker.opened (P := Wire) None)).
Proof.
  refine (proj1 (proj1 (bridge_closed_is_final
                          [Worker.OnError]
                          [Worker.OnMessage (Some (toMessage (WTextChunk "b")))] None) _)).
  reflexivity.
Defined.

(** ** A container run seen through the Worker's bridge *)

Lemma delivered_plain pre :
  Forall (fun m => isComplete m = false /\ isError m = false) pre ->
  existsb closing (delivered pre) = false /\
  upToClosing (delivered pre) = delivered pre /\
  flat_map lineOf (delivered pre) = map (fun m => Worker.LineMessage (toMessage m)) pre.
Proof.
  induction 1 as [|m pre [Hc He] _ (IH1 & IH2 & IH3)]; [auto|].
  assert (Hm : closing (Worker.OnMessage (Some (toMessage m))) = false /\
               lineOf (Worker.OnMessage (Some (toMessage m))) = [Worker.LineMessage (toMessage m)]).
  { destruct m; try discriminate; auto. }
  destruct Hm as [Hm1 Hm2]. unfold delivered in *. cbn [map existsb upToClosing flat_map].
  rewrite Hm1, Hm2, IH1, IH2, IH3. auto.
Qed.

Lemma upToClosing_app {P : Type} (evs1 evs2 : list (Worker.Event P)) :
  existsb closing evs1 = false ->
  upToClosing (evs1 ++ evs2) = evs1 ++ upToClosing evs2.
Proof.
  induction evs1 as [|ev evs1 IH]; [reflexivity|]. cbn [existsb app upToClosing].
  intros H. apply orb_false_iff in H as [He H]. rewrite He. now rewrite IH.
Qed.

(** X18: what the Worker makes of a container run.  Fed the wire messages
    of any run of the container's handler, the bridge copies every message
    before a completion or error message as a line of its own.  On
    terminal success it copies all messages, the completion message last,
    and closes the response.  An error message with a non-empty text is
    replaced by an error line with that text, after the lines of the
    messages before it, and closes the response.  When the run sent
    neither, the response stays open. *)
Theorem container_run_through_bridge sc w sid :
  (terminalSuccess sc w ->
   Worker.out (Worker.bridge (delivered (wires (run sc w).2)) (Worker.opened sid))
     = map (fun m => Worker.LineMessage (toMessage m)) (wires (run sc w).2) /\
   Worker.closed (Worker.bridge (delivered (wires (run sc w).2)) (Worker.opened sid)) = true) /\
  (forall e, e <> "" -> In (WError e) (wires (run sc w).2) ->
     exists pre,
       wires (run sc w).2 = pre ++ [WError e] /\
       Worker.out (Worker.bridge (delivered (wires (run sc w).2)) (Worker.opened sid))
         = map (fun m => Worker.LineMessage (toMessage m)) pre ++ [Worker.LineError e] /\
       Worker.closed (Worker.bridge (delivered (wires (run sc w).2)) (Worker.opened sid)) = true) /\
  (countWire isComplete (wires (run sc w).2) = 0%nat ->
   countWire isError (wires (run sc w).2) = 0%nat ->
   Worker.out (Worker.bridge (delivered (wires (run sc w).2)) (Worker.opened sid))
     = map (fun m => Worker.LineMessage (toMessage m)) (wires (run sc w).2) /\
   Worker.closed (Worker.bridge (delivered (wires (run sc w).2)) (Worker.opened sid)) = false).
Proof.
  destruct (run_wires sc w) as (pre & fin & Heq & Hplain & Hfin & Hsucc).
  destruct (delivered_plain pre Hplain) as (Hp1 & Hp2 & Hp3).
  assert (Hgen : forall fin0,
            Worker.out (Worker.bridge (delivered (pre ++ fin0)) (Worker.opened sid))
              = map (fun m => Worker.LineMessage (toMessage m)) pre
                  ++ flat_map lineOf (upToClosing (delivered fin0)) /\
            Worker.closed (Worker.bridge (delivered (pre ++ fin0)) (Worker.opened sid))
              = existsb closing (delivered fin0)).
  { intros fin0.
    destruct (bridge_open (delivered (pre ++ fin0)) (Worker.opened sid) eq_refl) as (H1 & _ & H3).
    cbn [Worker.opened Worker.out app] in H3. rewrite H1, H3.
    unfold delivered at 1 3. rewrite map_app. fold (delivered pre). fold (delivered fin0).
    rewrite (upToClosing_app _ _ Hp1), flat_map_app, Hp3, existsb_app, Hp1. auto. }
  rewrite Heq. split; [|split].
  - intros Hs. rewrite (Hsucc Hs). destruct (Hgen [WComplete (chunksOf pre)
                                             (lastCreated pre (startKey sc w))]) as [H1 H2].
    rewrite H1, H2, map_app. auto.
  - intros e Hne Hin. apply in_app_or in Hin as [Hin | Hin].
    { rewrite List.Forall_forall in Hplain. destruct (Hplain _ Hin) as [_ Hx]. discriminate. }
    assert (Hf : fin = [WError e]).
    { destruct Hfin as [-> | [[e' ->] | ->]]; simpl in Hin; [contradiction | |].
      - destruct Hin as [[= ->] | []]. reflexivity.
      - destruct Hin as [Hin | []]. discriminate. }
    subst fin. exists pre. split; [reflexivity|].
    destruct (Hgen [WError e]) as [H1 H2]. rewrite H1, H2.
    apply String.eqb_neq in Hne. cbn. rewrite Hne. auto.
  - rewrite !countWire_app. intros Hc He.
    assert (Hf : fin = []).
    { destruct Hfin as [-> | [[e' ->] | ->]]; [reflexivity | |]; unfold countWire in *;
        simpl in *; lia. }
    subst fin. destruct (Hgen []) as [H1 H2]. rewrite H1, H2, !app_nil_r. auto.
Qed.

Lemma container_run_through_bridge_witness :
  Worker.closed
    (Worker.bridge
       (delivered (wires (run (RelaySamples.request [RelaySamples.helloMsg; RelaySamples.resultMsg])
                              RelaySamples.resumable).2))
       (Worker.opened None)) = true.
Proof.
  exact (proj2 (proj1 (container_run_through_bridge
                         (RelaySamples.request [RelaySamples.helloMsg; RelaySamples.resultMsg])
                         RelaySamples.resumable None) terminalSuccess_sample)).
Defined.

(** ** The client's session list *)

Lemma substring_length n text :
  String.length (String.substring 0 n text) = Nat.min n (String.length text).
Proof.
  revert n. induction text as [|c text IH]; intros [|n]; simpl; auto.
Qed.

Lemma string_length_append s1 s2 :
  String.length (String.append s1 s2) = (String.length s1 + String.length s2)%nat.
Proof.
  induction s1 as [|c s1 IH]; [reflexivity|].
  change (S (String.length (String.append s1 s2)) = S (String.length s1 + String.length s2)).
  now rewrite IH.
Qed.

Lemma substring_all n text :
  (String.length text <= n)%nat -> String.substring 0 n text = text.
Proof.
  revert n. induction text as [|c text IH]; intros [|n]; simpl; intros H; try reflexivity; try lia.
  f_equal. apply IH. lia.
Qed.

(** X19: the preview of a response is the response itself when it has at
    most 50 characters, and otherwise its first 50 characters followed by
    three dots; so it never has more than 53 characters. *)
Theorem previewOf_bounded text :
  ((String.length text <= 50)%nat -> Client.previewOf text = text) /\
  ((50 < String.length text)%nat ->
   Client.previewOf text = String.append (String.substring 0 50 text) "..." /\
   String.length (Client.previewOf text) = 53%nat) /\
  (String.length (Client.previewOf text) <= 53)%nat.
Proof.
  unfold Client.previewOf.
  assert (Hlen : String.length (String.substring 0 50 text) = Nat.min 50 (String.length text))
    by apply substring_length.
  split; [|split].
  - intros H. destruct (Nat.ltb_spec 50 (String.length text)); [lia|].
    rewrite append_nil_r. now apply substring_all.
  - intros H. destruct (Nat.ltb_spec 50 (String.length text)); [|lia].
    split; [reflexivity|]. rewrite string_length_append, Hlen. cbn [String.length]. lia.
  - rewrite string_length_append, Hlen.
    destruct (Nat.ltb_spec 50 (String.length text)); cbn [String.length]; lia.
Qed.

Lemma previewOf_bounded_witness : Client.previewOf "Hello" = "Hello".
Proof.
  refine (proj1 (previewOf_bounded "Hello") _). simpl. lia.
Defined.

Lemma recordSession_ids sid now count text sessions :
  map Client.id (Client.recordSession sid now count text sessions)
  = if existsb (fun s => String.eqb (Client.id s) sid) sessions
    then map Client.id sessions
    else sid :: map Client.id sessions.
Proof.
  unfold Client.recordSession.
  destruct (existsb (fun s => String.eqb (Client.id s) sid) sessions); [|reflexivity].
  rewrite map_map. apply map_ext. intros s. now destruct (String.eqb (Client.id s) sid).
Qed.

(** X20: recording a session in the list keeps the list a list of distinct
    sessions: the ids stay as they were when the session is known, in the
    same order, and the new id is put in front when it is not.  Afterwards
    every session with the selected id carries the new count and preview,
    and each other session is unchanged. *)
Theorem recordSession_upserts sid now count text sessions :
  (In sid (map Client.id sessions) ->
   map Client.id (Client.recordSession sid now count text sessions) = map Client.id sessions) /\
  (~ In sid (map Client.id sessions) ->
   Client.recordSession sid now count text sessions
     = Client.mkSession sid now count (Client.previewOf text) :: sessions) /\
  (NoDup (map Client.id sessions) ->
   NoDup (map Client.id (Client.recordSession sid now count text sessions))) /\
  In sid (map Client.id (Client.recordSession sid now count text sessions)) /\
  (forall s, In s (Client.recordSession sid now count text sessions) ->
     (Client.id s = sid /\ Client.messageCount s = count /\
      Client.preview s = Client.previewOf text) \/
     (Client.id s <> sid /\ In s sessions)).
Proof.
  assert (Hex : existsb (fun s => String.eqb (Client.id s) sid) sessions = true
                <-> In sid (map Client.id sessions)).
  { rewrite existsb_exists, in_map_iff. split.
    - intros [s [Hin He]]. apply String.eqb_eq in He. eauto.
    - intros [s [He Hin]]. exists s. split; [exact Hin|]. now apply String.eqb_eq. }
  pose proof (recordSession_ids sid now count text sessions) as Hids.
  split; [|split; [|split; [|split]]].
  - intros Hin. apply Hex in Hin. now rewrite Hids, Hin.
  - intros Hnot. unfold Client.recordSession.
    destruct (existsb (fun s => String.eqb (Client.id s) sid) sessions) eqn:E; [|reflexivity].
    exfalso. apply Hnot. now apply Hex.
  - intros Hnd. rewrite Hids.
    destruct (existsb (fun s => String.eqb (Client.id s) sid) sessions) eqn:E; [exact Hnd|].
    apply NoDup_cons. split; [|exact Hnd].
    intros Hin. apply list_elem_of_In, Hex in Hin. congruence.
  - rewrite Hids.
    destruct (existsb (fun s => String.eqb (Client.id s) sid) sessions) eqn:E;
      [now apply Hex | now left].
  - intros s. unfold Client.recordSession.
    destruct (existsb (fun s => String.eqb (Client.id s) sid) sessions) eqn:E.
    + intros Hin. apply in_map_iff in Hin as [s0 [Hs Hin]].
      destruct (String.eqb (Client.id s0) sid) eqn:E0.
      * apply String.eqb_eq in E0. subst s. left. auto.
      * apply String.eqb_neq in E0. subst s. right. auto.
    + intros [<- | Hin]; [left; auto|]. right. split; [|exact Hin].
      intros Hid. assert (Hsid : In sid (map Client.id sessions)).
      { apply in_map_iff. eauto. }
      apply Hex in Hsid. congruence.
Qed.

Lemma recordSession_upserts_witness :
  map Client.id (Client.recordSession "s1" 5 2%nat "Hello"
                   [Client.mkSession "s0" 1 1%nat "a"; Client.mkSession "s1" 2 1%nat "b"])
  = ["s0"; "s1"].
Proof.
  refine (proj1 (recordSession_upserts "s1" 5 2%nat "Hello"
                   [Client.mkSession "s0" 1 1%nat "a"; Client.mkSession "s1" 2 1%nat "b"]) _).
  simpl. auto.
Defined.

Lemma deleteSession_map sid f sessions :
  (forall s, Client.id (f s) = Client.id s) ->
  Client.deleteSession sid (map f sessions) = map f (Client.deleteSession sid sessions).
Proof.
  intros Hf. unfold Client.deleteSession.
  induction sessions as [|s sessions IH]; [reflexivity|]. cbn [map List.filter].
  rewrite Hf, IH. now destruct (negb (String.eqb (Client.id s) sid)).
Qed.

(** X21: deleting a session from the list that [recordSession] computed.
    Deleting the recorded session itself gives the old list without the
    sessions of that id, so the old list itself when the id was new.
    Deleting another session and recording commute.  After a deletion no
    session of the list has the deleted id. *)
Theorem deleteSession_after_recordSession sid now count text sessions :
  Client.deleteSession sid (Client.recordSession sid now count text sessions)
    = Client.deleteSession sid sessions /\
  (~ In sid (map Client.id sessions) ->
   Client.deleteSession sid (Client.recordSession sid now count text sessions) = sessions) /\
  (forall other, other <> sid ->
   Client.deleteSession other (Client.recordSession sid now count text sessions)
     = Client.recordSession sid now count text (Client.deleteSession other sessions)) /\
  (forall other, ~ In other (map Client.id (Client.deleteSession other sessions))).
Proof.
  assert (Hnone : forall l, ~ In sid (map Client.id l) -> Client.deleteSession sid l = l).
  { induction l as [|s l IH]; [reflexivity|]. cbn [map In]. intros Hn.
    unfold Client.deleteSession in *. cbn [List.filter].
    destruct (String.eqb (Client.id s) sid) eqn:E.
    - apply String.eqb_eq in E. tauto.
    - cbn [negb]. f_equal. apply IH. tauto. }
  assert (Hex : forall l, existsb (fun s => String.eqb (Client.id s) sid) l = true
                <-> In sid (map Client.id l)).
  { intros l. rewrite existsb_exists, in_map_iff. split.
    - intros [s [Hin He]]. apply String.eqb_eq in He. eauto.
    - intros [s [He Hin]]. exists s. split; [exact Hin|]. now apply String.eqb_eq. }
  assert (H1 : Client.deleteSession sid (Client.recordSession sid now count text sessions)
               = Client.deleteSession sid sessions).
  { unfold Client.recordSession.
    destruct (existsb (fun s => String.eqb (Client.id s) sid) sessions).
    - unfold Client.deleteSession.
      induction sessions as [|s l IH]; [reflexivity|]. cbn [map List.filter].
      destruct (String.eqb (Client.id s) sid) eqn:E; cbn [Client.id]; rewrite E; cbn [negb].
      + exact IH.
      + now rewrite IH.
    - unfold Client.deleteSession. cbn [List.filter Client.id].
      now rewrite String.eqb_refl. }
  split; [exact H1|]. split; [|split].
  - intros Hn. rewrite H1. now apply Hnone.
  - intros other Hne. unfold Client.recordSession.
    assert (Hsame : forall l0, existsb (fun s => String.eqb (Client.id s) sid)
                      (Client.deleteSession other l0)
                    = existsb (fun s => String.eqb (Client.id s) sid) l0).
    { unfold Client.deleteSession.
      induction l0 as [|s l IH]; [reflexivity|]. cbn [existsb List.filter].
      destruct (String.eqb (Client.id s) other) eqn:E; cbn [negb existsb].
      - apply String.eqb_eq in E. rewrite IH.
        destruct (String.eqb (Client.id s) sid) eqn:E'; [|reflexivity].
        apply String.eqb_eq in E'. congruence.
      - now rewrite IH. }
    rewrite Hsame. destruct (existsb (fun s => String.eqb (Client.id s) sid) sessions).
    + apply deleteSession_map. intros s. now destruct (String.eqb (Client.id s) sid).
    + unfold Client.deleteSession. cbn [List.filter Client.id].
      apply String.eqb_neq in Hne. rewrite String.eqb_sym, Hne. reflexivity.
  - intros other Hin. apply in_map_iff in Hin as [s [Hid Hin]].
    unfold Client.deleteSession in Hin. apply List.filter_In in Hin as [_ Hneg].
    apply negb_true_iff, String.eqb_neq in Hneg. contradiction.
Qed.

Lemma deleteSession_after_recordSession_witness :
  Client.deleteSession "s1" (Client.recordSession "s1" 5 2%nat "Hello"
                               [Client.mkSession "s0" 1 1%nat "a"])
  = [Client.mkSession "s0" 1 1%nat "a"].
Proof.
  refine (proj1 (proj2 (deleteSession_after_recordSession "s1" 5 2%nat "Hello"
                          [Client.mkSession "s0" 1 1%nat "a"])) _).
  simpl. intros [H | []]. discriminate H.
Defined.

(** ** The pool status the Worker reports *)

Lemma availableCount_pos w :
  (0 < availableCount w)%nat <-> exists id a, In (id, a) (sessionPool w) /\ freeAt w a.
Proof.
  unfold availableCount, freeAt. generalize (sessionPool w) as entries.
  induction entries as [|[k a] entries IH]; cbn [List.filter length In snd].
  - split; [lia | intros (? & ? & [] & _)].
  - destruct (heap w !! a) as [pooled|] eqn:Hl.
    + destruct (inUse pooled) eqn:Hu; cbn [negb length].
      * rewrite IH. split.
        -- intros (id & b & Hin & Hf). eauto 6.
        -- intros (id & b & [[= <- <-] | Hin] & p & Hp & Hfree); [congruence | eauto 6].
      * split; [|lia]. intros _. exists k, a. eauto.
    + rewrite IH. split.
      * intros (id & b & Hin & Hf). eauto 6.
      * intros (id & b & [[= <- <-] | Hin] & p & Hp & Hfree); [congruence | eauto 6].
Qed.

(** X22: the pool status that the Worker reports and what a request then
    gets.  The status is computed from the container's [/ready] response.
    The container counts as running exactly when its server is ready (a
    503 response reads as not running), and the sizes are those of the
    pool.  The pool is reported ready exactly when the server is ready and
    some entry stored in the pool is free; in that state [getSession]
    returns an entry of the pool and the outcome of session creation plays
    no part.  When the server is ready and the pool is reported not ready,
    no entry is free and [getSession] returns [null] exactly when session
    creation fails. *)
Theorem poolStatus_predicts_acquisition serverReady t startTime w :
  Worker.containerRunning (Worker.poolStatus (Some (readyRoute serverReady t startTime w)))
    = serverReady /\
  (serverReady = true ->
   Worker.poolSize (Worker.poolStatus (Some (readyRoute serverReady t startTime w)))
     = length (sessionPool w) /\
   Worker.available (Worker.poolStatus (Some (readyRoute serverReady t startTime w)))
     = availableCount w) /\
  (Worker.poolReady (Worker.poolStatus (Some (readyRoute serverReady t startTime w))) = true
   <-> serverReady = true /\ exists id a, In (id, a) (sessionPool w) /\ freeAt w a) /\
  (Worker.poolReady (Worker.poolStatus (Some (readyRoute serverReady t startTime w))) = true ->
   forall now outcome env uid,
     exists id b,
       In (id, b) (sessionPool w) /\
       getSession now outcome env uid w = (Some b, (getSession now None env uid w).2)) /\
  (serverReady = true ->
   Worker.poolReady (Worker.poolStatus (Some (readyRoute serverReady t startTime w))) = false ->
   noFree w /\
   forall now outcome env uid,
     (getSession now outcome env uid w).1 = None <-> outcome = None).
Proof.
  assert (Hready : Worker.poolReady
                     (Worker.poolStatus (Some (readyRoute serverReady t startTime w)))
                   = serverReady && (0 <? availableCount w)%nat).
  { unfold Worker.poolStatus, readyRoute. now destruct serverReady. }
  rewrite Hready.
  assert (Hiff : serverReady && (0 <? availableCount w)%nat = true
                 <-> serverReady = true /\ exists id a, In (id, a) (sessionPool w) /\ freeAt w a).
  { now rewrite andb_true_iff, Nat.ltb_lt, availableCount_pos. }
  split; [now destruct serverReady|].
  split; [now intros ->|]. split; [exact Hiff|]. split.
  - intros H. apply Hiff in H as (_ & id & a & Hin & p & Hl & Hu).
    intros now outcome env uid. unfold getSession.
    destruct (reusable uid w) as [b|] eqn:Hr.
    + apply reusable_Some in Hr as (k & pooled & _ & _ & Hg & _).
      exists k, b. split; [now apply get_In | reflexivity].
    + destruct (firstFree (heap w) (sessionPool w)) as [[id' b]|] eqn:Hf.
      * apply firstFree_In in Hf as [Hinb _]. exists id', b. split; [exact Hinb | reflexivity].
      * exfalso. pose proof (firstFree_None _ _ Hf _ _ _ Hin Hl) as Hall. congruence.
  - intros -> Hfalse. cbn [andb] in Hfalse. apply Nat.ltb_ge in Hfalse.
    assert (Hnf : noFree w).
    { intros id a pooled Hin Hl. destruct (inUse pooled) eqn:Hu; [reflexivity|].
      assert (0 < availableCount w)%nat; [|lia].
      apply availableCount_pos. exists id, a. split; [exact Hin|]. exists pooled. auto. }
    split; [exact Hnf|]. intros now outcome env uid. unfold getSession.
    rewrite (noFree_reusable _ _ Hnf), (noFree_firstFree _ Hnf).
    destruct outcome; cbn; split; congruence.
Qed.

Lemma poolStatus_predicts_acquisition_witness :
  exists id b,
    In (id, b) (sessionPool Samples.twoWarm) /\
    getSession 5 None (fun w => w) None Samples.twoWarm
      = (Some b, (getSession 5 None (fun w => w) None Samples.twoWarm).2).
Proof.
  refine (proj1 (proj2 (proj2 (proj2
            (poolStatus_predicts_acquisition true 9 0 Samples.twoWarm)))) _ 5 None (fun w => w) None).
  reflexivity.
Defined.
